(** * Courtney / GLaDOS transport relay: the reconnecting WebSocket client
      and the TCP stream proxy

    Two programs of the repository are embedded here.

    - [Client]: the class [GLaDOSWebSocket] (the browser-side connection
      manager: connect, authenticate, retry with backoff, event emitter).
    - [Proxy]: the Go function [handleConnection] of the TCP proxy, in the
      two versions the repository carries (one joins its two copy
      goroutines with a [sync.WaitGroup], the other runs one direction
      inline and waits on a [done] channel).

    JavaScript statements are written in a small state-and-exception monad
    so that a [try]/[catch] keeps the assignments made before the throw,
    as in the language.  The Go handler is a transition system over
    program points, scheduled one atomic step at a time. *)

From Stdlib Require Import ZArith NArith QArith Qpower Qminmax Qround Lia Bool Ascii.
From stdpp Require Import gmap strings list.

Set Warnings "-register-all".
Local Open Scope string_scope.
Local Open Scope list_scope.

(** ** JavaScript values that cross the wire *)

Module Js.

(** What [JSON.parse] can return.  The client never computes with a number
    it receives: it only tests it for truthiness and may use it as a
    property key, and both depend on nothing but the number's canonical
    rendering ([Number::toString]), which is what [JNum] carries. *)
Inductive json : Type :=
| JNull
| JBool (b : bool)
| JNum (repr : string)
| JStr (s : string)
| JArr (items : list json)
| JObj (fields : list (string * json)).

(** A JavaScript value read from a property: [None] is [undefined]. *)
Definition jsval : Type := option json.

Inductive exn : Type :=
| SyntaxError
| TypeError
| InvalidStateError
| HandlerError (h : nat).

Inductive completion (A : Type) : Type :=
| Normal (a : A)
| Abrupt (e : exn).
Arguments Normal {A} a.
Arguments Abrupt {A} e.

Fixpoint assoc (k : string) (fields : list (string * json)) : jsval :=
  match fields with
  | [] => None
  | (k', v) :: rest => if String.eqb k k' then Some v else assoc k rest
  end.

(** [v.k] for one of the keys the client reads ([type], [status],
    [user_id], [username], [message]); none of them is defined on a
    prototype, so only an object's own fields answer.  Reading a property
    of [null] throws. *)
Definition get_prop (v : json) (k : string) : completion jsval :=
  match v with
  | JNull => Abrupt TypeError
  | JObj fields => Normal (assoc k fields)
  | _ => Normal None
  end.

(** [ToBoolean]. *)
Definition truthy (v : jsval) : bool :=
  match v with
  | None => false
  | Some JNull => false
  | Some (JBool b) => b
  | Some (JNum repr) => negb (String.eqb repr "0")
  | Some (JStr s) => negb (String.eqb s "")
  | Some (JArr _) => true
  | Some (JObj _) => true
  end.

(** [v === 'lit'] for a string literal. *)
Definition strict_eq_str (v : jsval) (lit : string) : bool :=
  match v with
  | Some (JStr s) => String.eqb s lit
  | _ => false
  end.

(** [ToString], as used when a value becomes a property key. *)
Fixpoint ToString (v : json) : string :=
  match v with
  | JNull => "null"
  | JBool true => "true"
  | JBool false => "false"
  | JNum repr => repr
  | JStr s => s
  | JArr items =>
      (fix join (l : list json) : string :=
         match l with
         | [] => ""
         | x :: rest =>
             let sx := match x with JNull => "" | _ => ToString x end in
             match rest with
             | [] => sx
             | _ :: _ => String.append sx (String.append "," (join rest))
             end
         end) items
  | JObj _ => "[object Object]"
  end.

Definition ToPropertyKey (v : jsval) : string :=
  match v with
  | None => "undefined"
  | Some j => ToString j
  end.

End Js.

(** ** The reconnecting client ([GLaDOSWebSocket]) *)

Module Client.
Import Js.

(** [WebSocket.readyState]. *)
Inductive ReadyState : Type := CONNECTING | OPEN | CLOSING | CLOSED.

Definition ReadyState_eqb (a b : ReadyState) : bool :=
  match a, b with
  | CONNECTING, CONNECTING | OPEN, OPEN | CLOSING, CLOSING | CLOSED, CLOSED => true
  | _, _ => false
  end.

(** The object literals the client passes to [send]. *)
Inductive envelope : Type :=
| Auth (token : option string)
| Text (message : string)
| Audio (data format : string) (sampleRate : Z)
| HistoryRequest (offset limit : Z).

(** The object literals the client passes to [emit] as event data. *)
Inductive payload : Type :=
| PNone
| PMessage (message : jsval)
| PIdentity (user_id username : jsval)
| PClosed (code : Z) (reason : string)
| PReconnecting (delay : Q) (attempt : Z)
| PJson (msg : json).

(** A registered callback.  [hid] is the identity of the function object
    ([off] compares callbacks with [!==]); [throws] tells, for the data it
    is called with, whether the call ends in an exception.  What a callback
    does to the caller's own state is outside the client.  A call it makes
    back into the client is a caller input like any other, taken after the
    turn; that it really runs in the middle of [emit], before the rest of
    the handler that emitted, is not described. *)
Record Handler : Type := mkHandler {
  hid : nat;
  throws : payload -> bool
}.

Record Client : Type := mkClient {
  url : string;
  ws : option nat;
  listeners : gmap string (list Handler);
  reconnectDelay : Q;
  maxReconnectDelay : Q;
  shouldReconnect : bool;
  authenticated : bool;
  connectionAttempts : Z;
  token : option string
}.

(** The browser side: every socket ever constructed with its
    [readyState], the timeouts still pending (by their delay), and whether
    [new WebSocket(url)] rejects this client's URL. *)
Record World : Type := mkWorld {
  sockets : list ReadyState;
  timers : list Q;
  ctor_throws : bool
}.

Record Sys : Type := mkSys {
  client : Client;
  world : World
}.

(** What a run can be observed to do.  [EEmit] marks a call of [emit]
    (an event is emitted whether or not anybody listens); [ECall] is one
    invocation of a registered callback. *)
Inductive Effect : Type :=
| ENewWebSocket (id : nat) (u : string)
| EWsSend (id : nat) (env : envelope)
| EWsClose (id : nat) (code : Z) (reason : string)
| ESetTimeout (delay : Q)
| EEmit (event : string) (data : payload)
| ECall (h : nat) (data : payload).

(** *** Statements: state, effects and exceptions *)

Definition M (A : Type) : Type := Sys -> completion A * Sys * list Effect.

Definition ret {A} (a : A) : M A := fun s => (Normal a, s, []).

Definition bind {A B} (m : M A) (k : A -> M B) : M B :=
  fun s =>
    match m s with
    | (Normal a, s1, t1) =>
        match k a s1 with
        | (r, s2, t2) => (r, s2, t1 ++ t2)
        end
    | (Abrupt e, s1, t1) => (Abrupt e, s1, t1)
    end.

Definition throw {A} (e : exn) : M A := fun s => (Abrupt e, s, []).

Definition try_catch {A} (body : M A) (handler : exn -> M A) : M A :=
  fun s =>
    match body s with
    | (Normal a, s1, t1) => (Normal a, s1, t1)
    | (Abrupt e, s1, t1) =>
        match handler e s1 with
        | (r, s2, t2) => (r, s2, t1 ++ t2)
        end
    end.

Definition lift {A} (c : completion A) : M A := fun s => (c, s, []).
Definition this : M Client := fun s => (Normal (client s), s, []).
Definition browser : M World := fun s => (Normal (world s), s, []).
Definition tell (e : Effect) : M unit := fun s => (Normal tt, s, [e]).
Definition update (f : Client -> Client) : M unit :=
  fun s => (Normal tt, mkSys (f (client s)) (world s), []).
Definition update_world (f : World -> World) : M unit :=
  fun s => (Normal tt, mkSys (client s) (f (world s)), []).

Declare Scope js_scope.
Delimit Scope js_scope with js.
Notation "x <- m ;; k" := (bind m (fun x => k))
  (at level 100, m at next level, right associativity) : js_scope.
Notation "m ;; k" := (bind m (fun _ => k))
  (at level 100, right associativity) : js_scope.
Local Open Scope js_scope.

Fixpoint forEach {A} (l : list A) (callback : A -> M unit) : M unit :=
  match l with
  | [] => ret tt
  | x :: rest => callback x ;; forEach rest callback
  end.

(** *** Field assignments *)

Definition set_ws (v : option nat) (c : Client) : Client :=
  mkClient (url c) v (listeners c) (reconnectDelay c) (maxReconnectDelay c)
           (shouldReconnect c) (authenticated c) (connectionAttempts c) (token c).
Definition set_listeners (v : gmap string (list Handler)) (c : Client) : Client :=
  mkClient (url c) (ws c) v (reconnectDelay c) (maxReconnectDelay c)
           (shouldReconnect c) (authenticated c) (connectionAttempts c) (token c).
Definition set_reconnectDelay (v : Q) (c : Client) : Client :=
  mkClient (url c) (ws c) (listeners c) v (maxReconnectDelay c)
           (shouldReconnect c) (authenticated c) (connectionAttempts c) (token c).
Definition set_shouldReconnect (v : bool) (c : Client) : Client :=
  mkClient (url c) (ws c) (listeners c) (reconnectDelay c) (maxReconnectDelay c)
           v (authenticated c) (connectionAttempts c) (token c).
Definition set_authenticated (v : bool) (c : Client) : Client :=
  mkClient (url c) (ws c) (listeners c) (reconnectDelay c) (maxReconnectDelay c)
           (shouldReconnect c) v (connectionAttempts c) (token c).
Definition set_connectionAttempts (v : Z) (c : Client) : Client :=
  mkClient (url c) (ws c) (listeners c) (reconnectDelay c) (maxReconnectDelay c)
           (shouldReconnect c) (authenticated c) v (token c).
Definition set_token (v : option string) (c : Client) : Client :=
  mkClient (url c) (ws c) (listeners c) (reconnectDelay c) (maxReconnectDelay c)
           (shouldReconnect c) (authenticated c) (connectionAttempts c) v.

Definition set_sockets (v : list ReadyState) (w : World) : World :=
  mkWorld v (timers w) (ctor_throws w).
Definition set_timers (v : list Q) (w : World) : World :=
  mkWorld (sockets w) v (ctor_throws w).

(** [constructor(url)]. *)
Definition constructor (u : string) : Client :=
  {| url := u;
     ws := None;
     listeners := ∅;
     reconnectDelay := 1000;
     maxReconnectDelay := 30000;
     shouldReconnect := true;
     authenticated := false;
     connectionAttempts := 0;
     token := None |}.

(** *** The browser's [WebSocket] and timer primitives *)

(** [ws.readyState]; every handle the client holds was constructed. *)
Definition readyState (id : nat) : M ReadyState :=
  w <- browser ;;
  ret (default CLOSED (sockets w !! id)).

(** [new WebSocket(url)]: throws on a URL it rejects, otherwise a fresh
    socket in state CONNECTING. *)
Definition new_WebSocket (u : string) : M nat :=
  w <- browser ;;
  if ctor_throws w then throw SyntaxError
  else
    let id := length (sockets w) in
    update_world (set_sockets (sockets w ++ [CONNECTING])) ;;
    tell (ENewWebSocket id u) ;;
    ret id.

(** [ws.send(data)]: throws while CONNECTING, transmits while OPEN and
    discards the data otherwise. *)
Definition ws_send (id : nat) (message : envelope) : M unit :=
  rs <- readyState id ;;
  match rs with
  | CONNECTING => throw InvalidStateError
  | OPEN => tell (EWsSend id message)
  | CLOSING | CLOSED => ret tt
  end.

(** [ws.close(code, reason)]: starts the closing handshake unless the
    socket is already closing or closed. *)
Definition ws_close (id : nat) (code : Z) (reason : string) : M unit :=
  tell (EWsClose id code reason) ;;
  rs <- readyState id ;;
  match rs with
  | CONNECTING | OPEN =>
      update_world (fun w => set_sockets (<[id := CLOSING]> (sockets w)) w)
  | CLOSING | CLOSED => ret tt
  end.

Definition setTimeout (delay : Q) : M unit :=
  update_world (fun w => set_timers (timers w ++ [delay]) w) ;;
  tell (ESetTimeout delay).

(** JavaScript numbers are binary64.  The client computes with them only
    in [scheduleReconnect]: the values 1000 * 1.5^k below the cap are
    dyadic with fewer than 53 significant bits, hence computed exactly,
    and above the cap [Math.min] returns the cap whatever the rounding.
    Delays are therefore exact rationals here and counters integers. *)
Definition Math_pow (x : Q) (n : Z) : Q := Qpower x n.
Definition Math_min (x y : Q) : Q := Qmin x y.

(** [event.data] of a message event, given by what [JSON.parse] makes of
    it: [Some v] when it parses to [v], [None] when parsing throws. *)
Definition MessageData : Type := option json.

Definition JSON_parse (data : MessageData) : M json :=
  match data with
  | Some v => ret v
  | None => throw SyntaxError
  end.

Definition str (s : string) : jsval := Some (JStr s).

(** *** Methods *)

Definition call (callback : Handler) (data : payload) : M unit :=
  tell (ECall (hid callback) data) ;;
  if throws callback data then throw (HandlerError (hid callback)) else ret tt.

(** The property names every object inherits from [Object.prototype].
    [listeners] is created as [{}]: reading [this.listeners[event]] for one
    of these names finds, unless an own property shadows it, the inherited
    function (for [__proto__] the prototype itself), which is truthy and
    has none of the array methods. *)
Definition inherited (key : string) : bool :=
  existsb (String.eqb key)
    ["constructor"; "hasOwnProperty"; "isPrototypeOf"; "propertyIsEnumerable";
     "toLocaleString"; "toString"; "valueOf"; "__proto__";
     "__defineGetter__"; "__defineSetter__"; "__lookupGetter__"; "__lookupSetter__"].

(** What [this.listeners[event]] evaluates to. *)
Inductive Slot : Type :=
| Own (callbacks : list Handler)
| Inherited
| Absent.

Definition slot (c : Client) (event : string) : Slot :=
  match listeners c !! event with
  | Some callbacks => Own callbacks
  | None => if inherited event then Inherited else Absent
  end.

(** [emit(event, data)]; the [catch] branch only logs.  On an inherited
    slot the test passes and the call of [forEach] throws. *)
Definition emit (event : string) (data : payload) : M unit :=
  tell (EEmit event data) ;;
  c <- this ;;
  match slot c event with
  | Own callbacks =>
      forEach callbacks (fun callback =>
        try_catch (call callback data) (fun error => ret tt))
  | Inherited => throw TypeError
  | Absent => ret tt
  end.

(** [on(event, callback)]. *)
Definition on (event : string) (callback : Handler) : M unit :=
  c <- this ;;
  (match slot c event with
   | Absent => update (fun c => set_listeners (<[event := []]> (listeners c)) c)
   | _ => ret tt
   end) ;;
  c <- this ;;
  match slot c event with
  | Own callbacks =>
      update (set_listeners (<[event := callbacks ++ [callback]]> (listeners c)))
  | _ => throw TypeError
  end.

(** [off(event, callback)]. *)
Definition off (event : string) (callback : Handler) : M unit :=
  c <- this ;;
  match slot c event with
  | Own callbacks =>
      update (set_listeners
        (<[event := filter (fun cb => hid cb ≠ hid callback) callbacks]> (listeners c)))
  | Inherited => throw TypeError
  | Absent => ret tt
  end.

(** [send(message)]. *)
Definition send (message : envelope) : M bool :=
  c <- this ;;
  match ws c with
  | Some id =>
      rs <- readyState id ;;
      if ReadyState_eqb rs OPEN then
        try_catch
          (ws_send id message ;; ret true)
          (fun error =>
             emit "error" (PMessage (str "Failed to send message")) ;;
             ret false)
      else ret false
  | None => ret false
  end.

Definition sendText (text : string) : M bool :=
  send (Text text).

Definition sendAudio (audioData format : string) (sampleRate : Z) : M bool :=
  send (Audio audioData format sampleRate).

Definition requestHistory (offset limit : Z) : M bool :=
  send (HistoryRequest offset limit).

(** [isReady()], as the boolean its result converts to. *)
Definition isReady (s : Sys) : bool :=
  match ws (client s) with
  | Some id =>
      ReadyState_eqb (default CLOSED (sockets (world s) !! id)) OPEN
      && authenticated (client s)
  | None => false
  end.

(** [getStatus()].  A socket's [readyState] is always one of the four
    constants of the [switch], so its [default] branch is never taken. *)
Definition getStatus (s : Sys) : string :=
  match ws (client s) with
  | None => "disconnected"
  | Some id =>
      match default CLOSED (sockets (world s) !! id) with
      | CONNECTING => "connecting"
      | OPEN => if authenticated (client s) then "authenticated" else "connected"
      | CLOSING => "closing"
      | CLOSED => "disconnected"
      end
  end.

(** [setupEventHandlers()] installs the four closures below on the socket
    just constructed; they refer to the client, never to the socket, so
    every socket of the world carries the same ones. *)
Definition setupEventHandlers : M unit := ret tt.

(** [connect(token)]. *)
Definition connect (tok : string) : M unit :=
  update (set_token (Some tok)) ;;
  update (set_shouldReconnect true) ;;
  try_catch
    (c <- this ;;
     id <- new_WebSocket (url c) ;;
     update (set_ws (Some id)) ;;
     setupEventHandlers)
    (fun error =>
       emit "error" (PMessage (str "Failed to create WebSocket connection"))).

(** The closure handed to [setTimeout]. *)
Definition retry : M unit :=
  c <- this ;;
  match token c with
  | Some tok =>
      if shouldReconnect c && negb (String.eqb tok "") then connect tok else ret tt
  | None => ret tt
  end.

(** [scheduleReconnect()]. *)
Definition scheduleReconnect : M unit :=
  update (fun c => set_connectionAttempts (connectionAttempts c + 1) c) ;;
  c <- this ;;
  let delay :=
    Math_min (reconnectDelay c * Math_pow 1.5 (connectionAttempts c - 1))
             (maxReconnectDelay c) in
  emit "reconnecting" (PReconnecting delay (connectionAttempts c)) ;;
  setTimeout delay.

(** [ws.onopen]. *)
Definition onopen : M unit :=
  update (set_connectionAttempts 0) ;;
  update (set_reconnectDelay 1000) ;;
  c <- this ;;
  send (Auth (token c)) ;;
  emit "connected" PNone.

(** [ws.onmessage]. *)
Definition onmessage (data : MessageData) : M unit :=
  try_catch
    (msg <- JSON_parse data ;;
     ty <- lift (get_prop msg "type") ;;
     (if strict_eq_str ty "auth_response" then
        status <- lift (get_prop msg "status") ;;
        if strict_eq_str status "ok" then
          update (set_authenticated true) ;;
          user_id <- lift (get_prop msg "user_id") ;;
          username <- lift (get_prop msg "username") ;;
          emit "authenticated" (PIdentity user_id username)
        else
          update (set_authenticated false) ;;
          update (set_shouldReconnect false) ;;
          message <- lift (get_prop msg "message") ;;
          emit "auth_failed"
               (PMessage (if truthy message then message
                          else str "Authentication failed"))
      else ret tt) ;;
     emit (ToPropertyKey ty) (PJson msg))
    (fun error =>
       emit "error" (PMessage (str "Failed to parse server message"))).

(** [ws.onerror]. *)
Definition onerror : M unit :=
  emit "error" (PMessage (str "WebSocket connection error")).

(** [ws.onclose]. *)
Definition onclose (code : Z) (reason : string) : M unit :=
  update (set_authenticated false) ;;
  emit "disconnected" (PClosed code reason) ;;
  c <- this ;;
  if shouldReconnect c then scheduleReconnect else ret tt.

(** [disconnect(permanent)]. *)
Definition disconnect (permanent : bool) : M unit :=
  update (set_shouldReconnect (negb permanent)) ;;
  c <- this ;;
  match ws c with
  | Some id =>
      ws_close id 1000 "Client disconnecting" ;;
      update (set_ws None)
  | None => ret tt
  end.

(** *** The event loop *)

(** What can happen to a client: a call by the application, an event of
    one of the sockets it constructed, or a pending timeout coming due. *)
Inductive Input : Type :=
| Connect (tok : string)
| Disconnect (permanent : bool)
| SendText (text : string)
| SendAudio (audioData format : string) (sampleRate : Z)
| RequestHistory (offset limit : Z)
| On (event : string) (callback : Handler)
| Off (event : string) (callback : Handler)
| WsOpen (id : nat)
| WsMessage (id : nat) (data : MessageData)
| WsError (id : nat)
| WsClose (id : nat) (code : Z) (reason : string)
| TimerFire (k : nat).

Definition set_socket (id : nat) (rs : ReadyState) (s : Sys) : Sys :=
  mkSys (client s) (set_sockets (<[id := rs]> (sockets (world s))) (world s)).

Definition drop_timer (k : nat) (s : Sys) : Sys :=
  mkSys (client s) (set_timers (delete k (timers (world s))) (world s)).

Definition void {A} (m : M A) : M unit := _ <- m ;; ret tt.

(** One turn of the event loop.  [None]: the browser cannot deliver this
    event in this state (an [open] needs a connecting socket, a [message]
    an open one, [error] and [close] one that is not closed yet, a timeout
    must be pending). *)
Definition step (i : Input) (s : Sys) : option (completion unit * Sys * list Effect) :=
  match i with
  | Connect tok => Some (connect tok s)
  | Disconnect permanent => Some (disconnect permanent s)
  | SendText text => Some (void (sendText text) s)
  | SendAudio d f r => Some (void (sendAudio d f r) s)
  | RequestHistory o l => Some (void (requestHistory o l) s)
  | On event cb => Some (on event cb s)
  | Off event cb => Some (off event cb s)
  | WsOpen id =>
      match sockets (world s) !! id with
      | Some CONNECTING => Some (onopen (set_socket id OPEN s))
      | _ => None
      end
  | WsMessage id data =>
      match sockets (world s) !! id with
      | Some OPEN => Some (onmessage data s)
      | _ => None
      end
  | WsError id =>
      match sockets (world s) !! id with
      | Some CLOSED | None => None
      | Some _ => Some (onerror s)
      end
  | WsClose id code reason =>
      match sockets (world s) !! id with
      | Some CLOSED | None => None
      | Some _ => Some (onclose code reason (set_socket id CLOSED s))
      end
  | TimerFire k =>
      match timers (world s) !! k with
      | Some _ => Some (retry (drop_timer k s))
      | None => None
      end
  end.

(** A run: the inputs in order, the effects concatenated.  An exception
    that escaped a turn would be reported by the browser and the loop
    would go on; [step_normal] below shows that none escapes. *)
Fixpoint run (inputs : list Input) (s : Sys) : option (Sys * list Effect) :=
  match inputs with
  | [] => Some (s, [])
  | i :: rest =>
      match step i s with
      | Some (_, s1, t1) =>
          match run rest s1 with
          | Some (s2, t2) => Some (s2, t1 ++ t2)
          | None => None
          end
      | None => None
      end
  end.

(** The events emitted in a trace, in order. *)
Fixpoint emitted (t : list Effect) : list (string * payload) :=
  match t with
  | [] => []
  | EEmit event data :: rest => (event, data) :: emitted rest
  | _ :: rest => emitted rest
  end.

(** The callbacks registered for [event], in the order of the array. *)
Definition handlers_of (s : Sys) (event : string) : list Handler :=
  default [] (listeners (client s) !! event).

(** Whether [emit] finds an inherited slot, and throws. *)
Definition emit_throws (s : Sys) (event : string) : bool :=
  match slot (client s) event with
  | Inherited => true
  | _ => false
  end.

(** The inputs that come from the browser's event loop. *)
Definition from_browser (i : Input) : bool :=
  match i with
  | WsOpen _ | WsMessage _ _ | WsError _ | WsClose _ _ _ | TimerFire _ => true
  | _ => false
  end.

(** The invocations a call of [emit] is expected to make. *)
Definition calls_of (s : Sys) (event : string) (data : payload) : list Effect :=
  map (fun h => ECall (hid h) data) (handlers_of s event).

(** An effect by which the client goes for another connection: the
    [reconnecting] event of [scheduleReconnect], the timeout it sets, or
    the construction of a socket. *)
Definition schedules_retry (e : Effect) : bool :=
  match e with
  | ENewWebSocket _ _ => true
  | ESetTimeout _ => true
  | EEmit event (PReconnecting _ _) => String.eqb event "reconnecting"
  | _ => false
  end.

(** The inputs by which the application asks for (re)connection:
    [connect(token)] and [disconnect(false)] both assign [true] to
    [shouldReconnect]. *)
Definition rearms (i : Input) : bool :=
  match i with
  | Connect _ => true
  | Disconnect permanent => negb permanent
  | _ => false
  end.

(** The socket [send] would write to: [this.ws] when it is set and OPEN. *)
Definition open_socket (s : Sys) : option nat :=
  match ws (client s) with
  | Some id =>
      if ReadyState_eqb (default CLOSED (sockets (world s) !! id)) OPEN
      then Some id else None
  | None => None
  end.

(** The retries announced in a trace: attempt number and delay of every
    [reconnecting] event of [scheduleReconnect], in order. *)
Fixpoint retries (t : list Effect) : list (Z * Q) :=
  match t with
  | [] => []
  | EEmit event (PReconnecting delay attempt) :: rest =>
      if String.eqb event "reconnecting"
      then (attempt, delay) :: retries rest
      else retries rest
  | _ :: rest => retries rest
  end.

(** The delays of the timeouts set in a trace, in order. *)
Fixpoint timeouts (t : list Effect) : list Q :=
  match t with
  | [] => []
  | ESetTimeout delay :: rest => delay :: timeouts rest
  | _ :: rest => timeouts rest
  end.

Definition is_open (i : Input) : bool :=
  match i with
  | WsOpen _ => true
  | _ => false
  end.

(** The delay the specification gives for the [n]-th consecutive failure,
    in its own words: min(baseDelay * backoffFactor^(attempts-1), maxDelay)
    with base 1000, factor 1.5 and cap 30000. *)
Definition spec_delay (n : Z) : Q := Qmin (1000 * 1.5 ^ (n - 1)) 30000.

(** The event [onmessage] derives from an [auth_response], if any. *)
Definition derived_event (msg : json) (ty : jsval) : list (string * payload) :=
  if strict_eq_str ty "auth_response" then
    match msg with
    | JObj fields =>
        if strict_eq_str (assoc "status" fields) "ok" then
          [("authenticated",
            PIdentity (assoc "user_id" fields) (assoc "username" fields))]
        else
          [("auth_failed",
            PMessage (if truthy (assoc "message" fields)
                      then assoc "message" fields
                      else str "Authentication failed"))]
    | _ => []
    end
  else [].

Definition closes_socket (e : Effect) : bool :=
  match e with
  | EWsClose _ _ _ => true
  | _ => false
  end.

(** A fresh client in a browser that has not opened any socket yet. *)
Definition boot (u : string) (reject_url : bool) : Sys :=
  mkSys (constructor u) (mkWorld [] [] reject_url).

(** *** Scenarios *)

(** [n] connections that fail one after the other: each socket closes
    before it opens, and the timeout set for it comes due. *)
Definition failures (n : nat) : list Input :=
  flat_map (fun k => [WsClose k 1006 ""; TimerFire 0]) (seq 0 n).

(** An [auth_response] that rejects the token. *)
Definition rejection : json :=
  JObj [("type", JStr "auth_response"); ("status", JStr "error");
        ("message", JStr "Invalid token")].

(** An [auth_response] that accepts it. *)
Definition acceptance : json :=
  JObj [("type", JStr "auth_response"); ("status", JStr "ok");
        ("user_id", JNum "7"); ("username", JStr "chell")].

(** The state a run leaves behind, or the start state when the browser
    could not deliver one of the inputs. *)
Definition state_after (inputs : list Input) (s : Sys) : Sys :=
  match run inputs s with
  | Some (s', _) => s'
  | None => s
  end.

Definition fresh : Sys := boot "ws://bridge:8765" false.

(** Transport open, [auth] sent, no [auth_response] yet. *)
Definition awaiting_auth : Sys :=
  state_after [Connect "tok"; WsOpen 0] fresh.

(** Ten failed connections in a row; the eleventh socket is connecting. *)
Definition after_ten_failures : Sys :=
  state_after (Connect "tok" :: failures 10) fresh.

(** A first socket failed and its retry is pending; the application then
    connected by hand, and that socket is open. *)
Definition retry_pending : Sys :=
  state_after [Connect "tok"; WsClose 0 1006 ""; Connect "tok"; WsOpen 1] fresh.

Definition throwing (id : nat) : Handler := mkHandler id (fun _ => true).
Definition returning (id : nat) : Handler := mkHandler id (fun _ => false).

(** *** Readings of a session *)

(** The state of the backoff in a session that started from the
    constructor. *)
Definition backoff_ok (s : Sys) : Prop :=
  reconnectDelay (client s) = 1000%Q
  /\ maxReconnectDelay (client s) = 30000%Q
  /\ (0 <= connectionAttempts (client s))%Z.

Definition retry_ok (r : Z * Q) : Prop :=
  (1 <= fst r)%Z /\ snd r = spec_delay (fst r).

(** The browser rejects the URL and the client holds no socket or timer. *)
Definition rejected (s : Sys) : Prop :=
  ctor_throws (world s) = true /\ sockets (world s) = [] /\ timers (world s) = []
  /\ ws (client s) = None.

(** What the application is told when it calls [connect] then. *)
Definition reports (i : Input) : list (string * payload) :=
  match i with
  | Connect _ => [("error", PMessage (str "Failed to create WebSocket connection"))]
  | _ => []
  end.



(** A callback registered twice among others. *)
Definition twice_registered : Sys :=
  state_after [On "text" (returning 1); On "text" (returning 2); On "text" (returning 1)]
              fresh.

(** Every callback of [text] throws, and the message still is handled to
    the end. *)
Definition hostile_listeners : Sys :=
  state_after [On "text" (throwing 1); On "text" (throwing 2); Connect "tok"; WsOpen 0]
              fresh.

End Client.

(** ** The TCP stream proxy ([handleConnection]) *)

Module Proxy.

(** Go's [int64]: every addition wraps. *)
Definition wrap64 (z : Z) : Z := ((z + 2 ^ 63) mod 2 ^ 64 - 2 ^ 63)%Z.

(** The repository carries the handler twice.  [WaitGroup] is
    [k8s-proxy/main.go]: both directions are goroutines, joined with
    [wg.Wait()].  [DoneChannel] is the other copy: it first sets the socket
    options, runs client->target as a goroutine that closes [done], runs
    target->client in the handler's own goroutine and then receives from
    [done].  Both connections are TCP connections (the listener and the
    dial are [tcp]), so the type assertions to [*net.TCPConn] succeed in
    either version. *)
Inductive Version : Type := WaitGroup | DoneChannel.

Inductive Side : Type := ClientConn | TargetConn.
Inductive Dir : Type := ClientToTarget | TargetToClient.

(** [copyBuffer(dst, src)]: client->target writes to [targetConn]. *)
Definition dst (d : Dir) : Side :=
  match d with
  | ClientToTarget => TargetConn
  | TargetToClient => ClientConn
  end.

Inductive SockOpt : Type := NoDelay | KeepAlive | KeepAlivePeriod.

(** What one handler does, as it can be observed from outside. *)
Inductive Event : Type :=
| AddTotalConns
| AddActiveConns (delta : Z)
| Dialed (ok : bool)
| SetNoDelay (s : Side) (on : bool)
| SetKeepAlive (s : Side) (on : bool)
| SetKeepAlivePeriod (s : Side) (seconds : Z)
| CopyStarted (d : Dir)
| Copied (d : Dir) (n : Z)
| CopyReturned (d : Dir) (n : Z) (err : bool)
| CloseWrite (s : Side)
| Completed (d : Dir)
| Close (s : Side)
| AddTotalBytes (n : Z).

(** Program points of one copy direction: inside [io.CopyBuffer] with
    [written] bytes so far; about to assign the count it returned; about
    to half-close the destination; about to signal completion
    ([wg.Done()], [close(done)], or for the inline direction falling
    through to [<-done]); over. *)
Inductive CopyPc : Type :=
| Copying (written : Z)
| AtStore (n : Z)
| AtCloseWrite
| AtSignal
| Finished.

(** Program points of the handler's own goroutine.  In the [DoneChannel]
    version [AtStartT2C] starts the inline target->client copy and
    [AtWait] stands for the rest of it followed by [<-done]. *)
Inductive MainPc : Type :=
| AtAddTotal
| AtAddActive
| AtDial
| AtFailClose
| AtOption (s : Side) (o : SockOpt)
| AtPrepare
| AtGoC2T
| AtStartT2C
| AtWait
| AtCloseClient
| AtCloseTarget
| AtAddBytes
| AtDeferred
| Returned.

(** One accepted connection: the program points of its goroutines, its
    local variables, and (ghost) the events of this handler so far,
    oldest first. *)
Record Conn : Type := mkConn {
  main : MainPc;
  c2t : option CopyPc;
  t2c : option CopyPc;
  connID : Z;
  dialed : option bool;
  bytesIn : Z;
  bytesOut : Z;
  wg : Z;
  done : bool;
  log : list Event
}.

(** The three package-level counters. *)
Record Counters : Type := mkCounters {
  activeConns : Z;
  totalConns : Z;
  totalBytes : Z
}.

(** The process: the counters and every connection accepted so far. *)
Record Proxy : Type := mkProxy {
  counters : Counters;
  conns : list Conn
}.

Definition accepted : Conn :=
  mkConn AtAddTotal None None 0 None 0 0 0 false [].

Definition boot : Proxy := mkProxy (mkCounters 0 0 0) [].

Definition goto (pc : MainPc) (k : Conn) : Conn :=
  mkConn pc (c2t k) (t2c k) (connID k) (dialed k) (bytesIn k) (bytesOut k)
         (wg k) (done k) (log k).
Definition record (e : Event) (k : Conn) : Conn :=
  mkConn (main k) (c2t k) (t2c k) (connID k) (dialed k) (bytesIn k) (bytesOut k)
         (wg k) (done k) (log k ++ [e]).
Definition set_connID (n : Z) (k : Conn) : Conn :=
  mkConn (main k) (c2t k) (t2c k) n (dialed k) (bytesIn k) (bytesOut k)
         (wg k) (done k) (log k).
Definition set_dialed (ok : bool) (k : Conn) : Conn :=
  mkConn (main k) (c2t k) (t2c k) (connID k) (Some ok) (bytesIn k) (bytesOut k)
         (wg k) (done k) (log k).
Definition set_wg (n : Z) (k : Conn) : Conn :=
  mkConn (main k) (c2t k) (t2c k) (connID k) (dialed k) (bytesIn k) (bytesOut k)
         n (done k) (log k).
Definition set_done (b : bool) (k : Conn) : Conn :=
  mkConn (main k) (c2t k) (t2c k) (connID k) (dialed k) (bytesIn k) (bytesOut k)
         (wg k) b (log k).

Definition dir_pc (d : Dir) (k : Conn) : option CopyPc :=
  match d with
  | ClientToTarget => c2t k
  | TargetToClient => t2c k
  end.

Definition set_dir (d : Dir) (pc : CopyPc) (k : Conn) : Conn :=
  match d with
  | ClientToTarget =>
      mkConn (main k) (Some pc) (t2c k) (connID k) (dialed k) (bytesIn k)
             (bytesOut k) (wg k) (done k) (log k)
  | TargetToClient =>
      mkConn (main k) (c2t k) (Some pc) (connID k) (dialed k) (bytesIn k)
             (bytesOut k) (wg k) (done k) (log k)
  end.

(** [bytesIn = n] in client->target, [bytesOut = n] in target->client. *)
Definition store_bytes (d : Dir) (n : Z) (k : Conn) : Conn :=
  match d with
  | ClientToTarget =>
      mkConn (main k) (c2t k) (t2c k) (connID k) (dialed k) n (bytesOut k)
             (wg k) (done k) (log k)
  | TargetToClient =>
      mkConn (main k) (c2t k) (t2c k) (connID k) (dialed k) (bytesIn k) n
             (wg k) (done k) (log k)
  end.

(** The statement after a successful dial. *)
Definition after_dial (v : Version) : MainPc :=
  match v with
  | WaitGroup => AtPrepare
  | DoneChannel => AtOption ClientConn NoDelay
  end.

(** The six option calls of the [DoneChannel] version, in source order. *)
Definition option_event (s : Side) (o : SockOpt) : Event :=
  match o with
  | NoDelay => SetNoDelay s true
  | KeepAlive => SetKeepAlive s true
  | KeepAlivePeriod => SetKeepAlivePeriod s 30
  end.

Definition after_option (s : Side) (o : SockOpt) : MainPc :=
  match o, s with
  | NoDelay, _ => AtOption s KeepAlive
  | KeepAlive, _ => AtOption s KeepAlivePeriod
  | KeepAlivePeriod, ClientConn => AtOption TargetConn NoDelay
  | KeepAlivePeriod, TargetConn => AtPrepare
  end.

(** [wg.Add(2)], or [done := make(chan struct{})]. *)
Definition prepare (v : Version) (k : Conn) : Conn :=
  match v with
  | WaitGroup => set_wg (wg k + 2) k
  | DoneChannel => set_done false k
  end.

(** How a direction signals that it is over: the deferred [wg.Done()];
    [close(done)] in the goroutine of the [DoneChannel] version; nothing in
    its inline direction, whose end is the handler reaching [<-done]. *)
Definition signal (v : Version) (d : Dir) (k : Conn) : Conn :=
  match v, d with
  | WaitGroup, _ => set_wg (wg k - 1) k
  | DoneChannel, ClientToTarget => set_done true k
  | DoneChannel, TargetToClient => k
  end.

Definition is_finished (pc : option CopyPc) : bool :=
  match pc with
  | Some Finished => true
  | _ => false
  end.

(** Whether the handler gets past [wg.Wait()], or past its inline copy
    and [<-done]. *)
Definition may_pass (v : Version) (k : Conn) : bool :=
  match v with
  | WaitGroup => Z.eqb (wg k) 0
  | DoneChannel => is_finished (t2c k) && done k
  end.

Definition set_totalConns (n : Z) (g : Counters) : Counters :=
  mkCounters (activeConns g) n (totalBytes g).
Definition set_activeConns (n : Z) (g : Counters) : Counters :=
  mkCounters n (totalConns g) (totalBytes g).
Definition set_totalBytes (n : Z) (g : Counters) : Counters :=
  mkCounters (activeConns g) (totalConns g) n.

(** The next statement of the handler's goroutine on connection [k], with
    the counters at [g].  [None]: it is blocked (in the dial, or waiting
    for the directions) or has returned. *)
Definition main_step (v : Version) (k : Conn) (g : Counters) : option (Conn * Counters) :=
  match main k with
  | AtAddTotal =>
      let n := wrap64 (totalConns g + 1) in
      Some (record AddTotalConns (goto AtAddActive (set_connID n k)),
            set_totalConns n g)
  | AtAddActive =>
      Some (record (AddActiveConns 1) (goto AtDial k),
            set_activeConns (wrap64 (activeConns g + 1)) g)
  | AtDial => None
  | AtFailClose =>
      Some (record (Close ClientConn) (goto AtDeferred k), g)
  | AtOption s o =>
      Some (record (option_event s o) (goto (after_option s o) k), g)
  | AtPrepare =>
      Some (goto AtGoC2T (prepare v k), g)
  | AtGoC2T =>
      Some (record (CopyStarted ClientToTarget)
              (goto AtStartT2C (set_dir ClientToTarget (Copying 0) k)), g)
  | AtStartT2C =>
      Some (record (CopyStarted TargetToClient)
              (goto AtWait (set_dir TargetToClient (Copying 0) k)), g)
  | AtWait =>
      if may_pass v k then Some (goto AtCloseClient k, g) else None
  | AtCloseClient =>
      Some (record (Close ClientConn) (goto AtCloseTarget k), g)
  | AtCloseTarget =>
      Some (record (Close TargetConn) (goto AtAddBytes k), g)
  | AtAddBytes =>
      let totalBytesTransferred := wrap64 (bytesIn k + bytesOut k) in
      Some (record (AddTotalBytes totalBytesTransferred) (goto AtDeferred k),
            set_totalBytes (wrap64 (totalBytes g + totalBytesTransferred)) g)
  | AtDeferred =>
      Some (record (AddActiveConns (-1)) (goto Returned k),
            set_activeConns (wrap64 (activeConns g + -1)) g)
  | Returned => None
  end.

(** [net.DialTimeout] returns. *)
Definition dial_returns (v : Version) (ok : bool) (k : Conn) : option Conn :=
  match main k with
  | AtDial =>
      Some (record (Dialed ok)
              (goto (if ok then after_dial v else AtFailClose) (set_dialed ok k)))
  | _ => None
  end.

(** [io.CopyBuffer] moves [n] more bytes in direction [d]. *)
Definition copies (d : Dir) (n : Z) (k : Conn) : option Conn :=
  match dir_pc d k with
  | Some (Copying written) =>
      if (0 <? n)%Z
      then Some (record (Copied d n) (set_dir d (Copying (wrap64 (written + n))) k))
      else None
  | _ => None
  end.

(** [io.CopyBuffer] returns: its source is at end of stream, or a read or
    write failed. *)
Definition copy_returns (d : Dir) (err : bool) (k : Conn) : option Conn :=
  match dir_pc d k with
  | Some (Copying written) =>
      Some (record (CopyReturned d written err) (set_dir d (AtStore written) k))
  | _ => None
  end.

(** The next statement of direction [d] after its copy has returned. *)
Definition dir_step (v : Version) (d : Dir) (k : Conn) : option Conn :=
  match dir_pc d k with
  | Some (AtStore n) => Some (set_dir d AtCloseWrite (store_bytes d n k))
  | Some AtCloseWrite => Some (record (CloseWrite (dst d)) (set_dir d AtSignal k))
  | Some AtSignal => Some (record (Completed d) (set_dir d Finished (signal v d k)))
  | _ => None
  end.

(** What the scheduler and the network can make happen next on one
    connection: the next statement of the handler or of a direction, the
    dial returning, a copy moving bytes or returning. *)
Inductive ConnAction : Type :=
| RunMain
| RunDir (d : Dir)
| DialReturns (ok : bool)
| Copies (d : Dir) (n : Z)
| CopyReturns (d : Dir) (err : bool).

(** ... and in the process: the accept loop starting a handler, or one of
    the above on connection [c]. *)
Inductive Action : Type :=
| Accept
| On (c : nat) (a : ConnAction).

Definition keeping (g : Counters) (r : option Conn) : option (Conn * Counters) :=
  match r with
  | Some k => Some (k, g)
  | None => None
  end.

Definition conn_step (v : Version) (a : ConnAction) (k : Conn) (g : Counters)
  : option (Conn * Counters) :=
  match a with
  | RunMain => main_step v k g
  | RunDir d => keeping g (dir_step v d k)
  | DialReturns ok => keeping g (dial_returns v ok k)
  | Copies d n => keeping g (copies d n k)
  | CopyReturns d err => keeping g (copy_returns d err k)
  end.

(** One atomic step of the process; [None] when the action is not enabled. *)
Definition step (v : Version) (a : Action) (p : Proxy) : option Proxy :=
  match a with
  | Accept => Some (mkProxy (counters p) (conns p ++ [accepted]))
  | On c a =>
      match conns p !! c with
      | Some k =>
          match conn_step v a k (counters p) with
          | Some (k', g') => Some (mkProxy g' (<[c := k']> (conns p)))
          | None => None
          end
      | None => None
      end
  end.

Fixpoint run (v : Version) (schedule : list Action) (p : Proxy) : option Proxy :=
  match schedule with
  | [] => Some p
  | a :: rest =>
      match step v a p with
      | Some p' => run v rest p'
      | None => None
      end
  end.

(** *** Reading a log *)

Definition Dir_eqb (a b : Dir) : bool :=
  match a, b with
  | ClientToTarget, ClientToTarget | TargetToClient, TargetToClient => true
  | _, _ => false
  end.

Definition Side_eqb (a b : Side) : bool :=
  match a, b with
  | ClientConn, ClientConn | TargetConn, TargetConn => true
  | _, _ => false
  end.

(** The events of direction [d]: its copy, and the half-close and the
    signal that follow it. *)
Definition of_dir (d : Dir) (e : Event) : bool :=
  match e with
  | Copied d' _ | CopyReturned d' _ _ | Completed d' => Dir_eqb d d'
  | CloseWrite s => Side_eqb s (dst d)
  | _ => false
  end.

(** The events of the handler's own goroutine. *)
Definition of_main (e : Event) : bool :=
  match e with
  | Copied _ _ | CopyReturned _ _ _ | Completed _ | CloseWrite _ => false
  | _ => true
  end.

Definition dir_events (d : Dir) (l : list Event) : list Event := List.filter (of_dir d) l.
Definition main_events (l : list Event) : list Event := List.filter of_main l.

(** What a direction does once its copy is over, without the byte
    counts: the copy returned, the destination was half-closed, completion
    was signalled. *)
Inductive Mark : Type := Ret | Half | Sig.

Definition mark (d : Dir) (e : Event) : list Mark :=
  match e with
  | CopyReturned d' _ _ => if Dir_eqb d d' then [Ret] else []
  | CloseWrite s => if Side_eqb s (dst d) then [Half] else []
  | Completed d' => if Dir_eqb d d' then [Sig] else []
  | _ => []
  end.

Definition dir_marks (d : Dir) (l : list Event) : list Mark := flat_map (mark d) l.

Definition sumZ (l : list Z) : Z := foldr Z.add 0%Z l.

(** The sum of a weight over the events of a log. *)
Definition tally (w : Event -> Z) (l : list Event) : Z := sumZ (map w l).

Definition w_total (e : Event) : Z :=
  match e with AddTotalConns => 1 | _ => 0 end.
Definition w_active (e : Event) : Z :=
  match e with AddActiveConns delta => delta | _ => 0 end.
Definition w_bytes (e : Event) : Z :=
  match e with AddTotalBytes n => n | _ => 0 end.
Definition w_copied (d : Dir) (e : Event) : Z :=
  match e with Copied d' n => if Dir_eqb d d' then n else 0 | _ => 0 end.

(** The bytes [io.CopyBuffer] moved in direction [d] according to the log. *)
Definition copied (d : Dir) (l : list Event) : Z := tally (w_copied d) l.

(** The amounts added to [totalBytes] according to the log. *)
Definition byte_additions (l : list Event) : list Z :=
  flat_map (fun e => match e with AddTotalBytes n => [n] | _ => [] end) l.

Definition is_close (e : Event) : bool :=
  match e with Close _ => true | _ => false end.

Definition is_copy (e : Event) : bool :=
  match e with CopyStarted _ | Copied _ _ => true | _ => false end.


(** Every event of the log that satisfies [B] comes at a point where the
    events before it satisfy [G]. *)
Definition guarded (G : list Event -> Prop) (B : Event -> bool) (l : list Event) : Prop :=
  forall l1 e l2, l = l1 ++ e :: l2 -> B e = true -> G l1.

(** The handler has run to the end of [handleConnection] but for the
    deferred decrement, or has returned. *)
Definition settled (k : Conn) : bool :=
  match main k with
  | AtDeferred | Returned => true
  | _ => false
  end.

Definition bytes_of (d : Dir) (k : Conn) : Z :=
  match d with
  | ClientToTarget => bytesIn k
  | TargetToClient => bytesOut k
  end.

(** *** Expected histories *)

Definition handshake : list Event := [AddTotalConns; AddActiveConns 1].

Definition sockopts : list Event :=
  [SetNoDelay ClientConn true; SetKeepAlive ClientConn true;
   SetKeepAlivePeriod ClientConn 30;
   SetNoDelay TargetConn true; SetKeepAlive TargetConn true;
   SetKeepAlivePeriod TargetConn 30].

(** The handler's events up to the first [go] statement. *)
Definition prelude (v : Version) : list Event :=
  handshake ++ [Dialed true]
    ++ match v with WaitGroup => [] | DoneChannel => sockopts end.

Definition spawned : list Event :=
  [CopyStarted ClientToTarget; CopyStarted TargetToClient].

Definition option_index (s : Side) (o : SockOpt) : nat :=
  match s, o with
  | ClientConn, NoDelay => 0
  | ClientConn, KeepAlive => 1
  | ClientConn, KeepAlivePeriod => 2
  | TargetConn, NoDelay => 3
  | TargetConn, KeepAlive => 4
  | TargetConn, KeepAlivePeriod => 5
  end.

Definition failed_history : list Event :=
  handshake ++ [Dialed false; Close ClientConn; AddActiveConns (-1)].

(** The events of the handler's own goroutine, as its program point and
    variables determine them. *)
Definition main_history (v : Version) (k : Conn) : list Event :=
  let paired := prelude v ++ spawned ++ [Close ClientConn; Close TargetConn]
                  ++ [AddTotalBytes (wrap64 (bytesIn k + bytesOut k))] in
  match main k with
  | AtAddTotal => []
  | AtAddActive => [AddTotalConns]
  | AtDial => handshake
  | AtFailClose => handshake ++ [Dialed false]
  | AtOption s o => handshake ++ [Dialed true] ++ take (option_index s o) sockopts
  | AtPrepare | AtGoC2T => prelude v
  | AtStartT2C => prelude v ++ [CopyStarted ClientToTarget]
  | AtWait | AtCloseClient => prelude v ++ spawned
  | AtCloseTarget => prelude v ++ spawned ++ [Close ClientConn]
  | AtAddBytes => prelude v ++ spawned ++ [Close ClientConn; Close TargetConn]
  | AtDeferred =>
      match dialed k with
      | Some true => paired
      | _ => handshake ++ [Dialed false; Close ClientConn]
      end
  | Returned =>
      match dialed k with
      | Some true => paired ++ [AddActiveConns (-1)]
      | _ => failed_history
      end
  end.

(** *** Invariants of a connection *)

Definition idle (k : Conn) : Prop :=
  c2t k = None /\ t2c k = None /\ wg k = 0%Z /\ done k = false.

Definition unfinished (pc : option CopyPc) : Z :=
  if is_finished pc then 0%Z else 1%Z.

(** The [WaitGroup] counter is the number of directions still to finish;
    [done] is closed exactly when client->target has finished. *)
Definition in_sync (v : Version) (k : Conn) : Prop :=
  match v with
  | WaitGroup => wg k = (unfinished (c2t k) + unfinished (t2c k))%Z
  | DoneChannel => done k = is_finished (c2t k)
  end.

Definition both_finished (k : Conn) : Prop :=
  c2t k = Some Finished /\ t2c k = Some Finished.

(** How the program point of the handler constrains everything else. *)
Definition control (v : Version) (k : Conn) : Prop :=
  match main k with
  | AtAddTotal | AtAddActive | AtDial => dialed k = None /\ idle k
  | AtFailClose => dialed k = Some false /\ idle k
  | AtOption _ _ => v = DoneChannel /\ dialed k = Some true /\ idle k
  | AtPrepare => dialed k = Some true /\ idle k
  | AtGoC2T =>
      dialed k = Some true /\ c2t k = None /\ t2c k = None /\ in_sync v k
  | AtStartT2C =>
      dialed k = Some true /\ c2t k <> None /\ t2c k = None /\ in_sync v k
  | AtWait =>
      dialed k = Some true /\ c2t k <> None /\ t2c k <> None /\ in_sync v k
  | AtCloseClient | AtCloseTarget | AtAddBytes =>
      dialed k = Some true /\ both_finished k
  | AtDeferred | Returned =>
      (dialed k = Some false /\ idle k) \/ (dialed k = Some true /\ both_finished k)
  end.

(** How the program point of a direction constrains its part of the log
    and the byte count it has stored. *)
Definition dir_inv (d : Dir) (k : Conn) : Prop :=
  match dir_pc d k with
  | None => dir_events d (log k) = [] /\ bytes_of d k = 0%Z
  | Some (Copying written) =>
      dir_marks d (log k) = [] /\ written = wrap64 (copied d (log k))
  | Some (AtStore n) =>
      dir_marks d (log k) = [Ret] /\ n = wrap64 (copied d (log k))
  | Some AtCloseWrite =>
      dir_marks d (log k) = [Ret] /\ bytes_of d k = wrap64 (copied d (log k))
  | Some AtSignal =>
      dir_marks d (log k) = [Ret; Half] /\ bytes_of d k = wrap64 (copied d (log k))
  | Some Finished =>
      dir_marks d (log k) = [Ret; Half; Sig] /\ bytes_of d k = wrap64 (copied d (log k))
  end.

(** A full close of a paired connection comes after both directions have
    signalled completion. *)
Definition close_after_both (l : list Event) : Prop :=
  guarded (fun before =>
             In (Dialed true) before ->
             In (Completed ClientToTarget) before /\ In (Completed TargetToClient) before)
          is_close l.

(** In the [DoneChannel] version no copy starts before the six socket
    options are set. *)
Definition options_first (v : Version) (l : list Event) : Prop :=
  guarded (fun before => v = DoneChannel -> incl sockopts before) is_copy l.

Record Inv (v : Version) (k : Conn) : Prop := mkInv {
  inv_main : main_events (log k) = main_history v k;
  inv_control : control v k;
  inv_c2t : dir_inv ClientToTarget k;
  inv_t2c : dir_inv TargetToClient k;
  inv_positive : Forall (fun e => (0 <= w_copied ClientToTarget e
                                   /\ 0 <= w_copied TargetToClient e)%Z) (log k);
  inv_close : close_after_both (log k);
  inv_options : options_first v (log k)
}.

(** *** Accounting *)

(** The bytes the two copies of a connection moved, and the bytes the
    handler recorded for it. *)
Definition transferred (k : Conn) : Z :=
  (copied ClientToTarget (log k) + copied TargetToClient (log k))%Z.

Definition recorded (k : Conn) : Z := (bytesIn k + bytesOut k)%Z.

(** The sum of a weight over the logs of all connections. *)
Definition ledger (w : Event -> Z) (p : Proxy) : Z :=
  sumZ (map (fun k => tally w (log k)) (conns p)).

(** What a connection has added to each counter, by its program point. *)
Definition total_share (k : Conn) : Z :=
  match main k with
  | AtAddTotal => 0
  | _ => 1
  end.

Definition active_share (k : Conn) : Z :=
  match main k with
  | AtAddTotal | AtAddActive | Returned => 0
  | _ => 1
  end.

Definition bytes_share (k : Conn) : Z :=
  if settled k then wrap64 (recorded k) else 0%Z.

(** Every counter is the [int64] sum of what the logs say was added. *)
Definition balanced (p : Proxy) : Prop :=
  totalConns (counters p) = wrap64 (ledger w_total p)
  /\ activeConns (counters p) = wrap64 (ledger w_active p)
  /\ totalBytes (counters p) = wrap64 (ledger w_bytes p).

Definition other (d : Dir) : Dir :=
  match d with
  | ClientToTarget => TargetToClient
  | TargetToClient => ClientToTarget
  end.

(** The actions that belong to direction [d]. *)
Definition acts_for (d : Dir) (a : ConnAction) : bool :=
  match a with
  | RunDir d' | Copies d' _ | CopyReturns d' _ => Dir_eqb d d'
  | _ => false
  end.

(** The marks a direction has left when it stands at [pc]. *)
Definition marks_at (pc : option CopyPc) : list Mark :=
  match pc with
  | None | Some (Copying _) => []
  | Some (AtStore _) | Some AtCloseWrite => [Ret]
  | Some AtSignal => [Ret; Half]
  | Some Finished => [Ret; Half; Sig]
  end.

(** *** Scenarios *)

(** A handler from accept to the return of its dial. *)
Definition dial (c : nat) (ok : bool) : list Action :=
  [Accept; On c RunMain; On c RunMain; On c (DialReturns ok)].

(** A handler whose dial failed, run to its end. *)
Definition refused (c : nat) : list Action :=
  dial c false ++ [On c RunMain; On c RunMain].

(** The statements of the handler between a successful dial and the
    point where it waits for the directions. *)
Definition pair_up (v : Version) (c : nat) : list Action :=
  repeat (On c RunMain)
         (match v with WaitGroup => 3 | DoneChannel => 9 end).

(** A direction from the return of its copy to its completion signal. *)
Definition wind_down (c : nat) (d : Dir) : list Action :=
  [On c (CopyReturns d false); On c (RunDir d); On c (RunDir d); On c (RunDir d)].

(** The handler from the end of its wait to its return. *)
Definition tear_down (c : nat) : list Action := repeat (On c RunMain) 5.

(** One connection: the client sends 5 bytes and closes its side; the
    target then still answers 7 and 4 bytes before it closes. *)
Definition request_reply (v : Version) : list Action :=
  dial 0 true ++ pair_up v 0
    ++ [On 0 (Copies ClientToTarget 5)] ++ wind_down 0 ClientToTarget
    ++ [On 0 (Copies TargetToClient 7); On 0 (Copies TargetToClient 4)]
    ++ wind_down 0 TargetToClient
    ++ tear_down 0.

(** Two connections interleaved, and a third whose dial fails. *)
Definition three_clients (v : Version) : list Action :=
  dial 0 true ++ dial 1 true ++ pair_up v 1 ++ pair_up v 0
    ++ [On 1 (Copies ClientToTarget 100); On 0 (Copies TargetToClient 20)]
    ++ refused 2
    ++ [On 0 (Copies ClientToTarget 3)]
    ++ wind_down 1 ClientToTarget ++ wind_down 0 TargetToClient
    ++ [On 1 (Copies TargetToClient 64)]
    ++ wind_down 0 ClientToTarget ++ wind_down 1 TargetToClient
    ++ tear_down 1 ++ tear_down 0.

(** The state a schedule leads to from a fresh process ([boot] again if
    the schedule asks for a step that is not enabled). *)
Definition state_after (v : Version) (schedule : list Action) : Proxy :=
  match run v schedule boot with
  | Some p => p
  | None => boot
  end.

(** *** Readings of a handler *)

(** The handler has taken its number ([totalConns] + 1). *)
Definition started (k : Conn) : bool :=
  match main k with
  | AtAddTotal => false
  | _ => true
  end.

(** The handler is between its increment of [activeConns] and the
    deferred decrement. *)
Definition running (k : Conn) : bool :=
  match main k with
  | AtAddTotal | AtAddActive | Returned => false
  | _ => true
  end.

Definition count (f : Conn -> bool) (l : list Conn) : Z :=
  Z.of_nat (length (List.filter f l)).




Definition times (B : Event -> bool) (l : list Event) : nat :=
  length (List.filter B l).

(** The handler or one of its directions waits for the network: for the
    dial to return, or for a copy to move bytes or return. *)
Definition awaits_network (k : Conn) : bool :=
  match main k with
  | AtDial => true
  | _ =>
      match c2t k, t2c k with
      | Some (Copying _), _ | _, Some (Copying _) => true
      | _, _ => false
      end
  end.

(** The actions that are statements of the program, not of the network. *)
Definition own_statement (a : ConnAction) : bool :=
  match a with
  | RunMain | RunDir _ => true
  | _ => false
  end.



(** The connection numbers of the handlers that have taken one are the
    numbers from 1 to their count, each held by one handler. *)
Definition numbered (l : list Conn) : Prop :=
  (forall c k, l !! c = Some k -> started k = true ->
     (1 <= connID k <= count started l)%Z)
  /\ (forall c1 c2 k1 k2, l !! c1 = Some k1 -> l !! c2 = Some k2 ->
        started k1 = true -> started k2 = true -> connID k1 = connID k2 -> c1 = c2)
  /\ (forall n, (1 <= n <= count started l)%Z ->
        exists c k, l !! c = Some k /\ started k = true /\ connID k = n).

(** Three connections are accepted; the third handler is the first to
    take its number, then the first; the second has not run yet. *)
Definition late_number : list Action :=
  [Accept; Accept; Accept; On 2 RunMain; On 0 RunMain; On 2 RunMain].

(** *** Socket options *)







(** *** A direction after its copy *)

(** The statements a direction still has to run once its copy has
    returned (store the count, half-close, signal), and what they add to
    the log. *)
Definition steps_left (pc : option CopyPc) : nat :=
  match pc with
  | Some (AtStore _) => 3
  | Some AtCloseWrite => 2
  | Some AtSignal => 1
  | _ => 0
  end.

Definition still_to_come (d : Dir) (pc : option CopyPc) : list Event :=
  match pc with
  | Some (AtStore _) | Some AtCloseWrite => [CloseWrite (dst d); Completed d]
  | Some AtSignal => [Completed d]
  | _ => []
  end.

(** The next [n] statements of direction [d]. *)
Fixpoint run_dir (v : Version) (d : Dir) (n : nat) (k : Conn) : option Conn :=
  match n with
  | O => Some k
  | S n' =>
      match dir_step v d k with
      | Some k' => run_dir v d n' k'
      | None => None
      end
  end.

(** What the completion signal of direction [d] has done when it has
    been given: one [wg.Done()], or [done] closed; the inline direction
    of the [DoneChannel] version has nothing to signal with. *)
Definition signalled (v : Version) (d : Dir) (k k' : Conn) : Prop :=
  match v, d with
  | WaitGroup, _ => wg k' = (wg k - 1)%Z
  | DoneChannel, ClientToTarget => done k' = true
  | DoneChannel, TargetToClient => True
  end.

(** *** How much a handler has left to do *)

(** An upper bound on the statements the handler's own goroutine still
    has to run, and on those of a direction. *)
Definition main_rank (pc : MainPc) : nat :=
  match pc with
  | AtAddTotal => 17
  | AtAddActive => 16
  | AtDial => 15
  | AtOption s o => 14 - option_index s o
  | AtPrepare => 8
  | AtGoC2T => 7
  | AtStartT2C => 6
  | AtWait => 5
  | AtCloseClient => 4
  | AtCloseTarget => 3
  | AtAddBytes => 2
  | AtFailClose => 2
  | AtDeferred => 1
  | Returned => 0
  end.

Definition dir_rank (pc : option CopyPc) : nat :=
  match pc with
  | None | Some (Copying _) | Some (AtStore _) => 3
  | Some AtCloseWrite => 2
  | Some AtSignal => 1
  | Some Finished => 0
  end.

Definition rank (k : Conn) : nat :=
  main_rank (main k) + dir_rank (c2t k) + dir_rank (t2c k).

(** The statements of the program that a schedule runs on connection
    [c]. *)
Fixpoint own_steps (c : nat) (schedule : list Action) : nat :=
  match schedule with
  | [] => 0
  | On c' a :: rest =>
      (if Nat.eqb c c' && own_statement a then 1 else 0) + own_steps c rest
  | Accept :: rest => own_steps c rest
  end.

(** The network has nothing more to deliver to the handler: its dial
    has failed, or both its copies have returned. *)
Definition network_done (k : Conn) : bool :=
  match main k with
  | AtFailClose | AtWait | AtCloseClient | AtCloseTarget | AtAddBytes | AtDeferred
  | Returned => negb (awaits_network k)
  | _ => false
  end.

(** *** More scenarios *)

(** One connection, paired; the client has sent 5 bytes, and neither
    copy has returned. *)
Definition half_way (v : Version) : list Action :=
  dial 0 true ++ pair_up v 0 ++ [On 0 (Copies ClientToTarget 5)].

(** One connection, paired; both copies have returned, one of them with
    an error, and neither direction has run since. *)
Definition copies_returned (v : Version) : list Action :=
  dial 0 true ++ pair_up v 0
    ++ [On 0 (CopyReturns ClientToTarget false); On 0 (CopyReturns TargetToClient true)].

(** What connection [c] has left to do in the process [p]; a connection
    not accepted yet has everything before it. *)
Definition rank_at (c : nat) (p : Proxy) : nat :=
  match conns p !! c with
  | Some k => rank k
  | None => rank accepted
  end.

End Proxy.

(** ** Base64 in the browser ([btoa], [atob]) *)

Module Base64.

(** A binary string: every character is one byte, as in [String]. *)
Definition code (c : ascii) : N := N_of_ascii c.
Definition char (n : N) : ascii := ascii_of_N n.

Definition alphabet : list ascii :=
  String.list_ascii_of_string "ABCDEFGHIJKLMNOPQRSTUVWXYZabcdefghijklmnopqrstuvwxyz0123456789+/".

Definition digit (n : N) : ascii := nth (N.to_nat n) alphabet "A"%char.

Definition pad : ascii := "="%char.

(** The 24 bits of three bytes as four digits; one byte gives two digits
    and two bytes three, padded to four characters. *)
Fixpoint encode (bytes : list ascii) : list ascii :=
  match bytes with
  | [] => []
  | [a] =>
      [digit (code a / 4); digit (code a mod 4 * 16); pad; pad]
  | [a; b] =>
      [digit (code a / 4); digit (code a mod 4 * 16 + code b / 16);
       digit (code b mod 16 * 4); pad]
  | a :: b :: c :: rest =>
      digit (code a / 4) :: digit (code a mod 4 * 16 + code b / 16)
        :: digit (code b mod 16 * 4 + code c / 64) :: digit (code c mod 64)
        :: encode rest
  end%N.

(** [btoa(binary)] for a binary string. *)
Definition btoa (binary : string) : string :=
  String.string_of_list_ascii (encode (String.list_ascii_of_string binary)).

(** ASCII whitespace: TAB, LF, FF, CR, SPACE. *)
Definition is_whitespace (c : ascii) : bool :=
  existsb (N.eqb (code c)) [9; 10; 12; 13; 32]%N.

Definition is_pad (c : ascii) : bool := N.eqb (code c) 61%N.

Definition value (c : ascii) : option N :=
  let n := code c in
  (if (65 <=? n) && (n <=? 90) then Some (n - 65)
   else if (97 <=? n) && (n <=? 122) then Some (n - 71)
   else if (48 <=? n) && (n <=? 57) then Some (n + 4)
   else if n =? 43 then Some 62
   else if n =? 47 then Some 63
   else None)%N.

(** "If data ends with one or two U+003D (=) code points, remove them." *)
Definition strip_padding (data : list ascii) : list ascii :=
  match rev data with
  | c1 :: c2 :: before =>
      if is_pad c1 then if is_pad c2 then rev before else rev (c2 :: before)
      else data
  | [c1] => if is_pad c1 then [] else data
  | [] => data
  end.

Fixpoint values (data : list ascii) : option (list N) :=
  match data with
  | [] => Some []
  | c :: rest =>
      match value c, values rest with
      | Some n, Some ns => Some (n :: ns)
      | _, _ => None
      end
  end.

(** Four digits give three bytes; two digits left over give one byte
    (their last four bits are dropped), three give two (last two bits
    dropped). *)
Fixpoint decode (digits : list N) : list ascii :=
  match digits with
  | a :: b :: c :: d :: rest =>
      char (a * 4 + b / 16) :: char (b mod 16 * 16 + c / 4) :: char (c mod 4 * 64 + d)
        :: decode rest
  | [a; b; c] => [char (a * 4 + b / 16); char (b mod 16 * 16 + c / 4)]
  | [a; b] => [char (a * 4 + b / 16)]
  | _ => []
  end%N.

(** [atob(data)], the forgiving-base64 decode: [None] when it throws
    [InvalidCharacterError]. *)
Definition atob (data : string) : option string :=
  let d := List.filter (fun c => negb (is_whitespace c)) (String.list_ascii_of_string data) in
  let d := if (length d mod 4 =? 0)%nat then strip_padding d else d in
  if (length d mod 4 =? 1)%nat then None
  else
    match values d with
    | Some digits => Some (String.string_of_list_ascii (decode digits))
    | None => None
    end.

(** What [encode] produces, apart from the padding. *)
Fixpoint sextets (bytes : list ascii) : list N :=
  match bytes with
  | [] => []
  | [a] => [code a / 4; code a mod 4 * 16]
  | [a; b] => [code a / 4; code a mod 4 * 16 + code b / 16; code b mod 16 * 4]
  | a :: b :: c :: rest =>
      code a / 4 :: code a mod 4 * 16 + code b / 16
        :: code b mod 16 * 4 + code c / 64 :: code c mod 64 :: sextets rest
  end%N.

Definition padding (bytes : list ascii) : list ascii :=
  match (length bytes mod 3)%nat with
  | 1%nat => [pad; pad]
  | 2%nat => [pad]
  | _ => []
  end.

End Base64.

(** ** Audio ([audio.js]) *)

Module Audio.
Import Base64.

(** An element of a [Float32Array].  A finite float32 is a dyadic
    rational with a 24-bit significand; its products with 0x8000 and
    0x7FFF are exact in binary64, so the arithmetic below is the
    arithmetic of the program.  (-0 behaves as 0 throughout.) *)
Inductive float : Type :=
| NaN
| NegInf
| Fin (q : Q)
| PosInf.

(** [Math.min(1, x)] and [Math.max(-1, x)]. *)
Definition Math_min_1 (x : float) : float :=
  match x with
  | NaN => NaN
  | NegInf => NegInf
  | Fin q => Fin (Qmin 1 q)
  | PosInf => Fin 1
  end.

Definition Math_max_neg1 (x : float) : float :=
  match x with
  | NaN => NaN
  | NegInf => Fin (-1)
  | Fin q => Fin (Qmax (-1) q)
  | PosInf => PosInf
  end.

(** [s < 0]. *)
Definition negative (s : float) : bool :=
  match s with
  | NegInf => true
  | Fin q => match Qcompare q 0 with Lt => true | _ => false end
  | _ => false
  end.

(** [s * c] for a positive constant. *)
Definition times (s : float) (c : Q) : float :=
  match s with
  | Fin q => Fin (q * c)
  | _ => s
  end.

(** Storing a number in an [Int16Array]: NaN and the infinities become
    0, anything else is truncated toward zero and taken modulo 2^16 into
    the signed range. *)
Definition truncate (q : Q) : Z := Z.quot (Qnum q) (Z.pos (Qden q)).

Definition wrap16 (z : Z) : Z := ((z + 2 ^ 15) mod 2 ^ 16 - 2 ^ 15)%Z.

Definition ToInt16 (x : float) : Z :=
  match x with
  | Fin q => wrap16 (truncate q)
  | _ => 0%Z
  end.

(** One turn of the loop of [float32ToBase64PCM]. *)
Definition pcm16 (x : float) : Z :=
  let s := Math_max_neg1 (Math_min_1 x) in
  ToInt16 (if negative s then times s 32768 else times s 32767).

(** The two bytes of an [Int16Array] element as a [Uint8Array] over the
    same buffer shows them (typed arrays have the byte order of the
    platform: little-endian on every platform browsers run on). *)
Definition le16 (v : Z) : list Z := [v mod 256; (v / 256) mod 256]%Z.

(** [String.fromCharCode(byte)] and [binary.charCodeAt(i)]. *)
Definition fromCharCode (byte : Z) : ascii := char (Z.to_N byte).
Definition charCodeAt (c : ascii) : Z := Z.of_N (code c).

(** [float32ToBase64PCM(float32Array)]. *)
Definition float32ToBase64PCM (float32Array : list float) : string :=
  let int16Array := map pcm16 float32Array in
  let bytes := flat_map le16 int16Array in
  let binary := String.string_of_list_ascii (map fromCharCode bytes) in
  btoa binary.

(** [AudioPlayer.base64ToArrayBuffer(base64)]: the bytes of the buffer,
    or [None] when [atob] throws. *)
Definition base64ToArrayBuffer (base64 : string) : option (list Z) :=
  match atob base64 with
  | Some binary => Some (map charCodeAt (String.list_ascii_of_string binary))
  | None => None
  end.

(** Reading a buffer as an [Int16Array] on the same platform. *)
Fixpoint as_int16 (bytes : list Z) : list Z :=
  match bytes with
  | lo :: hi :: rest => wrap16 (lo + 256 * hi) :: as_int16 rest
  | _ => []
  end.

(** The scaled sample before it is stored. *)
Definition scaled (q : Q) : Q :=
  let s := Qmax (-1) (Qmin 1 q) in
  match Qcompare s 0 with
  | Lt => s * 32768
  | _ => s * 32767
  end.

End Audio.

(** ** Statements of the other scripts *)

Module Script.

(** How a statement ends: normally with a value, or by an exception. *)
Inductive outcome (Ex A : Type) : Type :=
| Returns (a : A)
| Throws (e : Ex).
Arguments Returns {Ex A} a.
Arguments Throws {Ex A} e.

Section Statements.
Context {St Ev Ex : Type}.

(** A statement reads and writes the state, has effects outside it, and
    may throw; what it did before it threw stays done. *)
Definition M (A : Type) : Type := St -> outcome Ex A * St * list Ev.

Definition ret {A} (a : A) : M A := fun s => (Returns a, s, []).

Definition bind {A B} (m : M A) (k : A -> M B) : M B :=
  fun s =>
    match m s with
    | (Returns a, s1, t1) =>
        match k a s1 with
        | (r, s2, t2) => (r, s2, t1 ++ t2)
        end
    | (Throws e, s1, t1) => (Throws e, s1, t1)
    end.

Definition throw {A} (e : Ex) : M A := fun s => (Throws e, s, []).

Definition try_catch {A} (body : M A) (handler : Ex -> M A) : M A :=
  fun s =>
    match body s with
    | (Returns a, s1, t1) => (Returns a, s1, t1)
    | (Throws e, s1, t1) =>
        match handler e s1 with
        | (r, s2, t2) => (r, s2, t1 ++ t2)
        end
    end.

Definition get : M St := fun s => (Returns s, s, []).
Definition modify (f : St -> St) : M unit := fun s => (Returns tt, f s, []).
Definition tell (e : Ev) : M unit := fun s => (Returns tt, s, [e]).
Definition when (b : bool) (m : M unit) : M unit := if b then m else ret tt.

End Statements.

Declare Scope script_scope.
Delimit Scope script_scope with script.
Notation "x <- m ;; k" := (bind m (fun x => k))
  (at level 100, m at next level, right associativity) : script_scope.
Notation "m ;; k" := (bind m (fun _ => k))
  (at level 100, right associativity) : script_scope.

End Script.

(** ** Playback ([AudioPlayer]) *)

Module Player.
Import Script Audio.
Local Open Scope script_scope.

(** An [AudioBuffer], by identity. *)
Definition Buffer : Type := nat.

Inductive exn : Type :=
| TypeError
| InvalidCharacterError
| CallbackError.

(** A callback field: [None] is [null]; an assigned callback either
    returns or throws. *)
Definition callback : Type := option bool.

Record AudioPlayer : Type := mkPlayer {
  audioContext : option nat;
  playQueue : list Buffer;
  isPlaying : bool;
  onPlaybackStart : callback;
  onPlaybackEnd : callback
}.

(** The browser side: how many contexts were constructed, the sources
    that were started and have not ended yet (by their buffer), and the
    promises of [playAudio] that are still pending: calls of [resume()],
    with the argument [playAudio] waits to go on with, and calls of
    [decodeAudioData]. *)
Record World : Type := mkWorld {
  contexts : nat;
  sounding : list Buffer;
  resuming : list string;
  decoding : nat
}.

Record Stage : Type := mkStage {
  player : AudioPlayer;
  world : World
}.

Inductive Effect : Type :=
| ENewAudioContext (id : nat)
| EResume (id : nat)
| EDecodeAudioData (id : nat) (bytes : list Z)
| EStart (buffer : Buffer)
| EPlaybackStart
| EPlaybackEnd
| EClose (id : nat).

Definition St : Type := Stage.
Definition Stm (A : Type) : Type := @M Stage Effect exn A.

Definition set_audioContext (v : option nat) (p : AudioPlayer) : AudioPlayer :=
  mkPlayer v (playQueue p) (isPlaying p) (onPlaybackStart p) (onPlaybackEnd p).
Definition set_playQueue (v : list Buffer) (p : AudioPlayer) : AudioPlayer :=
  mkPlayer (audioContext p) v (isPlaying p) (onPlaybackStart p) (onPlaybackEnd p).
Definition set_isPlaying (v : bool) (p : AudioPlayer) : AudioPlayer :=
  mkPlayer (audioContext p) (playQueue p) v (onPlaybackStart p) (onPlaybackEnd p).

Definition update (f : AudioPlayer -> AudioPlayer) : Stm unit :=
  modify (fun s => mkStage (f (player s)) (world s)).
Definition update_world (f : World -> World) : Stm unit :=
  modify (fun s => mkStage (player s) (f (world s))).
Definition this : Stm AudioPlayer := s <- get ;; ret (player s).

(** [constructor()]. *)
Definition constructor : AudioPlayer :=
  {| audioContext := None;
     playQueue := [];
     isPlaying := false;
     onPlaybackStart := None;
     onPlaybackEnd := None |}.

(** Calling a callback field that was found assigned. *)
Definition invoke (e : Effect) (throws : bool) : Stm unit :=
  tell e ;; if throws then throw CallbackError else ret tt.

(** [init()]. *)
Definition init : Stm unit :=
  p <- this ;;
  match audioContext p with
  | Some _ => ret tt
  | None =>
      s <- get ;;
      let id := contexts (world s) in
      update_world (fun w => mkWorld (S id) (sounding w) (resuming w) (decoding w)) ;;
      tell (ENewAudioContext id) ;;
      update (set_audioContext (Some id))
  end.

(** [playNext()]. *)
Definition playNext : Stm unit :=
  p <- this ;;
  match playQueue p with
  | [] =>
      update (set_isPlaying false) ;;
      match onPlaybackEnd p with
      | Some throws => invoke EPlaybackEnd throws
      | None => ret tt
      end
  | buffer :: rest =>
      update (set_isPlaying true) ;;
      (match onPlaybackStart p with
       | Some throws => invoke EPlaybackStart throws
       | None => ret tt
       end) ;;
      update (set_playQueue rest) ;;
      match audioContext p with
      | None => throw TypeError
      | Some _ =>
          update_world (fun w => mkWorld (contexts w) (sounding w ++ [buffer])
                                         (resuming w) (decoding w)) ;;
          tell (EStart buffer)
      end
  end.

(** [playAudio] from the conversion of its argument to the call of
    [decodeAudioData], on which it waits. *)
Definition decode (base64Audio : string) : Stm unit :=
  match base64ToArrayBuffer base64Audio with
  | None => throw InvalidCharacterError
  | Some arrayBuffer =>
      p <- this ;;
      match audioContext p with
      | None => throw TypeError
      | Some id =>
          update_world (fun w => mkWorld (contexts w) (sounding w) (resuming w)
                                         (S (decoding w))) ;;
          tell (EDecodeAudioData id arrayBuffer)
      end
  end.

(** [playAudio(base64Audio)] up to its first [await]; [base64Audio] is
    the argument as the string [atob] makes of it, and [suspended] is
    what [this.audioContext.state === 'suspended'] evaluates to.  The
    constructor of the context is taken to succeed.  The [catch] only
    logs. *)
Definition playAudio (base64Audio : string) (suspended : bool) : Stm unit :=
  p <- this ;;
  (match audioContext p with
   | None => init
   | Some _ => ret tt
   end) ;;
  try_catch
    (p <- this ;;
     match audioContext p with
     | None => throw TypeError
     | Some id =>
         if suspended then
           update_world (fun w => mkWorld (contexts w) (sounding w)
                                          (resuming w ++ [base64Audio]) (decoding w)) ;;
           tell (EResume id)
         else decode base64Audio
     end)
    (fun error => ret tt).

(** [playAudio] after [resume()] has fulfilled. *)
Definition resumed (base64Audio : string) : Stm unit :=
  try_catch (decode base64Audio) (fun error => ret tt).

(** [playAudio] after [decodeAudioData] has fulfilled with [audioBuffer]. *)
Definition decoded (audioBuffer : Buffer) : Stm unit :=
  try_catch
    (update (fun p => set_playQueue (playQueue p ++ [audioBuffer]) p) ;;
     p <- this ;;
     if isPlaying p then ret tt else playNext)
    (fun error => ret tt).

(** [source.onended]. *)
Definition onended : Stm unit := playNext.

(** [stop()]. *)
Definition stop : Stm unit :=
  update (set_playQueue []) ;;
  update (set_isPlaying false).

(** [cleanup()].  The sources of the closed context stay in [sounding]
    until the browser reports their end, if it does. *)
Definition cleanup : Stm unit :=
  stop ;;
  p <- this ;;
  match audioContext p with
  | Some id =>
      tell (EClose id) ;;
      update (set_audioContext None)
  | None => ret tt
  end.

(** What can happen to a player: a call by the application, a promise of
    [playAudio] settling, or a source reaching its end. *)
Inductive Input : Type :=
| Init
| PlayAudio (base64Audio : string) (suspended : bool)
| Resumed (k : nat)
| ResumeRejected (k : nat)
| Decoded (audioBuffer : Buffer)
| DecodeRejected
| Ended (k : nat)
| Stop
| Cleanup.

Definition drop_resuming (k : nat) (s : Stage) : Stage :=
  mkStage (player s)
          (mkWorld (contexts (world s)) (sounding (world s))
                   (delete k (resuming (world s))) (decoding (world s))).

Definition drop_decoding (s : Stage) : Stage :=
  mkStage (player s)
          (mkWorld (contexts (world s)) (sounding (world s))
                   (resuming (world s)) (pred (decoding (world s)))).

Definition drop_sounding (k : nat) (s : Stage) : Stage :=
  mkStage (player s)
          (mkWorld (contexts (world s)) (delete k (sounding (world s)))
                   (resuming (world s)) (decoding (world s))).

(** One turn; [None] when the browser has no such promise or source. *)
Definition step (i : Input) (s : Stage) : option (outcome exn unit * Stage * list Effect) :=
  match i with
  | Init => Some (init s)
  | PlayAudio base64Audio suspended => Some (playAudio base64Audio suspended s)
  | Resumed k =>
      match resuming (world s) !! k with
      | Some base64Audio => Some (resumed base64Audio (drop_resuming k s))
      | None => None
      end
  | ResumeRejected k =>
      match resuming (world s) !! k with
      | Some _ => Some (Returns tt, drop_resuming k s, [])
      | None => None
      end
  | Decoded audioBuffer =>
      match decoding (world s) with
      | S _ => Some (decoded audioBuffer (drop_decoding s))
      | O => None
      end
  | DecodeRejected =>
      match decoding (world s) with
      | S _ => Some (Returns tt, drop_decoding s, [])
      | O => None
      end
  | Ended k =>
      match sounding (world s) !! k with
      | Some _ => Some (onended (drop_sounding k s))
      | None => None
      end
  | Stop => Some (stop s)
  | Cleanup => Some (cleanup s)
  end.

Fixpoint run (inputs : list Input) (s : Stage) : option (Stage * list Effect) :=
  match inputs with
  | [] => Some (s, [])
  | i :: rest =>
      match step i s with
      | Some (_, s1, t1) =>
          match run rest s1 with
          | Some (s2, t2) => Some (s2, t1 ++ t2)
          | None => None
          end
      | None => None
      end
  end.

(** A new player in a page that has no audio yet. *)
Definition fresh : Stage := mkStage constructor (mkWorld 0 [] [] 0).

(** The buffers started in a trace, and the buffers decoded in a run of
    inputs, in order. *)
Fixpoint started (t : list Effect) : list Buffer :=
  match t with
  | [] => []
  | EStart buffer :: rest => buffer :: started rest
  | _ :: rest => started rest
  end.

Fixpoint decoded_buffers (inputs : list Input) : list Buffer :=
  match inputs with
  | [] => []
  | Decoded audioBuffer :: rest => audioBuffer :: decoded_buffers rest
  | _ :: rest => decoded_buffers rest
  end.

(** The inputs that interrupt playback. *)
Definition interrupts (i : Input) : bool :=
  match i with
  | Stop | Cleanup => true
  | _ => false
  end.

(** What holds of a player that was never interrupted and whose callback
    fields were left [null]. *)
Definition steady (s : Stage) : Prop :=
  onPlaybackStart (player s) = None
  /\ onPlaybackEnd (player s) = None
  /\ (audioContext (player s) = None ->
      isPlaying (player s) = false /\ resuming (world s) = [] /\ decoding (world s) = 0%nat)
  /\ (if isPlaying (player s)
      then exists buffer, sounding (world s) = [buffer]
      else sounding (world s) = [] /\ playQueue (player s) = []).

(** *** Scenarios *)

(** Three replies decoded while the first is still sounding. *)
Definition three_replies : list Input :=
  [PlayAudio "AAAA" false; PlayAudio "BBBB" false; Decoded 1; PlayAudio "CCCC" true;
   Decoded 2; Resumed 0; Ended 0; Decoded 3].

(** A reply is sounding when the application calls [stop()]. *)
Definition one_sounding : Stage :=
  match run [PlayAudio "AAAA" false; Decoded 1] fresh with
  | Some (s, _) => s
  | None => fresh
  end.

End Player.

(** ** The chat page ([app.js]) *)

Module App.
Import Js Script.
Local Open Scope script_scope.

(** An entry of [state.messages]. *)
Record Message : Type := mkMessage {
  sender : string;
  text : jsval;
  timestamp : jsval
}.

(** The fields of [state] that the chat functions use.  [ws] is the
    [GLaDOSWebSocket] the page holds, if any; [audioCapture] tells
    whether a capture object is held. *)
Record State : Type := mkState {
  ws : option Client.Client;
  audioCapture : bool;
  messages : list Message;
  historyOffset : Z;
  historyLimit : Z;
  hasMoreHistory : json;
  audioEnabled : bool
}.

(** The elements the chat functions touch: the value of the message
    input, the messages the children of [#messages] were rendered from,
    in order, and whether [#load-more] is displayed. *)
Record Elements : Type := mkElements {
  messageInput : string;
  shown : list Message;
  loadMore : bool
}.

(** The page: its state, its elements, and the browser's sockets and
    timeouts of the client. *)
Record Page : Type := mkPage {
  state : State;
  elements : Elements;
  browser : Client.World
}.

Definition Stm (A : Type) : Type := @M Page Client.Effect exn A.

Definition set_ws (v : option Client.Client) (s : State) : State :=
  mkState v (audioCapture s) (messages s) (historyOffset s) (historyLimit s)
          (hasMoreHistory s) (audioEnabled s).
Definition set_messages (v : list Message) (s : State) : State :=
  mkState (ws s) (audioCapture s) v (historyOffset s) (historyLimit s)
          (hasMoreHistory s) (audioEnabled s).
Definition set_historyOffset (v : Z) (s : State) : State :=
  mkState (ws s) (audioCapture s) (messages s) v (historyLimit s)
          (hasMoreHistory s) (audioEnabled s).
Definition set_hasMoreHistory (v : json) (s : State) : State :=
  mkState (ws s) (audioCapture s) (messages s) (historyOffset s) (historyLimit s)
          v (audioEnabled s).

Definition set_messageInput (v : string) (e : Elements) : Elements :=
  mkElements v (shown e) (loadMore e).
Definition set_shown (v : list Message) (e : Elements) : Elements :=
  mkElements (messageInput e) v (loadMore e).
Definition set_loadMore (v : bool) (e : Elements) : Elements :=
  mkElements (messageInput e) (shown e) v.

Definition update (f : State -> State) : Stm unit :=
  modify (fun p => mkPage (f (state p)) (elements p) (browser p)).
Definition update_elements (f : Elements -> Elements) : Stm unit :=
  modify (fun p => mkPage (state p) (f (elements p)) (browser p)).

Definition lift {A} (c : completion A) : Stm A :=
  match c with
  | Normal a => ret a
  | Abrupt e => throw e
  end.

(** A method call on [state.ws]: the client runs against the browser's
    sockets, and what it does to itself and to them is kept. *)
Definition on_ws {A} (c : Client.Client) (method : Client.M A) : Stm A :=
  fun p =>
    match method (Client.mkSys c (browser p)) with
    | (r, s, t) =>
        (match r with Normal a => Returns a | Abrupt e => Throws e end,
         mkPage (set_ws (Some (Client.client s)) (state p)) (elements p) (Client.world s),
         t)
    end.

(** [state.ws && state.ws.isReady()], as a boolean. *)
Definition ready (p : Page) : bool :=
  match ws (state p) with
  | Some c => Client.isReady (Client.mkSys c (browser p))
  | None => false
  end.

Fixpoint forEach {A} (l : list A) (callback : A -> Stm unit) : Stm unit :=
  match l with
  | [] => ret tt
  | x :: rest => callback x ;; forEach rest callback
  end.

(** The state of a page that has just loaded. *)
Definition initial : State :=
  {| ws := None;
     audioCapture := false;
     messages := [];
     historyOffset := 0;
     historyLimit := 50;
     hasMoreHistory := JBool true;
     audioEnabled := true |}.

(** [renderMessage(message)] appends an element for the message;
    [renderMessages()] empties [#messages] and renders every message of
    [state.messages]. *)
Definition renderMessage (message : Message) : Stm unit :=
  update_elements (fun e => set_shown (shown e ++ [message]) e).

Definition renderMessages : Stm unit :=
  update_elements (set_shown []) ;;
  p <- get ;;
  forEach (messages (state p)) renderMessage.

(** [addMessage(sender, text, timestamp = null)]; [now] is what
    [new Date().toISOString()] returns. *)
Definition addMessage (sender : string) (text timestamp : jsval) (now : string) : Stm unit :=
  let message :=
    mkMessage sender text (if truthy timestamp then timestamp else Some (JStr now)) in
  update (fun s => set_messages (messages s ++ [message]) s) ;;
  renderMessage message.

(** [showError(message)] for a string. *)
Definition showError (message : string) (now : string) : Stm unit :=
  addMessage "system" (Some (JStr (String.append "Error: " message))) None now.

(** [sendMessage()]; [trim] is [String.prototype.trim]. *)
Definition sendMessage (trim : string -> string) (now : string) : Stm unit :=
  p <- get ;;
  let text := trim (messageInput (elements p)) in
  if String.eqb text "" then ret tt
  else
    match ws (state p) with
    | Some c =>
        if ready p then
          addMessage "user" (Some (JStr text)) None now ;;
          _ <- on_ws c (Client.sendText text) ;;
          update_elements (set_messageInput "")
        else showError "Not connected to server" now
    | None => showError "Not connected to server" now
    end.

(** The callback [startVoiceRecording] hands to [startRecording]. *)
Definition onAudioData (audioData : list Audio.float) : Stm unit :=
  let base64Audio := Audio.float32ToBase64PCM audioData in
  p <- get ;;
  match ws (state p) with
  | Some c =>
      if ready p then
        _ <- on_ws c (Client.sendAudio base64Audio "pcm_s16le" 16000) ;; ret tt
      else ret tt
  | None => ret tt
  end.

(** The listener of [text].  The keys read from what the server sent
    ([message], [timestamp], [messages], [has_more], [role], [content])
    are not defined on any prototype. *)
Definition on_text (data : json) (now : string) : Stm unit :=
  message <- lift (get_prop data "message") ;;
  timestamp <- lift (get_prop data "timestamp") ;;
  addMessage "glados" message timestamp now.

(** The listener of [error]: [showError(data.message || 'Connection error')],
    the template literal turning the value into a string. *)
Definition on_error (data : json) (now : string) : Stm unit :=
  message <- lift (get_prop data "message") ;;
  showError (match message with
             | Some v => if truthy message then ToString v else "Connection error"
             | None => "Connection error"
             end) now.

(** What [handleHistoryResponse] makes of one entry of the page. *)
Definition history_entry (msg : json) : completion Message :=
  match get_prop msg "role", get_prop msg "content", get_prop msg "timestamp" with
  | Normal role, Normal content, Normal timestamp =>
      Normal (mkMessage (if strict_eq_str role "user" then "user" else "glados")
                        content timestamp)
  | _, _, _ => Abrupt TypeError
  end.

(** [handleHistoryResponse(data)].  A value of [data.messages] that is
    truthy and not an array has no [reverse] method. *)
Definition handleHistoryResponse (data : json) : Stm unit :=
  given <- lift (get_prop data "messages") ;;
  has_more <- lift (get_prop data "has_more") ;;
  update (set_hasMoreHistory
            (match has_more with
             | Some v => if truthy has_more then v else JBool false
             | None => JBool false
             end)) ;;
  match (if truthy given then given else Some (JArr [])) with
  | Some (JArr items) =>
      forEach (rev items) (fun msg =>
        entry <- lift (history_entry msg) ;;
        update (fun s => set_messages (entry :: messages s) s)) ;;
      update (fun s => set_historyOffset (historyOffset s + Z.of_nat (length items)) s) ;;
      p <- get ;;
      update_elements (set_loadMore (truthy (Some (hasMoreHistory (state p))))) ;;
      renderMessages
  | _ => throw TypeError
  end.

(** [loadMoreHistory()], without the button it disables for a second
    (which only decides when it can be clicked again). *)
Definition loadMoreHistory : Stm unit :=
  p <- get ;;
  match ws (state p) with
  | Some c =>
      if ready p && truthy (Some (hasMoreHistory (state p))) then
        _ <- on_ws c (Client.requestHistory (historyOffset (state p))
                                            (historyLimit (state p))) ;;
        ret tt
      else ret tt
  | None => ret tt
  end.

(** The turns of the chat screen: the user types, sends, asks for
    earlier messages or speaks, and the client reports a text, an error
    or a page of history.  [now] is the clock's reading in that turn. *)
Inductive Input : Type :=
| ClickSend (now : string)
| ClickLoadMore
| AudioChunk (audioData : list Audio.float)
| TextArrives (data : json) (now : string)
| ErrorArrives (data : json) (now : string)
| HistoryArrives (data : json)
| Types (value : string).

Definition step (trim : string -> string) (i : Input) : Stm unit :=
  match i with
  | ClickSend now => sendMessage trim now
  | ClickLoadMore => loadMoreHistory
  | AudioChunk audioData => onAudioData audioData
  | TextArrives data now => on_text data now
  | ErrorArrives data now => on_error data now
  | HistoryArrives data => handleHistoryResponse data
  | Types value => update_elements (set_messageInput value)
  end.

(** A run of turns; an exception that leaves a turn is reported (or, in
    a listener, logged by [emit]) and the page goes on. *)
Fixpoint run (trim : string -> string) (inputs : list Input) (p : Page)
  : Page * list Client.Effect :=
  match inputs with
  | [] => (p, [])
  | i :: rest =>
      match step trim i p with
      | (_, p1, t1) =>
          match run trim rest p1 with
          | (p2, t2) => (p2, t1 ++ t2)
          end
      end
  end.

(** The array [handleHistoryResponse] goes through, if it gets that far:
    [data.messages], or an empty array when that is missing or falsy. *)
Definition history_items (data : json) : option (list json) :=
  match get_prop data "messages" with
  | Normal given =>
      match (if truthy given then given else Some (JArr [])) with
      | Some (JArr items) => Some items
      | _ => None
      end
  | Abrupt _ => None
  end.

Definition is_null (v : json) : bool :=
  match v with
  | JNull => true
  | _ => false
  end.

(** No page of history has [null] among its entries. *)
Definition sound (i : Input) : bool :=
  match i with
  | HistoryArrives data =>
      match history_items data with
      | Some items => negb (existsb is_null items)
      | None => true
      end
  | _ => true
  end.

Definition entry_of (msg : json) : Message :=
  match history_entry msg with
  | Normal entry => entry
  | Abrupt _ => mkMessage "glados" None None
  end.

(** The pages of history gone through in a run, in the order of their
    arrival. *)
Fixpoint pages (inputs : list Input) : list (list json) :=
  match inputs with
  | [] => []
  | HistoryArrives data :: rest =>
      match history_items data with
      | Some items => items :: pages rest
      | None => pages rest
      end
  | _ :: rest => pages rest
  end.

(** How many entries the pages hold together. *)
Definition total (l : list (list json)) : Z := Z.of_nat (length (concat l)).

(** What a call of [send] with [message] writes when the page's client
    is ready. *)
Definition written (p : Page) (message : Client.envelope) : list Client.Effect :=
  match ws (state p) with
  | Some c =>
      match Client.open_socket (Client.mkSys c (browser p)) with
      | Some id => if ready p then [Client.EWsSend id message] else []
      | None => []
      end
  | None => []
  end.

(** *** Scenarios *)

(** The chat screen of a user whose token was accepted. *)
Definition signed_in : Page :=
  let s := Client.state_after
             [Client.Connect "tok"; Client.WsOpen 0;
              Client.WsMessage 0 (Some Client.acceptance)] Client.fresh in
  mkPage (set_ws (Some (Client.client s)) initial) (mkElements "" [] false)
         (Client.world s).

Definition entry (role content timestamp : string) : json :=
  JObj [("role", JStr role); ("content", JStr content); ("timestamp", JStr timestamp)].

Definition page (items : list json) (has_more : bool) : json :=
  JObj [("type", JStr "history_response"); ("messages", JArr items);
        ("has_more", JBool has_more)].

(** The newest page of history arrives, the user says something, asks
    for earlier messages and gets the page before. *)
Definition two_pages : list Input :=
  [HistoryArrives (page [entry "user" "three" "t3"; entry "assistant" "four" "t4"] true);
   Types " hello ";
   ClickSend "t5";
   ClickLoadMore;
   HistoryArrives (page [entry "user" "one" "t1"; entry "assistant" "two" "t2"] false)].

End App.

(** ** Facts about the client *)

Module ClientFacts.
Import Js Client.
Local Open Scope js_scope.

(** The invocations [emit] makes for [event] in state [s]. *)
Lemma forEach_guarded (hs : list Handler) (data : payload) (s : Sys) :
  forEach hs (fun callback => try_catch (call callback data) (fun _ => ret tt)) s
  = (Normal tt, s, map (fun h => ECall (hid h) data) hs).
Proof.
  induction hs as [|h hs IH]; [reflexivity|].
  cbn [forEach map]. unfold bind at 1.
  assert (Hh : try_catch (call h data) (fun _ => ret tt) s
               = (Normal tt, s, [ECall (hid h) data])).
  { unfold try_catch, call, bind, tell, throw, ret.
    destruct (throws h data); reflexivity. }
  rewrite Hh, IH. reflexivity.
Qed.

(** Without the per-callback [try]/[catch], [forEach] stops at the first
    callback that throws and the exception leaves the loop. *)
Lemma forEach_unguarded_stops (h : Handler) (hs : list Handler) (data : payload) (s : Sys) :
  throws h data = true ->
  forEach (h :: hs) (fun callback => call callback data) s
  = (Abrupt (HandlerError (hid h)), s, [ECall (hid h) data]).
Proof.
  intros Ht. cbn [forEach]. unfold bind at 1.
  unfold call, bind, tell, throw. rewrite Ht. reflexivity.
Qed.

Lemma emit_any (event : string) (data : payload) (s : Sys) :
  emit event data s
  = if emit_throws s event
    then (Abrupt TypeError, s, [EEmit event data])
    else (Normal tt, s, EEmit event data :: calls_of s event data).
Proof.
  unfold emit, emit_throws, calls_of, handlers_of, slot.
  unfold bind at 1. unfold tell. unfold bind at 1. unfold this.
  destruct (listeners (client s) !! event) as [hs|]; cbn [default].
  - rewrite forEach_guarded. reflexivity.
  - destruct (inherited event); reflexivity.
Qed.

Lemma emit_throws_ordinary (s : Sys) (event : string) :
  inherited event = false -> emit_throws s event = false.
Proof.
  intros Hev. unfold emit_throws, slot. rewrite Hev.
  destruct (listeners (client s) !! event); reflexivity.
Qed.

Lemma emit_eq (event : string) (data : payload) (s : Sys) :
  inherited event = false ->
  emit event data s
  = (Normal tt, s, EEmit event data :: calls_of s event data).
Proof. intros Hev. rewrite emit_any, emit_throws_ordinary by exact Hev. reflexivity. Qed.

(** Symbolic evaluation of a method body: unfold the statements, replace
    every call of [emit] by its value, and split on the innermost test
    that blocks evaluation. *)
Ltac js_unfold :=
  cbv beta iota delta
    [bind ret throw try_catch lift this browser tell update update_world void
     connect disconnect send sendText sendAudio requestHistory on off
     onopen onmessage onerror onclose retry scheduleReconnect setTimeout
     ws_send ws_close new_WebSocket readyState JSON_parse setupEventHandlers
     set_socket drop_timer get_prop];
  cbn [client world url ws listeners reconnectDelay maxReconnectDelay shouldReconnect
       authenticated connectionAttempts token sockets timers ctor_throws
       set_ws set_listeners set_reconnectDelay set_shouldReconnect set_authenticated
       set_connectionAttempts set_token set_sockets set_timers
       default ReadyState_eqb app fst snd].

Ltac js_emit :=
  progress (rewrite ?emit_any;
            repeat match goal with
                   | |- context [emit_throws ?s ?event] =>
                       rewrite (emit_throws_ordinary s event) by reflexivity
                   end).

Ltac js_step := js_unfold; repeat (js_emit; js_unfold).

Ltac inner_case :=
  match goal with
  | |- context [match ?x with _ => _ end] =>
      lazymatch x with
      | context [match _ with _ => _ end] => fail
      | _ => destruct x eqn:?
      end
  end.

Ltac js_cases := js_step; repeat (inner_case; simplify_eq; js_step).

Lemma emitted_app (t1 t2 : list Effect) :
  emitted (t1 ++ t2) = emitted t1 ++ emitted t2.
Proof.
  induction t1 as [|e t1 IH]; [reflexivity|].
  destruct e; cbn; rewrite IH; reflexivity.
Qed.

Lemma retries_app (t1 t2 : list Effect) :
  retries (t1 ++ t2) = retries t1 ++ retries t2.
Proof.
  induction t1 as [|e t1 IH]; [reflexivity|].
  destruct e as [| | | |event data|]; cbn; try exact IH.
  destruct data; try exact IH.
  destruct (String.eqb event "reconnecting"); cbn; rewrite IH; reflexivity.
Qed.

Lemma timeouts_app (t1 t2 : list Effect) :
  timeouts (t1 ++ t2) = timeouts t1 ++ timeouts t2.
Proof.
  induction t1 as [|e t1 IH]; [reflexivity|].
  destruct e; cbn; rewrite IH; reflexivity.
Qed.

Lemma emitted_calls (s : Sys) (event : string) (data : payload) :
  emitted (calls_of s event data) = [].
Proof.
  unfold calls_of. induction (handlers_of s event) as [|h hs IH]; [reflexivity|].
  exact IH.
Qed.

Lemma quiet_calls (s : Sys) (event : string) (data : payload) :
  Forall (fun e => schedules_retry e = false) (calls_of s event data).
Proof.
  unfold calls_of. induction (handlers_of s event); constructor; auto.
Qed.

Lemma retries_calls (s : Sys) (event : string) (data : payload) :
  retries (calls_of s event data) = [].
Proof.
  unfold calls_of. induction (handlers_of s event) as [|h hs IH]; [reflexivity|].
  exact IH.
Qed.

Lemma timeouts_calls (s : Sys) (event : string) (data : payload) :
  timeouts (calls_of s event data) = [].
Proof.
  unfold calls_of. induction (handlers_of s event) as [|h hs IH]; [reflexivity|].
  exact IH.
Qed.

Ltac trace_simpl :=
  repeat (progress
            (cbn [emitted retries timeouts app];
             rewrite ?emitted_app, ?emitted_calls, ?retries_app, ?retries_calls,
               ?timeouts_app, ?timeouts_calls, ?app_nil_r)).

Ltac quiet :=
  repeat first
    [ apply Forall_nil_2
    | apply quiet_calls
    | apply Forall_app_2
    | apply Forall_cons_2; [reflexivity|] ].

(** No exception escapes a handler run by the browser, whatever the
    message and whatever the registered callbacks do. *)
Lemma step_normal (i : Input) (s s' : Sys) (r : completion unit) (t : list Effect) :
  from_browser i = true ->
  step i s = Some (r, s', t) -> r = Normal tt.
Proof.
  destruct i; try discriminate; intros _; cbn [step]; js_cases;
    intros Hst; simplify_eq; reflexivity.
Qed.

(** *** Event delivery *)

Lemma on_eq (event : string) (cb : Handler) (s : Sys) :
  inherited event = false ->
  on event cb s
  = (Normal tt,
     mkSys (set_listeners (<[event := handlers_of s event ++ [cb]]> (listeners (client s)))
                          (client s))
           (world s),
     []).
Proof.
  intros Hev. unfold on, handlers_of, slot. cbv beta iota delta [bind this update ret].
  rewrite Hev.
  destruct (listeners (client s) !! event) as [l|] eqn:Hl; cbn.
  - rewrite Hl. reflexivity.
  - rewrite lookup_insert_eq, insert_insert_eq. reflexivity.
Qed.

Lemma register_all (event : string) (hs : list Handler) (s : Sys) :
  inherited event = false ->
  exists s' t,
    run (map (On event) hs) s = Some (s', t)
    /\ world s' = world s
    /\ t = []
    /\ (hs <> [] -> handlers_of s' event = handlers_of s event ++ hs)
    /\ (hs = [] -> s' = s).
Proof.
  intros Hev. revert s. induction hs as [|h hs IH]; intros s.
  - exists s, []. cbn. repeat split; auto. congruence.
  - cbn [map run step]. rewrite on_eq by exact Hev.
    destruct (IH (mkSys (set_listeners (<[event := handlers_of s event ++ [h]]>
                                          (listeners (client s))) (client s)) (world s)))
      as (s' & t & Hrun & Hw & Ht & Hhs & Hnil).
    rewrite Hrun. subst t. exists s', [].
    split; [reflexivity|]. split; [exact Hw|]. split; [reflexivity|].
    split; [|discriminate].
    intros _. destruct hs as [|h' hs'].
    + rewrite (Hnil eq_refl). unfold handlers_of at 1. cbn.
      rewrite lookup_insert_eq. reflexivity.
    + rewrite Hhs by discriminate. unfold handlers_of at 1. cbn.
      rewrite lookup_insert_eq. cbn. rewrite <- app_assoc. reflexivity.
Qed.

(** C9.  Whatever handlers were already registered for an event, and
    whichever handlers are then registered with [on], [emit] calls every
    one of them once with the event data, earlier registrations first; it
    returns normally and leaves the client as it was, however many of the
    handlers throw.  (The throwing of a handler is contained by the
    [try]/[catch] around its call: see [forEach_unguarded_stops] for the
    loop without it.) *)
Theorem emit_reaches_every_handler
    (s : Sys) (event : string) (hs : list Handler) (data : payload) :
  inherited event = false ->
  exists s1 t1,
    run (map (On event) hs) s = Some (s1, t1)
    /\ emit event data s1
       = (Normal tt, s1,
          EEmit event data
            :: map (fun h => ECall (hid h) data) (handlers_of s event ++ hs)).
Proof.
  intros Hev.
  destruct (register_all event hs s Hev) as (s1 & t1 & Hrun & _ & _ & Hhs & Hnil).
  exists s1, t1. split; [exact Hrun|].
  rewrite emit_eq by exact Hev. unfold calls_of.
  destruct hs as [|h hs'].
  - rewrite (Hnil eq_refl), app_nil_r. reflexivity.
  - rewrite Hhs by discriminate. reflexivity.
Qed.

(** *** Outbound helpers *)

Lemma send_eq (message : envelope) (s : Sys) :
  send message s
  = match open_socket s with
    | Some id => (Normal true, s, [EWsSend id message])
    | None => (Normal false, s, [])
    end.
Proof.
  unfold open_socket. destruct s as [c w]. js_cases; try reflexivity.
  all: cbn in *; congruence.
Qed.

(** C3, as the code has it.  The three helpers go through [send], which
    looks at the transport only: with no open transport ([this.ws] unset,
    or its [readyState] not OPEN) each of them returns [false], writes
    nothing to any socket and leaves client and browser untouched, so
    nothing is kept for later; with an open transport each of them writes
    its envelope and returns [true], whatever [authenticated] is. *)
Theorem helpers_follow_the_transport
    (s : Sys) (text audioData format : string) (sampleRate offset limit : Z) :
  (open_socket s = None ->
     sendText text s = (Normal false, s, [])
     /\ sendAudio audioData format sampleRate s = (Normal false, s, [])
     /\ requestHistory offset limit s = (Normal false, s, []))
  /\ (forall id, open_socket s = Some id ->
     sendText text s = (Normal true, s, [EWsSend id (Text text)])
     /\ sendAudio audioData format sampleRate s
        = (Normal true, s, [EWsSend id (Audio audioData format sampleRate)])
     /\ requestHistory offset limit s
        = (Normal true, s, [EWsSend id (HistoryRequest offset limit)])).
Proof.
  unfold sendText, sendAudio, requestHistory. rewrite !send_eq.
  split; [intros H | intros id H]; rewrite H; auto.
Qed.

(** *** Successful open *)

(** C8.  When the browser reports a connecting socket open, the handler
    runs to its end and leaves [connectionAttempts] at 0 and
    [reconnectDelay] at 1000, whatever they were. *)
Theorem open_resets_backoff (s : Sys) (id : nat) :
  sockets (world s) !! id = Some CONNECTING ->
  exists s' t,
    step (WsOpen id) s = Some (Normal tt, s', t)
    /\ connectionAttempts (client s') = 0%Z
    /\ reconnectDelay (client s') = 1000%Q.
Proof.
  intros Hid. cbn [step]. rewrite Hid.
  js_cases; eexists _, _; (split; [reflexivity|]); cbn; auto.
Qed.

(** *** Incoming messages *)

Lemma onmessage_eq (msg : json) (ty : jsval) (s : Sys) :
  get_prop msg "type" = Normal ty ->
  exists t,
    onmessage (Some msg) s
    = (Normal tt,
       mkSys (if strict_eq_str ty "auth_response" then
                match msg with
                | JObj fields =>
                    if strict_eq_str (assoc "status" fields) "ok"
                    then set_authenticated true (client s)
                    else set_shouldReconnect false (set_authenticated false (client s))
                | _ => client s
                end
              else client s)
             (world s),
       t)
    /\ emitted t
       = derived_event msg ty ++ [(ToPropertyKey ty, PJson msg)]
           ++ (if emit_throws s (ToPropertyKey ty)
               then [("error", PMessage (str "Failed to parse server message"))]
               else [])
    /\ Forall (fun e => schedules_retry e = false) t
    /\ retries t = [] /\ timeouts t = [].
Proof.
  intros Hty. unfold derived_event.
  destruct msg; cbn in Hty; simplify_eq; destruct s as [c w].
  all: js_cases; cbn in *; simplify_eq.
  all: try congruence.
  all: unfold emit_throws, slot in *;
       cbn [client listeners set_authenticated set_shouldReconnect] in *.
  all: try congruence.
  all: repeat match goal with
              | H : match ?x with _ => _ end = _ |- context [?x] => destruct x eqn:?
              end;
       try discriminate.
  all: repeat match goal with
              | H : (if ?x then _ else _) = _ |- context [?x] => destruct x eqn:?
              end;
       try discriminate.
  all: eexists; (split; [reflexivity|]).
  all: trace_simpl.
  all: (split; [reflexivity|]); (split; [quiet|]); split; reflexivity.
Qed.

Lemma onmessage_garbled (s : Sys) :
  onmessage None s
  = (Normal tt, s,
     EEmit "error" (PMessage (str "Failed to parse server message"))
       :: calls_of s "error" (PMessage (str "Failed to parse server message"))).
Proof. destruct s as [c w]. js_cases. reflexivity. Qed.

Lemma calls_do_not_close (s : Sys) (event : string) (data : payload) :
  Forall (fun e => closes_socket e = false) (calls_of s event data).
Proof.
  unfold calls_of. induction (handlers_of s event); constructor; auto.
Qed.

Lemma onmessage_null (s : Sys) :
  onmessage (Some JNull) s
  = (Normal tt, s,
     EEmit "error" (PMessage (str "Failed to parse server message"))
       :: calls_of s "error" (PMessage (str "Failed to parse server message"))).
Proof. destruct s as [c w]. js_cases. reflexivity. Qed.

Lemma undefined_is_not_inherited (s : Sys) : emit_throws s "undefined" = false.
Proof.
  unfold emit_throws, slot. destruct (listeners (client s) !! "undefined"); reflexivity.
Qed.

(** C10.  What [onmessage] does with every payload.  A message that
    parses to an object is handled without exception and emitted with
    the whole object as data under the name its [type] converts to
    ("undefined" when it has none), after the event derived from it, if
    any: an [auth_response] with status "ok" first emits [authenticated]
    with the identity fields, any other [auth_response] first emits
    [auth_failed] with the message; no other type derives anything.
    (Only when that name is inherited from [Object.prototype] and has no
    listener of its own does the [emit] throw, and an [error] event
    follows.)  A message that parses to a boolean, a number, a string or
    an array is emitted under the name "undefined", and that is all.
    The message [null], like a payload that does not parse, emits one
    [error] event and nothing else: it is not forwarded.  Neither calls
    [close] on a socket or changes client or sockets. *)
Theorem onmessage_forwards_by_type (s : Sys) :
  (forall fields,
     exists s' t,
       onmessage (Some (JObj fields)) s = (Normal tt, s', t)
       /\ world s' = world s
       /\ emitted t
          = (if strict_eq_str (assoc "type" fields) "auth_response" then
               if strict_eq_str (assoc "status" fields) "ok" then
                 [("authenticated",
                   PIdentity (assoc "user_id" fields) (assoc "username" fields))]
               else
                 [("auth_failed",
                   PMessage (if truthy (assoc "message" fields)
                             then assoc "message" fields
                             else str "Authentication failed"))]
             else [])
            ++ [(ToPropertyKey (assoc "type" fields), PJson (JObj fields))]
            ++ (if emit_throws s (ToPropertyKey (assoc "type" fields))
                then [("error", PMessage (str "Failed to parse server message"))]
                else []))
  /\ (forall msg,
        match msg with
        | JNull | JObj _ => True
        | _ =>
            exists t,
              onmessage (Some msg) s = (Normal tt, s, t)
              /\ emitted t = [("undefined", PJson msg)]
        end)
  /\ (exists t,
        onmessage (Some JNull) s = (Normal tt, s, t)
        /\ emitted t = [("error", PMessage (str "Failed to parse server message"))]
        /\ Forall (fun e => closes_socket e = false) t)
  /\ (exists t,
        onmessage None s = (Normal tt, s, t)
        /\ emitted t = [("error", PMessage (str "Failed to parse server message"))]
        /\ Forall (fun e => closes_socket e = false) t).
Proof.
  split; [|split; [|split]].
  - intros fields.
    destruct (onmessage_eq (JObj fields) (assoc "type" fields) s) as (t & Heq & Hem & _);
      [reflexivity|].
    eexists _, t. split; [exact Heq|]. split; [reflexivity|].
    rewrite Hem. unfold derived_event. reflexivity.
  - intros msg.
    assert (H : get_prop msg "type" = Normal None ->
                exists t, onmessage (Some msg) s = (Normal tt, s, t)
                          /\ emitted t = [("undefined", PJson msg)]).
    { intros Hty. destruct (onmessage_eq msg None s Hty) as (t & Heq & Hem & _).
      exists t. split.
      - rewrite Heq. destruct s; reflexivity.
      - rewrite Hem. unfold derived_event. cbn [strict_eq_str ToPropertyKey app].
        rewrite undefined_is_not_inherited. reflexivity. }
    destruct msg; try exact I; apply H; reflexivity.
  - eexists. split; [apply onmessage_null|]. split.
    + trace_simpl. reflexivity.
    + constructor; [reflexivity|]. apply calls_do_not_close.
  - eexists. split; [apply onmessage_garbled|]. split.
    + trace_simpl. reflexivity.
    + constructor; [reflexivity|]. apply calls_do_not_close.
Qed.

(** *** The terminal state *)

Lemma step_terminal (s : Sys) (i : Input) (r : completion unit) (s' : Sys) (t : list Effect) :
  shouldReconnect (client s) = false ->
  rearms i = false ->
  step i s = Some (r, s', t) ->
  shouldReconnect (client s') = false
  /\ Forall (fun e => schedules_retry e = false) t.
Proof.
  intros Hs Hi Hst.
  destruct i; cbn [rearms] in Hi; try discriminate; cbn [step] in Hst.
  all: revert Hst; js_cases; intros Hst; simplify_eq; js_unfold.
  all: try (rewrite Hs in *; discriminate).
  all: split; [try assumption; try reflexivity | quiet].
Qed.

Lemma run_terminal (inputs : list Input) (s s' : Sys) (t : list Effect) :
  shouldReconnect (client s) = false ->
  Forall (fun i => rearms i = false) inputs ->
  run inputs s = Some (s', t) ->
  shouldReconnect (client s') = false
  /\ Forall (fun e => schedules_retry e = false) t.
Proof.
  revert s s' t. induction inputs as [|i inputs IH]; intros s s' t Hs Hin Hrun.
  - cbn in Hrun. simplify_eq. split; [assumption | constructor].
  - inversion Hin as [|? ? Hi Hrest]; subst. cbn [run] in Hrun.
    destruct (step i s) as [[[r s1] t1]|] eqn:Hst; [|discriminate].
    destruct (run inputs s1) as [[s2 t2]|] eqn:Hr; [|discriminate].
    simplify_eq.
    destruct (step_terminal _ _ _ _ _ Hs Hi Hst) as [Hs1 Hq1].
    destruct (IH _ _ _ Hs1 Hrest Hr) as [Hs2 Hq2].
    split; [assumption | apply Forall_app_2; assumption].
Qed.

(** Only the rejection branch of [onmessage] emits [auth_failed] with a
    message, and it has cleared [shouldReconnect] before. *)
Lemma auth_failed_is_terminal
    (i : Input) (s : Sys) (r : completion unit) (s' : Sys) (t : list Effect) (m : jsval) :
  step i s = Some (r, s', t) ->
  In ("auth_failed", PMessage m) (emitted t) ->
  shouldReconnect (client s') = false.
Proof.
  intros Hst.
  destruct i; cbn [step] in Hst.
  all: revert Hst; js_cases; intros Hst; simplify_eq; js_unfold.
  all: trace_simpl; cbn [In]; intros Hin.
  all: repeat match goal with H : _ \/ _ |- _ => destruct H end.
  all: try contradiction; try discriminate; try reflexivity.
Qed.

Lemma timer_is_noop (s : Sys) (k : nat) :
  shouldReconnect (client s) = false ->
  is_Some (timers (world s) !! k) ->
  step (TimerFire k) s = Some (Normal tt, drop_timer k s, []).
Proof.
  intros Hs [d Hd]. cbn [step]. rewrite Hd. destruct s as [c w]. cbn in Hs.
  js_cases; try reflexivity.
  all: rewrite Hs in *; discriminate.
Qed.

(** C2, as the code has it.  Once a turn has emitted [auth_failed] for a
    rejected [auth_response], or has run [disconnect(true)], then for as
    long as the application calls neither [connect] nor [disconnect(false)]
    (the two assignments of [true] to [shouldReconnect]), whatever else
    happens (socket events, sends, registrations, timeouts coming due): no
    [reconnecting] event is announced, no timeout is set, no socket is
    constructed, [shouldReconnect] stays [false], and any timeout still
    pending fires without effect and without changing the client. *)
Theorem terminal_state_is_quiet
    (s0 : Sys) (i : Input) (r : completion unit) (s1 : Sys) (t1 : list Effect)
    (rest : list Input) (s2 : Sys) (t2 : list Effect) :
  step i s0 = Some (r, s1, t1) ->
  (i = Disconnect true \/ exists m, In ("auth_failed", PMessage m) (emitted t1)) ->
  Forall (fun j => rearms j = false) rest ->
  run rest s1 = Some (s2, t2) ->
  Forall (fun e => schedules_retry e = false) t2
  /\ shouldReconnect (client s2) = false
  /\ (forall k, is_Some (timers (world s2) !! k) ->
        step (TimerFire k) s2 = Some (Normal tt, drop_timer k s2, [])).
Proof.
  intros Hst Htrig Hrest Hrun.
  assert (Hs1 : shouldReconnect (client s1) = false).
  { destruct Htrig as [-> | [m Hm]].
    - cbn [step] in Hst. revert Hst. js_cases; intros Hst; simplify_eq; reflexivity.
    - eapply auth_failed_is_terminal; eassumption. }
  destruct (run_terminal _ _ _ _ Hs1 Hrest Hrun) as [Hs2 Hq].
  split; [exact Hq|]. split; [exact Hs2|].
  intros k Hk. apply timer_is_noop; assumption.
Qed.

(** *** Backoff *)

Lemma step_backoff (i : Input) (s : Sys) (r : completion unit) (s' : Sys) (t : list Effect) :
  is_open i = false ->
  reconnectDelay (client s) = 1000%Q ->
  maxReconnectDelay (client s) = 30000%Q ->
  step i s = Some (r, s', t) ->
  reconnectDelay (client s') = 1000%Q
  /\ maxReconnectDelay (client s') = 30000%Q
  /\ ((retries t = [] /\ timeouts t = []
       /\ connectionAttempts (client s') = connectionAttempts (client s))
      \/ (retries t = [((connectionAttempts (client s) + 1)%Z,
                        spec_delay (connectionAttempts (client s) + 1))]
          /\ timeouts t = [spec_delay (connectionAttempts (client s) + 1)]
          /\ connectionAttempts (client s') = (connectionAttempts (client s) + 1)%Z)).
Proof.
  intros Hi Hd Hm Hst. destruct s as [c w]. cbn in Hd, Hm.
  destruct i; try discriminate; cbn [step] in Hst.
  all: revert Hst; js_cases; intros Hst; simplify_eq; js_unfold.
  all: trace_simpl.
  all: split; [assumption|]; split; [assumption|].
  all: try (left; repeat split; reflexivity).
  all: right; unfold spec_delay, Math_min, Math_pow; rewrite Hd, Hm; repeat split; reflexivity.
Qed.

Lemma run_backoff (inputs : list Input) (s s' : Sys) (t : list Effect) :
  Forall (fun i => is_open i = false) inputs ->
  reconnectDelay (client s) = 1000%Q ->
  maxReconnectDelay (client s) = 30000%Q ->
  run inputs s = Some (s', t) ->
  retries t
  = map (fun n => (n, spec_delay n))
        (seqZ (connectionAttempts (client s) + 1) (Z.of_nat (length (retries t))))
  /\ timeouts t = map snd (retries t)
  /\ connectionAttempts (client s')
     = (connectionAttempts (client s) + Z.of_nat (length (retries t)))%Z.
Proof.
  revert s s' t. induction inputs as [|i inputs IH]; intros s s' t Hin Hd Hm Hrun.
  - cbn in Hrun. simplify_eq. cbn. repeat split. lia.
  - inversion Hin as [|? ? Hi Hrest]; subst. cbn [run] in Hrun.
    destruct (step i s) as [[[r s1] t1]|] eqn:Hst; [|discriminate].
    destruct (run inputs s1) as [[s2 t2]|] eqn:Hr; [|discriminate].
    simplify_eq.
    destruct (step_backoff _ _ _ _ _ Hi Hd Hm Hst) as (Hd1 & Hm1 & Hcase).
    destruct (IH _ _ _ Hrest Hd1 Hm1 Hr) as (Hr2 & Ht2 & Ha2).
    rewrite retries_app, timeouts_app.
    destruct Hcase as [(Hr1 & Ht1 & Ha1) | (Hr1 & Ht1 & Ha1)];
      rewrite Hr1, Ht1; rewrite Ha1 in Hr2, Ha2; cbn [app length map snd].
    + repeat split; assumption.
    + rewrite seqZ_cons by lia. cbn [map].
      replace (Z.pred (Z.of_nat (S (length (retries t2)))))
        with (Z.of_nat (length (retries t2))) by lia.
      replace (Z.succ (connectionAttempts (client s) + 1))
        with (connectionAttempts (client s) + 1 + 1)%Z by lia.
      rewrite <- Hr2, Ht2. repeat split. lia.
Qed.

Lemma spec_delay_capped (n : Z) : (10 <= n)%Z -> (spec_delay n == 30000)%Q.
Proof.
  intros Hn. unfold spec_delay. apply Q.min_r.
  apply Qle_trans with (1000 * 1.5 ^ 9)%Q.
  - vm_compute. discriminate.
  - apply Qmult_le_l; [reflexivity|].
    apply Qpower_le_compat_l; [lia|]. vm_compute. discriminate.
Qed.

Lemma spec_delay_below_cap (n : Z) : (1 <= n <= 9)%Z -> (spec_delay n < 30000)%Q.
Proof.
  intros Hn.
  assert (H : (n = 1 \/ n = 2 \/ n = 3 \/ n = 4 \/ n = 5
               \/ n = 6 \/ n = 7 \/ n = 8 \/ n = 9)%Z) by lia.
  destruct H as [-> | [-> | [-> | [-> | [-> | [-> | [-> | [-> | ->] ] ] ] ] ] ] ];
    vm_compute; reflexivity.
Qed.

(** C1, as the code has it.  In any run that starts with
    [connectionAttempts] at 0 (a fresh client, or one whose socket has
    just opened) and delivers no [open], the retries announced are
    numbered 1, 2, 3, ... and the n-th one carries, and sets a timeout of,
    min(1000 * 1.5^(n-1), 30000) ms.  These delays are 1000, 1500, 2250,
    3375, ..., stay below the cap up to the ninth (25628.90625) and equal
    30000 from the tenth on. *)
Theorem backoff_follows_the_formula
    (inputs : list Input) (s s' : Sys) (t : list Effect) :
  Forall (fun i => is_open i = false) inputs ->
  connectionAttempts (client s) = 0%Z ->
  reconnectDelay (client s) = 1000%Q ->
  maxReconnectDelay (client s) = 30000%Q ->
  run inputs s = Some (s', t) ->
  (retries t
   = map (fun n => (n, spec_delay n)) (seqZ 1 (Z.of_nat (length (retries t))))
   /\ timeouts t = map snd (retries t))
  /\ (spec_delay 1 == 1000 /\ spec_delay 2 == 1500
      /\ spec_delay 3 == 2250 /\ spec_delay 4 == 3375)%Q
  /\ (spec_delay 9 == 25628.90625)%Q
  /\ (forall n, (1 <= n <= 9)%Z -> (spec_delay n < 30000)%Q)
  /\ (forall n, (10 <= n)%Z -> (spec_delay n == 30000)%Q).
Proof.
  intros Hin Ha Hd Hm Hrun.
  destruct (run_backoff _ _ _ _ Hin Hd Hm Hrun) as (Hr & Ht & _).
  rewrite Ha in Hr. cbn in Hr.
  split; [split; assumption|].
  split; [repeat split; vm_compute; reflexivity|].
  split; [vm_compute; reflexivity|].
  split; [apply spec_delay_below_cap | apply spec_delay_capped].
Qed.

(** *** The statements above at concrete runs *)

Lemma backoff_follows_the_formula_ten_failures :
  exists s' t,
    run (Connect "tok" :: failures 10) fresh = Some (s', t)
    /\ map fst (retries t) = [1; 2; 3; 4; 5; 6; 7; 8; 9; 10]%Z
    /\ retries t
       = map (fun n => (n, spec_delay n)) (seqZ 1 (Z.of_nat (length (retries t))))
    /\ timeouts t = map snd (retries t).
Proof.
  eexists _, _. split; [vm_compute; reflexivity|].
  split; [vm_compute; reflexivity|].
  eapply (backoff_follows_the_formula (Connect "tok" :: failures 10) fresh).
  - vm_compute. repeat constructor.
  - reflexivity.
  - reflexivity.
  - reflexivity.
  - vm_compute. reflexivity.
Defined.

(** The specification's scenario fails at attempt 9: in a run of ten
    consecutive failures the ninth retry waits 25628.90625 ms, not 30000;
    only the tenth is capped. *)
Lemma ninth_delay_is_below_the_cap :
  exists s' t d9 d10,
    run (Connect "tok" :: failures 10) fresh = Some (s', t)
    /\ retries t !! 8%nat = Some (9%Z, d9)
    /\ retries t !! 9%nat = Some (10%Z, d10)
    /\ (d9 == 25628.90625)%Q
    /\ ~ (d9 == 30000)%Q
    /\ (d10 == 30000)%Q.
Proof.
  eexists _, _, _, _. split; [vm_compute; reflexivity|].
  split; [reflexivity|]. split; [reflexivity|].
  split; [vm_compute; reflexivity|].
  split; [vm_compute; discriminate | vm_compute; reflexivity].
Qed.

Lemma terminal_state_is_quiet_pending_timer :
  exists s1 t1 s2 t2,
    step (WsMessage 1 (Some rejection)) retry_pending = Some (Normal tt, s1, t1)
    /\ timers (world s1) = [1000%Q]
    /\ run [TimerFire 0; WsClose 1 1008 "rejected"; SendText "hello"] s1 = Some (s2, t2)
    /\ t2 = [EEmit "disconnected" (PClosed 1008 "rejected")]
    /\ Forall (fun e => schedules_retry e = false) t2
    /\ shouldReconnect (client s2) = false
    /\ (forall k, is_Some (timers (world s2) !! k) ->
          step (TimerFire k) s2 = Some (Normal tt, drop_timer k s2, [])).
Proof.
  eexists _, _, _, _. split; [vm_compute; reflexivity|].
  split; [vm_compute; reflexivity|].
  split; [vm_compute; reflexivity|].
  split; [reflexivity|].
  eapply (terminal_state_is_quiet retry_pending (WsMessage 1 (Some rejection)) _ _ _
            [TimerFire 0; WsClose 1 1008 "rejected"; SendText "hello"]).
  - vm_compute. reflexivity.
  - right. eexists. vm_compute. left. reflexivity.
  - repeat constructor.
  - vm_compute. reflexivity.
Defined.

(** After a rejected token, [disconnect()] with its default argument
    assigns [true] to [shouldReconnect]; the close of the socket it was
    closing then schedules a retry, and the retry opens a new socket,
    although [connect] was never called again. *)
Lemma disconnect_false_rearms_after_auth_failed :
  exists s1 t1 s2 t2,
    run [Connect "tok"; WsOpen 0; WsMessage 0 (Some rejection)] fresh = Some (s1, t1)
    /\ In ("auth_failed", PMessage (str "Invalid token")) (emitted t1)
    /\ shouldReconnect (client s1) = false
    /\ run [Disconnect false; WsClose 0 1000 "Client disconnecting"; TimerFire 0] s1
       = Some (s2, t2)
    /\ t2 = [EWsClose 0 1000 "Client disconnecting";
             EEmit "disconnected" (PClosed 1000 "Client disconnecting");
             EEmit "reconnecting" (PReconnecting (spec_delay 1) 1);
             ESetTimeout (spec_delay 1);
             ENewWebSocket 1 "ws://bridge:8765"]
    /\ Exists (fun e => schedules_retry e = true) t2.
Proof.
  eexists _, _, _, _. split; [vm_compute; reflexivity|].
  split; [vm_compute; auto|].
  split; [reflexivity|].
  split; [reflexivity|].
  split; [reflexivity|].
  apply Exists_cons_tl, Exists_cons_tl, Exists_cons_hd. reflexivity.
Qed.

Lemma helpers_follow_the_transport_both_ways :
  (open_socket fresh = None ->
     sendText "hi" fresh = (Normal false, fresh, [])
     /\ sendAudio "AAAA" "pcm_s16le" 16000 fresh = (Normal false, fresh, [])
     /\ requestHistory 0 50 fresh = (Normal false, fresh, []))
  /\ (forall id, open_socket awaiting_auth = Some id ->
     sendText "hi" awaiting_auth = (Normal true, awaiting_auth, [EWsSend id (Text "hi")])
     /\ sendAudio "AAAA" "pcm_s16le" 16000 awaiting_auth
        = (Normal true, awaiting_auth, [EWsSend id (Audio "AAAA" "pcm_s16le" 16000)])
     /\ requestHistory 0 50 awaiting_auth
        = (Normal true, awaiting_auth, [EWsSend id (HistoryRequest 0 50)])).
Proof.
  split.
  - exact (proj1 (helpers_follow_the_transport fresh "hi" "AAAA" "pcm_s16le" 16000 0 50)).
  - exact (proj2 (helpers_follow_the_transport awaiting_auth "hi" "AAAA" "pcm_s16le" 16000 0 50)).
Defined.

(** With the transport open and no [auth_response] received yet the
    session is not ready, and [sendText] sends all the same. *)
Lemma send_ignores_authenticated :
  isReady awaiting_auth = false
  /\ authenticated (client awaiting_auth) = false
  /\ sendText "hi" awaiting_auth
     = (Normal true, awaiting_auth, [EWsSend 0 (Text "hi")])
  /\ sendAudio "AAAA" "pcm_s16le" 16000 awaiting_auth
     = (Normal true, awaiting_auth, [EWsSend 0 (Audio "AAAA" "pcm_s16le" 16000)])
  /\ requestHistory 0 50 awaiting_auth
     = (Normal true, awaiting_auth, [EWsSend 0 (HistoryRequest 0 50)]).
Proof. repeat split; vm_compute; reflexivity. Qed.

Lemma open_resets_backoff_after_ten_failures :
  connectionAttempts (client after_ten_failures) = 10%Z
  /\ exists s' t,
       step (WsOpen 10) after_ten_failures = Some (Normal tt, s', t)
       /\ connectionAttempts (client s') = 0%Z
       /\ reconnectDelay (client s') = 1000%Q.
Proof.
  split; [reflexivity|].
  apply (open_resets_backoff after_ten_failures 10). reflexivity.
Defined.

Lemma onmessage_forwards_by_type_rejection :
  (exists s' t,
     onmessage (Some rejection) awaiting_auth = (Normal tt, s', t)
     /\ world s' = world awaiting_auth
     /\ emitted t
        = [("auth_failed", PMessage (str "Invalid token"));
           ("auth_response", PJson rejection)])
  /\ (exists s' t,
        onmessage (Some (JObj [("type", JNum "5")])) awaiting_auth = (Normal tt, s', t)
        /\ world s' = world awaiting_auth
        /\ emitted t = [("5", PJson (JObj [("type", JNum "5")]))])
  /\ (exists t,
        onmessage (Some (JArr [JNum "1"; JNum "2"])) awaiting_auth
        = (Normal tt, awaiting_auth, t)
        /\ emitted t = [("undefined", PJson (JArr [JNum "1"; JNum "2"]))])
  /\ (exists t,
        onmessage None awaiting_auth = (Normal tt, awaiting_auth, t)
        /\ emitted t = [("error", PMessage (str "Failed to parse server message"))]
        /\ Forall (fun e => closes_socket e = false) t).
Proof.
  destruct (onmessage_forwards_by_type awaiting_auth) as (Hobj & Hother & _ & Hgarbled).
  split; [|split; [|split]].
  - exact (Hobj [("type", JStr "auth_response"); ("status", JStr "error");
                 ("message", JStr "Invalid token")]).
  - exact (Hobj [("type", JNum "5")]).
  - exact (Hother (JArr [JNum "1"; JNum "2"])).
  - exact Hgarbled.
Defined.

(** The message [null] is well-formed JSON, and it is not emitted under
    any name: reading its [type] throws, and the listeners of [error]
    are told that the message could not be parsed. *)
Lemma null_message_is_not_forwarded :
  exists t,
    onmessage (Some JNull) awaiting_auth = (Normal tt, awaiting_auth, t)
    /\ emitted t = [("error", PMessage (str "Failed to parse server message"))]
    /\ Forall (fun e => match e with
                        | EEmit _ (PJson _) => False
                        | _ => True
                        end) t.
Proof.
  eexists. split; [vm_compute; reflexivity|]. split; [reflexivity|].
  repeat constructor.
Qed.

(** Three handlers, the middle one throwing: all three are called, in the
    order they registered, and [emit] returns. *)
Example emit_past_a_throwing_handler :
  exists s1 t1,
    run [On "text" (returning 1); On "text" (throwing 2); On "text" (returning 3)] fresh
    = Some (s1, t1)
    /\ emit "text" PNone s1
       = (Normal tt, s1,
          [EEmit "text" PNone; ECall 1 PNone; ECall 2 PNone; ECall 3 PNone]).
Proof.
  destruct (emit_reaches_every_handler fresh "text"
              [returning 1; throwing 2; returning 3] PNone eq_refl)
    as (s1 & t1 & Hrun & Hemit).
  exists s1, t1. split; [exact Hrun|]. rewrite Hemit. reflexivity.
Defined.

End ClientFacts.

(** ** Facts about the proxy *)

Module ProxyFacts.
Import Proxy.

(** *** [int64] arithmetic *)

Lemma wrap64_range (z : Z) : (- 2 ^ 63 <= wrap64 z < 2 ^ 63)%Z.
Proof.
  unfold wrap64.
  pose proof (Z.mod_pos_bound (z + 2 ^ 63) (2 ^ 64) ltac:(lia)). lia.
Qed.

Lemma wrap64_small (z : Z) : (- 2 ^ 63 <= z < 2 ^ 63)%Z -> wrap64 z = z.
Proof.
  intros Hz. unfold wrap64. rewrite Z.mod_small by lia. lia.
Qed.

Lemma wrap64_add_l (a b : Z) : wrap64 (wrap64 a + b) = wrap64 (a + b).
Proof.
  unfold wrap64.
  replace ((a + 2 ^ 63) mod 2 ^ 64 - 2 ^ 63 + b + 2 ^ 63)%Z
    with ((a + 2 ^ 63) mod 2 ^ 64 + b)%Z by lia.
  rewrite Zplus_mod_idemp_l.
  replace (a + 2 ^ 63 + b)%Z with (a + b + 2 ^ 63)%Z by lia. reflexivity.
Qed.

Lemma wrap64_add_r (a b : Z) : wrap64 (a + wrap64 b) = wrap64 (a + b).
Proof. rewrite Z.add_comm, wrap64_add_l, Z.add_comm. reflexivity. Qed.

Lemma wrap64_idem (z : Z) : wrap64 (wrap64 z) = wrap64 z.
Proof. apply wrap64_small, wrap64_range. Qed.

(** *** Logs *)

Lemma main_events_snoc (l : list Event) (e : Event) :
  main_events (l ++ [e]) = main_events l ++ (if of_main e then [e] else []).
Proof. unfold main_events. rewrite List.filter_app. reflexivity. Qed.

Lemma dir_events_snoc (d : Dir) (l : list Event) (e : Event) :
  dir_events d (l ++ [e]) = dir_events d l ++ (if of_dir d e then [e] else []).
Proof. unfold dir_events. rewrite List.filter_app. reflexivity. Qed.

Lemma dir_marks_snoc (d : Dir) (l : list Event) (e : Event) :
  dir_marks d (l ++ [e]) = dir_marks d l ++ mark d e.
Proof. unfold dir_marks. rewrite flat_map_app. cbn. rewrite app_nil_r. reflexivity. Qed.

Lemma sumZ_app (l1 l2 : list Z) : sumZ (l1 ++ l2) = (sumZ l1 + sumZ l2)%Z.
Proof.
  unfold sumZ. induction l1 as [|x l1 IH]; cbn; [reflexivity | rewrite IH; lia].
Qed.

Lemma tally_snoc (w : Event -> Z) (l : list Event) (e : Event) :
  tally w (l ++ [e]) = (tally w l + w e)%Z.
Proof. unfold tally. rewrite List.map_app, sumZ_app. cbn. lia. Qed.

Lemma guarded_nil (G : list Event -> Prop) (B : Event -> bool) : guarded G B [].
Proof. intros l1 e l2 H. destruct l1; discriminate. Qed.

Lemma guarded_snoc (G : list Event -> Prop) (B : Event -> bool) (l : list Event) (e : Event) :
  guarded G B l -> (B e = true -> G l) -> guarded G B (l ++ [e]).
Proof.
  intros Hl He l1 e' l2 Heq Hb.
  destruct (exists_last (l := e' :: l2)) as (l2' & x & Hx); [discriminate|].
  rewrite Hx, app_assoc in Heq. apply app_inj_tail in Heq as [Heq ->].
  destruct l2' as [|y l2'].
  - cbn in Hx. assert (l2 = [] /\ e' = x) as [-> ->].
    { destruct l2 as [|? [|? ?]]; cbn in Hx; simplify_eq; auto. }
    rewrite app_nil_r in Heq. subst l. auto.
  - cbn in Hx. injection Hx as -> ->.
    apply (Hl l1 y l2'); auto.
Qed.

(** *** The invariant is kept *)

Lemma in_main_events (e : Event) (l : list Event) :
  of_main e = true -> In e l -> In e (main_events l).
Proof. intros He Hin. unfold main_events. apply List.filter_In. auto. Qed.

Lemma main_events_incl (l : list Event) : incl (main_events l) l.
Proof. intros e He. unfold main_events in He. apply List.filter_In in He. tauto. Qed.

Lemma sig_in_marks (d : Dir) (l : list Event) :
  In Sig (dir_marks d l) -> In (Completed d) l.
Proof.
  unfold dir_marks. rewrite in_flat_map. intros (e & He & Hm).
  destruct e; cbn in Hm; try contradiction.
  - destruct (Dir_eqb d d0); cbn in Hm; intuition discriminate.
  - destruct (Side_eqb s (dst d)); cbn in Hm; intuition discriminate.
  - destruct d, d0; cbn in Hm; try contradiction; exact He.
Qed.

Lemma copied_snoc (d : Dir) (l : list Event) (e : Event) :
  copied d (l ++ [e]) = (copied d l + w_copied d e)%Z.
Proof. apply tally_snoc. Qed.

Ltac conn_simpl :=
  cbn [main c2t t2c connID dialed bytesIn bytesOut wg done log
       goto record set_connID set_dialed set_wg set_done set_dir store_bytes
       dir_pc bytes_of prepare signal after_dial after_option option_event] in *.

Ltac log_simpl :=
  rewrite ?main_events_snoc, ?dir_marks_snoc, ?dir_events_snoc, ?copied_snoc;
  cbn [mark of_dir of_main w_copied Dir_eqb Side_eqb dst];
  rewrite ?app_nil_r, ?Z.add_0_r.

Lemma dir_events_nil (d : Dir) (l : list Event) :
  dir_events d l = [] -> dir_marks d l = [] /\ copied d l = 0%Z.
Proof.
  unfold dir_events, dir_marks, copied, tally, sumZ.
  induction l as [|e l IH]; cbn; [auto|].
  destruct (of_dir d e) eqn:He; [discriminate|].
  intros Hl. destruct (IH Hl) as [-> ->].
  destruct e; cbn in He |- *; rewrite ?He; auto.
Qed.

Lemma dialed_in_history (l hist : list Event) :
  main_events l = hist -> In (Dialed true) l -> In (Dialed true) hist.
Proof. intros <- Hin. apply in_main_events; [reflexivity | exact Hin]. Qed.

Lemma history_in_log (l hist : list Event) :
  main_events l = hist -> incl hist l.
Proof. intros <-. apply main_events_incl. Qed.

Lemma finished_in_log (d : Dir) (l : list Event) :
  dir_marks d l = [Ret; Half; Sig] -> In (Completed d) l.
Proof. intros H. apply sig_in_marks. rewrite H. cbn. auto. Qed.

Ltac split_hyps :=
  repeat match goal with
         | H : _ /\ _ |- _ => destruct H
         | H : _ \/ _ |- _ => destruct H
         end.

Ltac solve_main Hm :=
  unfold main_history; conn_simpl; log_simpl; rewrite Hm;
  repeat match goal with H : dialed _ = _ |- _ => rewrite H end;
  cbn [prelude handshake spawned sockopts failed_history take option_index app];
  reflexivity.

Ltac solve_control :=
  unfold control, idle, in_sync, both_finished, unfinished, may_pass, is_finished in *;
  conn_simpl;
  repeat match goal with
         | H : (_ && _) = true |- _ => apply andb_prop in H; destruct H
         | H : (_ =? _)%Z = true |- _ => apply Z.eqb_eq in H
         end;
  repeat case_match; simplify_eq;
  try lia; try tauto; try (intuition (try congruence; try lia)).

Ltac solve_close Hm Hd1 Hd2 :=
  apply guarded_snoc; [assumption|]; intros _ Hdial;
  first
    [ solve [ exfalso; apply (dialed_in_history _ _ Hm) in Hdial; cbn in Hdial;
              intuition discriminate ]
    | solve [ unfold both_finished, dir_inv in *; conn_simpl; split_hyps;
              repeat match goal with
                     | H : _ = Some Finished |- _ => rewrite H in Hd1
                     | H : _ = Some Finished |- _ => rewrite H in Hd2
                     end;
              split; apply finished_in_log; [apply Hd1 | apply Hd2] ] ].

Ltac solve_options Hm :=
  apply guarded_snoc; [assumption|]; intros _ _;
  eapply incl_tran; [|apply (history_in_log _ _ Hm)];
  cbn [prelude handshake app];
  intros e He; cbn in He |- *; tauto.

Ltac solve_spawn :=
  unfold dir_inv in *; conn_simpl;
  repeat match goal with
         | H : ?pc = None, H' : context [match ?pc with _ => _ end] |- _ =>
             rewrite H in H'
         end;
  split_hyps;
  match goal with
  | H : dir_events ?d ?l = [] |- _ =>
      let Hmk := fresh "Hmk" in
      let Hcp := fresh "Hcp" in
      destruct (dir_events_nil d l H) as [Hmk Hcp];
      log_simpl; rewrite Hmk, Hcp; split; reflexivity
  end.

(** Goals after a step of a direction or of the network. *)
Ltac by_main_pc Hm Hc :=
  unfold control, main_history, idle, both_finished in *; conn_simpl;
  destruct (main _); split_hyps; simplify_eq;
  repeat match goal with
         | H : dialed _ = _ |- _ => rewrite H in *
         end.

Ltac dir_goal Hm Hc Hd1 Hd2 :=
  lazymatch goal with
  | |- main_events _ = main_history _ _ =>
      log_simpl; rewrite ?app_nil_r;
      solve [ by_main_pc Hm Hc; try congruence; assumption ]
  | |- control _ _ =>
      solve [ unfold control, idle, in_sync, both_finished, unfinished, may_pass,
                is_finished in *;
              conn_simpl; destruct (main _); split_hyps; simplify_eq;
              repeat match goal with
                     | H : ?x = Some _ |- _ => rewrite H in *
                     | H : ?x = None |- _ => rewrite H in *
                     end;
              repeat split; try congruence; try lia; try tauto;
              try (left; repeat split; congruence);
              try (right; repeat split; congruence) ]
  | |- dir_inv _ _ =>
      solve [ unfold dir_inv in *; conn_simpl;
              repeat match goal with
                     | H : ?x = Some _ |- _ => rewrite H in *
                     end;
              log_simpl; split_hyps; try assumption;
              repeat match goal with
                     | H : dir_marks _ _ = _ |- _ => rewrite H
                     end;
              cbn [app]; subst; rewrite ?wrap64_add_l;
              repeat split; try congruence; try lia ]
  | |- Forall _ (_ ++ _) =>
      apply Forall_app; split; [assumption|]; constructor; [cbn; lia | constructor]
  | |- Forall _ _ => assumption
  | |- close_after_both (_ ++ _) => apply guarded_snoc; [assumption | discriminate]
  | |- close_after_both _ => assumption
  | |- options_first _ (_ ++ _) =>
      first
        [ solve [apply guarded_snoc; [assumption | discriminate]]
        | solve [ apply guarded_snoc; [assumption|]; intros _ _;
                  by_main_pc Hm Hc; try congruence;
                  (eapply incl_tran; [|apply (history_in_log _ _ Hm)]);
                  intros e He; cbn in He |- *; tauto ] ]
  | |- options_first _ _ => assumption
  end.

(** Every step of a connection keeps its invariant. *)
Lemma conn_step_inv (v : Version) (a : ConnAction) (k k' : Conn) (g g' : Counters) :
  Inv v k -> conn_step v a k g = Some (k', g') -> Inv v k'.
Proof.
  intros [Hm Hc Hd1 Hd2 Hpos Hcl Hop] Hstep.
  destruct a; cbn [conn_step] in Hstep.
  - unfold main_step in Hstep. unfold control in Hc. unfold main_history in Hm.
    destruct v; destruct (main k) as [ | | | | s o | | | | | | | | | ] eqn:Hpc;
      try (destruct s, o); conn_simpl; simplify_eq.
    all: try (destruct (may_pass _ k) eqn:Hpass; simplify_eq).
    all: split_hyps.
    all: repeat match goal with
                | H : dialed _ = _ |- _ => rewrite H in Hm
                end.
    all: constructor; conn_simpl.
    all: try (unfold dir_inv in *; conn_simpl; log_simpl; assumption).
    all: try (apply Forall_app; split; [assumption|]; constructor; [cbn; lia | constructor]).
    all: try (apply guarded_snoc; [assumption | discriminate]).
    all: try assumption.
    all: try (solve_main Hm).
    all: try (solve [solve_control]).
    all: try (solve [solve_close Hm Hd1 Hd2]).
    all: try (solve [solve_options Hm]).
    all: try (solve [solve_spawn]).
  - (* a direction's next statement *)
    destruct (dir_step v d k) as [k1|] eqn:Hdir; cbn in Hstep; simplify_eq.
    unfold dir_step in Hdir.
    destruct v, d; conn_simpl;
      match type of Hdir with
      | context [match ?pc with _ => _ end] => destruct pc as [[]|] eqn:Hdpc
      end; simplify_eq.
    all: constructor; conn_simpl.
    all: dir_goal Hm Hc Hd1 Hd2.
  - (* the dial returns *)
    destruct (dial_returns v ok k) as [k1|] eqn:Hdial; cbn in Hstep; simplify_eq.
    unfold dial_returns in Hdial. unfold control in Hc. unfold main_history in Hm.
    destruct (main k) eqn:Hpc; simplify_eq.
    destruct v, ok; split_hyps; constructor; conn_simpl.
    all: try (unfold dir_inv in *; conn_simpl; log_simpl; assumption).
    all: try (apply Forall_app; split; [assumption|]; constructor; [cbn; lia | constructor]).
    all: try (apply guarded_snoc; [assumption | discriminate]).
    all: try (solve_main Hm).
    all: try (solve [solve_control]).
  - (* a copy moves bytes *)
    destruct (copies d n k) as [k1|] eqn:Hcopy; cbn in Hstep; simplify_eq.
    unfold copies in Hcopy.
    destruct v, d; conn_simpl;
      match type of Hcopy with
      | context [match ?pc with _ => _ end] => destruct pc as [[]|] eqn:Hdpc
      end; simplify_eq.
    all: destruct (0 <? n)%Z eqn:Hn; simplify_eq; apply Z.ltb_lt in Hn.
    all: constructor; conn_simpl.
    all: dir_goal Hm Hc Hd1 Hd2.
  - (* a copy returns *)
    destruct (copy_returns d err k) as [k1|] eqn:Hcopy; cbn in Hstep; simplify_eq.
    unfold copy_returns in Hcopy.
    destruct v, d; conn_simpl;
      match type of Hcopy with
      | context [match ?pc with _ => _ end] => destruct pc as [[]|] eqn:Hdpc
      end; simplify_eq.
    all: constructor; conn_simpl.
    all: dir_goal Hm Hc Hd1 Hd2.
Qed.

Lemma accepted_inv (v : Version) : Inv v accepted.
Proof.
  constructor; cbn; try reflexivity.
  - repeat split.
  - split; reflexivity.
  - split; reflexivity.
  - constructor.
  - apply guarded_nil.
  - apply guarded_nil.
Qed.

Lemma step_inv (v : Version) (a : Action) (p p' : Proxy) :
  Forall (Inv v) (conns p) -> step v a p = Some p' -> Forall (Inv v) (conns p').
Proof.
  intros Hall Hstep. destruct a as [|c a]; cbn [step] in Hstep.
  - simplify_eq. cbn. apply Forall_app. split; [assumption|].
    constructor; [apply accepted_inv | constructor].
  - destruct (conns p !! c) as [k|] eqn:Hk; [|discriminate].
    destruct (conn_step v a k (counters p)) as [[k' g']|] eqn:Hc; [|discriminate].
    simplify_eq. cbn.
    apply Forall_insert; [assumption|].
    eapply conn_step_inv; [|eassumption].
    eapply Forall_lookup_1; eassumption.
Qed.

Lemma run_inv (v : Version) (schedule : list Action) (p p' : Proxy) :
  Forall (Inv v) (conns p) -> run v schedule p = Some p' -> Forall (Inv v) (conns p').
Proof.
  revert p. induction schedule as [|a rest IH]; intros p Hall Hrun; cbn in Hrun.
  - simplify_eq. assumption.
  - destruct (step v a p) as [p1|] eqn:Hstep; [|discriminate].
    eapply IH; [|eassumption]. eapply step_inv; eassumption.
Qed.

Lemma reachable_inv (v : Version) (schedule : list Action) (p : Proxy) (c : nat) (k : Conn) :
  run v schedule boot = Some p -> conns p !! c = Some k -> Inv v k.
Proof.
  intros Hrun Hk.
  assert (Hall : Forall (Inv v) (conns p)).
  { eapply run_inv; [|eassumption]. constructor. }
  eapply Forall_lookup_1; eassumption.
Qed.

(** *** The counters are the sums of the logs *)

Lemma sumZ_insert (f : Conn -> Z) (l : list Conn) (c : nat) (k k' : Conn) :
  l !! c = Some k ->
  sumZ (map f (<[c := k']> l)) = (sumZ (map f l) - f k + f k')%Z.
Proof.
  intros Hc. pose proof (take_drop_middle l c k Hc) as Hl.
  rewrite insert_take_drop by (eapply lookup_lt_Some; eassumption).
  remember (take c l) as front. remember (drop (S c) l) as back.
  rewrite <- Hl, !List.map_app, !sumZ_app. cbn [map]. unfold sumZ. cbn. lia.
Qed.

Lemma wrap64_ledger (b t x : Z) : wrap64 (b - t + (t + x)) = wrap64 (b + x).
Proof. f_equal. lia. Qed.

Ltac tally_simpl HT HA HB :=
  conn_simpl; cbn [totalConns activeConns totalBytes set_totalConns set_activeConns
                   set_totalBytes];
  rewrite ?tally_snoc; cbn [w_total w_active w_bytes];
  rewrite ?HT, ?HA, ?HB, ?wrap64_ledger, ?wrap64_add_l, ?wrap64_add_r;
  repeat split; f_equal; lia.

Lemma conn_step_counters (v : Version) (a : ConnAction) (k k' : Conn) (g g' : Counters) :
  conn_step v a k g = Some (k', g') ->
  forall T A B : Z,
    totalConns g = wrap64 T -> activeConns g = wrap64 A -> totalBytes g = wrap64 B ->
    totalConns g' = wrap64 (T - tally w_total (log k) + tally w_total (log k'))
    /\ activeConns g' = wrap64 (A - tally w_active (log k) + tally w_active (log k'))
    /\ totalBytes g' = wrap64 (B - tally w_bytes (log k) + tally w_bytes (log k')).
Proof.
  intros Hstep T A B HT HA HB.
  destruct a; cbn [conn_step] in Hstep.
  - unfold main_step in Hstep.
    destruct (main k); try destruct (may_pass v k); simplify_eq;
      try match goal with o : SockOpt |- _ => destruct o end;
      destruct v; tally_simpl HT HA HB.
  - destruct (dir_step v d k) as [k1|] eqn:Hd; cbn in Hstep; simplify_eq.
    unfold dir_step in Hd.
    destruct (dir_pc d k) as [[]|]; simplify_eq;
      destruct v, d; tally_simpl HT HA HB.
  - destruct (dial_returns v ok k) as [k1|] eqn:Hd; cbn in Hstep; simplify_eq.
    unfold dial_returns in Hd.
    destruct (main k); simplify_eq.
    tally_simpl HT HA HB.
  - destruct (copies d n k) as [k1|] eqn:Hd; cbn in Hstep; simplify_eq.
    unfold copies in Hd.
    destruct (dir_pc d k) as [[]|]; simplify_eq.
    destruct (0 <? n)%Z; simplify_eq.
    destruct d; tally_simpl HT HA HB.
  - destruct (copy_returns d err k) as [k1|] eqn:Hd; cbn in Hstep; simplify_eq.
    unfold copy_returns in Hd.
    destruct (dir_pc d k) as [[]|]; simplify_eq.
    destruct d; tally_simpl HT HA HB.
Qed.

Lemma step_balanced (v : Version) (a : Action) (p p' : Proxy) :
  balanced p -> step v a p = Some p' -> balanced p'.
Proof.
  intros (HT & HA & HB) Hstep. destruct a as [|c a]; cbn [step] in Hstep.
  - simplify_eq. unfold balanced, ledger in *. cbn [counters conns].
    rewrite !List.map_app, !sumZ_app. cbn. rewrite !Z.add_0_r. auto.
  - destruct (conns p !! c) as [k|] eqn:Hk; [|discriminate].
    destruct (conn_step v a k (counters p)) as [[k' g']|] eqn:Hc; [|discriminate].
    simplify_eq. unfold balanced, ledger in *. cbn [counters conns].
    rewrite !(sumZ_insert _ _ _ _ _ Hk).
    eapply conn_step_counters; eassumption.
Qed.

Lemma run_balanced (v : Version) (schedule : list Action) (p p' : Proxy) :
  balanced p -> run v schedule p = Some p' -> balanced p'.
Proof.
  revert p. induction schedule as [|a rest IH]; intros p Hb Hrun; cbn in Hrun.
  - simplify_eq. assumption.
  - destruct (step v a p) as [p1|] eqn:Hstep; [|discriminate].
    eapply IH; [|eassumption]. eapply step_balanced; eassumption.
Qed.

Lemma boot_balanced : balanced boot.
Proof. repeat split. Qed.

Lemma tally_main (w : Event -> Z) (l : list Event) :
  (forall e, of_main e = false -> w e = 0%Z) ->
  tally w l = tally w (main_events l).
Proof.
  intros Hw. unfold tally, main_events, sumZ.
  induction l as [|e l IH]; [reflexivity|]. cbn.
  destruct (of_main e) eqn:He; cbn; rewrite IH; [reflexivity|].
  rewrite (Hw e He). lia.
Qed.

Lemma byte_additions_main (l : list Event) :
  byte_additions l = byte_additions (main_events l).
Proof.
  unfold byte_additions, main_events.
  induction l as [|e l IH]; [reflexivity|]. cbn.
  destruct e; cbn; rewrite IH; reflexivity.
Qed.

Lemma failed_is_idle (v : Version) (k : Conn) :
  Inv v k -> dialed k = Some false ->
  c2t k = None /\ t2c k = None /\ bytesIn k = 0%Z /\ bytesOut k = 0%Z
  /\ dir_events ClientToTarget (log k) = [] /\ dir_events TargetToClient (log k) = [].
Proof.
  intros [Hm Hc Hd1 Hd2 _ _ _] Hd.
  assert (Hidle : c2t k = None /\ t2c k = None).
  { unfold control, idle, both_finished in Hc.
    destruct (main k); split_hyps; try congruence; auto. }
  destruct Hidle as [H1 H2]. unfold dir_inv in Hd1, Hd2. cbn in Hd1, Hd2.
  rewrite H1 in Hd1. rewrite H2 in Hd2. cbn in Hd1, Hd2. tauto.
Qed.

Lemma shares (v : Version) (k : Conn) :
  Inv v k ->
  tally w_total (log k) = total_share k
  /\ tally w_active (log k) = active_share k
  /\ tally w_bytes (log k) = bytes_share k
  /\ byte_additions (log k)
     = match dialed k with
       | Some true => if settled k then [wrap64 (recorded k)] else []
       | _ => []
       end.
Proof.
  intros HI. pose proof HI as [Hm Hc Hd1 Hd2 _ _ _].
  rewrite (tally_main w_total), (tally_main w_active), (tally_main w_bytes),
    byte_additions_main, Hm
    by (intros [] He; cbn in He; try discriminate; reflexivity).
  unfold main_history, total_share, active_share, bytes_share, settled, recorded.
  unfold control, idle, both_finished in Hc.
  destruct (dialed k) as [[|]|] eqn:Hdial.
  - destruct v; destruct (main k) as [ | | | | s o | | | | | | | | | ];
      try destruct s, o; split_hyps; try discriminate;
      repeat split; cbn -[wrap64]; try reflexivity; lia.
  - destruct (failed_is_idle v k HI Hdial) as (_ & _ & -> & -> & _).
    destruct v; destruct (main k) as [ | | | | s o | | | | | | | | | ];
      try destruct s, o; split_hyps; try discriminate;
      repeat split; cbn -[wrap64]; try reflexivity; lia.
  - destruct v; destruct (main k) as [ | | | | s o | | | | | | | | | ];
      try destruct s, o; split_hyps; try discriminate;
      repeat split; cbn -[wrap64]; try reflexivity; lia.
Qed.

Lemma only_main_events (l : list Event) :
  dir_events ClientToTarget l = [] -> dir_events TargetToClient l = [] ->
  main_events l = l.
Proof.
  unfold dir_events, main_events.
  induction l as [|e l IH]; [reflexivity|]. cbn.
  destruct (of_dir ClientToTarget e) eqn:H1; [discriminate|].
  destruct (of_dir TargetToClient e) eqn:H2; [discriminate|].
  intros Hl1 Hl2. rewrite (IH Hl1 Hl2).
  destruct e as [| | | | | | | | | [] | | |]; cbn in H1, H2 |- *;
    try discriminate; try reflexivity;
    match goal with d : Dir |- _ => destruct d; discriminate end.
Qed.

Lemma shares_sum (v : Version) (l : list Conn) (w : Event -> Z) (share : Conn -> Z) :
  Forall (Inv v) l ->
  (forall k, Inv v k -> tally w (log k) = share k) ->
  sumZ (map (fun k => tally w (log k)) l) = sumZ (map share l).
Proof.
  intros Hall Hw. unfold sumZ. induction Hall as [|k l Hk Hl IH]; [reflexivity|].
  cbn. rewrite IH, (Hw k Hk). reflexivity.
Qed.

Lemma step_on_last (v : Version) (a : ConnAction) (k k' : Conn) (g g' : Counters)
    (l : list Conn) :
  conn_step v a k g = Some (k', g') ->
  step v (On (length l) a) (mkProxy g (l ++ [k])) = Some (mkProxy g' (l ++ [k'])).
Proof.
  intros Hstep. cbn [step conns counters].
  rewrite list_lookup_middle by reflexivity. rewrite Hstep.
  f_equal. f_equal.
  replace (length l) with (length l + 0)%nat at 1 by lia.
  rewrite insert_app_r. reflexivity.
Qed.

Lemma run_step (v : Version) (a : Action) (rest : list Action) (p p' : Proxy) :
  step v a p = Some p' -> run v (a :: rest) p = run v rest p'.
Proof. intros H. cbn [run]. rewrite H. reflexivity. Qed.

Lemma refused_alone (v : Version) (g : Counters) (l : list Conn) :
  run v (refused (length l)) (mkProxy g l)
  = Some (mkProxy
            (mkCounters (wrap64 (wrap64 (activeConns g + 1) + -1))
                        (wrap64 (totalConns g + 1))
                        (totalBytes g))
            (l ++ [mkConn Returned None None (wrap64 (totalConns g + 1)) (Some false)
                          0 0 0 false failed_history])).
Proof.
  unfold refused, dial. cbn [app].
  erewrite run_step by reflexivity. cbn [counters conns].
  do 5 (erewrite run_step by (apply step_on_last; reflexivity)).
  reflexivity.
Qed.

Lemma ledger_shares (v : Version) (p : Proxy) :
  Forall (Inv v) (conns p) -> balanced p ->
  totalConns (counters p) = wrap64 (sumZ (map total_share (conns p)))
  /\ activeConns (counters p) = wrap64 (sumZ (map active_share (conns p)))
  /\ totalBytes (counters p) = wrap64 (sumZ (map bytes_share (conns p))).
Proof.
  intros Hall (HT & HA & HB). unfold ledger in *.
  rewrite HT, HA, HB.
  rewrite (shares_sum v _ w_total total_share), (shares_sum v _ w_active active_share),
    (shares_sum v _ w_bytes bytes_share);
    try assumption; try (intros k Hk; apply (shares v k Hk)).
  auto.
Qed.

(** *** A dial that fails *)

(** C4.  In either version, after any interleaving of any number of
    handlers: a connection whose dial failed can only go on to close the
    client connection, decrement and return; it has started no copy, moved
    and recorded no byte, has been counted once in [totalConns] and adds
    nothing to [totalBytes]; once returned, its whole history is
    [totalConns]+1, [activeConns]+1, the one dial, [clientConn.Close()],
    [activeConns]-1, and it no longer counts as active; until then its
    next statement is never blocked.  The counters are
    the [int64] sums of these shares.  And a handler whose dial fails can
    always run to that end: on its own it leaves [totalConns] one higher
    and [activeConns] and [totalBytes] as they were. *)
Theorem refused_dial_closes_and_returns (v : Version) (schedule : list Action) (p : Proxy) :
  run v schedule boot = Some p ->
  (forall c k, conns p !! c = Some k -> dialed k = Some false ->
     (main k = AtFailClose \/ main k = AtDeferred \/ main k = Returned)
     /\ c2t k = None /\ t2c k = None
     /\ transferred k = 0%Z /\ recorded k = 0%Z
     /\ total_share k = 1%Z /\ bytes_share k = 0%Z
     /\ (main k = Returned -> log k = failed_history /\ active_share k = 0%Z)
     /\ (main k <> Returned -> is_Some (step v (On c RunMain) p)))
  /\ (totalConns (counters p) = wrap64 (sumZ (map total_share (conns p)))
      /\ activeConns (counters p) = wrap64 (sumZ (map active_share (conns p)))
      /\ totalBytes (counters p) = wrap64 (sumZ (map bytes_share (conns p))))
  /\ exists p' k,
       run v (refused (length (conns p))) p = Some p'
       /\ conns p' = conns p ++ [k]
       /\ main k = Returned /\ log k = failed_history
       /\ totalConns (counters p') = wrap64 (totalConns (counters p) + 1)
       /\ activeConns (counters p') = activeConns (counters p)
       /\ totalBytes (counters p') = totalBytes (counters p).
Proof.
  intros Hrun.
  assert (Hall : Forall (Inv v) (conns p)).
  { eapply run_inv; [|eassumption]. constructor. }
  assert (Hbal : balanced p).
  { eapply run_balanced; [|eassumption]. apply boot_balanced. }
  split; [|split].
  - intros c k Hk Hdial.
    assert (HI : Inv v k) by (eapply Forall_lookup_1; eassumption).
    destruct (failed_is_idle v k HI Hdial) as (Hc1 & Hc2 & Hb1 & Hb2 & He1 & He2).
    destruct (dir_events_nil _ _ He1) as [_ Hcp1].
    destruct (dir_events_nil _ _ He2) as [_ Hcp2].
    pose proof HI as [Hm Hc _ _ _ _ _].
    assert (Hpc : main k = AtFailClose \/ main k = AtDeferred \/ main k = Returned).
    { unfold control, idle, both_finished in Hc.
      destruct (main k); split_hyps; try congruence; auto. }
    split; [exact Hpc|]. split; [exact Hc1|]. split; [exact Hc2|].
    split; [unfold transferred; lia|]. split; [unfold recorded; lia|].
    unfold total_share, bytes_share, active_share, settled, recorded.
    rewrite Hb1, Hb2.
    assert (Hgo : main k <> Returned -> is_Some (step v (On c RunMain) p)).
    { intros Hnot. cbn [step]. rewrite Hk. cbn [conn_step]. unfold main_step.
      destruct Hpc as [Hpc|[Hpc|Hpc]]; rewrite Hpc; [eauto | eauto | congruence]. }
    split; [destruct Hpc as [Hpc|[Hpc|Hpc]]; rewrite Hpc; reflexivity|].
    split; [destruct Hpc as [Hpc|[Hpc|Hpc]]; rewrite Hpc; reflexivity|].
    split; [|exact Hgo].
    intros Hret. split; [|rewrite Hret; reflexivity].
    rewrite <- (only_main_events _ He1 He2), Hm. unfold main_history.
    rewrite Hret, Hdial. reflexivity.
  - apply (ledger_shares v); assumption.
  - destruct p as [g l]. cbn [conns counters] in *.
    eexists _, _. split; [apply refused_alone|].
    cbn [conns counters main log totalConns activeConns totalBytes].
    repeat split.
    destruct Hbal as (_ & HA & _). cbn [counters] in HA.
    rewrite wrap64_add_l. replace (activeConns g + 1 + -1)%Z with (activeConns g) by lia.
    rewrite HA. apply wrap64_idem.
Qed.

Lemma marks_follow_pc (v : Version) (k : Conn) (d : Dir) :
  Inv v k -> dir_marks d (log k) = marks_at (dir_pc d k).
Proof.
  intros [_ _ Hd1 Hd2 _ _ _].
  assert (Hd : dir_inv d k) by (destruct d; assumption).
  unfold dir_inv in Hd. destruct (dir_pc d k) as [[]|]; cbn; try tauto.
  apply dir_events_nil. tauto.
Qed.

Lemma marks_app (d : Dir) (l1 l2 : list Event) :
  dir_marks d (l1 ++ l2) = dir_marks d l1 ++ dir_marks d l2.
Proof. unfold dir_marks. apply flat_map_app. Qed.

Lemma half_in_marks (d : Dir) (l : list Event) :
  In Half (dir_marks d l) -> In (CloseWrite (dst d)) l.
Proof.
  unfold dir_marks. rewrite in_flat_map. intros (e & He & Hm).
  destruct e; cbn in Hm; try contradiction.
  - destruct (Dir_eqb d d0); cbn in Hm; intuition discriminate.
  - destruct d, s; cbn in Hm; try contradiction; exact He.
  - destruct (Dir_eqb d d0); cbn in Hm; intuition discriminate.
Qed.

Lemma ret_in_marks (d : Dir) (l : list Event) :
  In Ret (dir_marks d l) -> exists n err, In (CopyReturned d n err) l.
Proof.
  unfold dir_marks. rewrite in_flat_map. intros (e & He & Hm).
  destruct e; cbn in Hm; try contradiction.
  - destruct d, d0; cbn in Hm; try contradiction; eauto.
  - destruct (Side_eqb s (dst d)); cbn in Hm; intuition discriminate.
  - destruct (Dir_eqb d d0); cbn in Hm; intuition discriminate.
Qed.

Lemma marks_at_prefix (pc : option CopyPc) :
  exists n, marks_at pc = take n [Ret; Half; Sig].
Proof.
  destruct pc as [[]|]; [exists 0%nat|exists 1%nat|exists 1%nat|exists 2%nat|exists 3%nat|exists 0%nat];
    reflexivity.
Qed.

(** The order of a direction's events. *)
Lemma direction_order (v : Version) (k : Conn) (d : Dir) :
  Inv v k ->
  (forall before after, log k = before ++ CloseWrite (dst d) :: after ->
     exists n err, In (CopyReturned d n err) before)
  /\ (forall before after, log k = before ++ Completed d :: after ->
     In (CloseWrite (dst d)) before).
Proof.
  intros HI. pose proof (marks_follow_pc v k d HI) as Hmk.
  destruct (marks_at_prefix (dir_pc d k)) as [n Hn]. rewrite Hn in Hmk. clear Hn.
  assert (Hs : Side_eqb (dst d) (dst d) = true) by (destruct d; reflexivity).
  assert (Hd : Dir_eqb d d = true) by (destruct d; reflexivity).
  split; intros before after Hlog; rewrite Hlog, marks_app in Hmk;
    cbn [dir_marks flat_map mark] in Hmk; rewrite ?Hs, ?Hd in Hmk; cbn [app] in Hmk.
  - apply ret_in_marks.
    destruct (dir_marks d before) as [|m1 [|m2 [|m3 rest]]] eqn:Hb;
      destruct n as [|[|[|n]]]; cbn in Hmk; simplify_eq.
    all: cbn; auto.
  - apply half_in_marks.
    destruct (dir_marks d before) as [|m1 [|m2 [|m3 rest]]] eqn:Hb;
      destruct n as [|[|[|n]]]; cbn in Hmk; simplify_eq.
    all: cbn; auto.
Qed.

Ltac indep :=
  cbn [other]; conn_simpl; repeat split; try reflexivity;
  intros ? [? ?]; repeat case_match; simplify_eq; eauto.

(** A step of one direction leaves the handler and the other direction
    where they are, and does not disable the other direction's copy. *)
Lemma directions_independent (v : Version) (d : Dir) (a : ConnAction)
    (k k' : Conn) (g g' : Counters) :
  acts_for d a = true ->
  conn_step v a k g = Some (k', g') ->
  main k' = main k
  /\ dir_pc (other d) k' = dir_pc (other d) k
  /\ g' = g
  /\ (forall n, is_Some (copies (other d) n k) -> is_Some (copies (other d) n k')).
Proof.
  intros Ha Hstep.
  destruct a as [|d'|?|d' n'|d' err]; try discriminate; cbn [conn_step] in Hstep.
  - destruct (dir_step v d' k) as [k1|] eqn:Hd; cbn in Hstep; simplify_eq.
    unfold dir_step in Hd.
    destruct v, d, d'; try discriminate; unfold copies; conn_simpl;
      match type of Hd with
      | context [match ?pc with _ => _ end] => destruct pc as [[]|]
      end; simplify_eq; indep.
  - destruct (copies d' n' k) as [k1|] eqn:Hd; cbn in Hstep; simplify_eq.
    unfold copies in Hd.
    destruct d, d'; try discriminate; unfold copies; conn_simpl;
      match type of Hd with
      | context [match ?pc with _ => _ end] => destruct pc as [[]|]
      end; simplify_eq; destruct (0 <? n')%Z; simplify_eq; indep.
  - destruct (copy_returns d' err k) as [k1|] eqn:Hd; cbn in Hstep; simplify_eq.
    unfold copy_returns in Hd.
    destruct d, d'; try discriminate; unfold copies; conn_simpl;
      match type of Hd with
      | context [match ?pc with _ => _ end] => destruct pc as [[]|]
      end; simplify_eq; indep.
Qed.

(** *** A direction runs to its signal *)

Lemma dir_runs_to_its_signal (v : Version) (d : Dir) (k : Conn) :
  exists k',
    run_dir v d (steps_left (dir_pc d k)) k = Some k'
    /\ log k' = log k ++ still_to_come d (dir_pc d k)
    /\ (steps_left (dir_pc d k) <> 0%nat ->
        dir_pc d k' = Some Finished /\ signalled v d k k')
    /\ dir_pc (other d) k' = dir_pc (other d) k
    /\ main k' = main k.
Proof.
  destruct k as [m c1 c2 id dl bi bo w dn lg].
  destruct v, d; cbn [dir_pc c2t t2c];
    match goal with
    | |- context [steps_left ?pc] => destruct pc as [[n|n| | |]|]
    end;
    eexists; (split; [reflexivity|]); cbn; rewrite <- ?app_assoc, ?app_nil_r;
    repeat split; try congruence; try reflexivity.
Qed.

Lemma copy_return_runs_to_its_signal (v : Version) (d : Dir) (k : Conn) (w : Z) (err : bool) :
  dir_pc d k = Some (Copying w) ->
  exists k1 k2,
    copy_returns d err k = Some k1
    /\ run_dir v d 3 k1 = Some k2
    /\ log k2 = log k ++ [CopyReturned d w err; CloseWrite (dst d); Completed d]
    /\ dir_pc d k2 = Some Finished
    /\ signalled v d k k2
    /\ dir_pc (other d) k2 = dir_pc (other d) k
    /\ main k2 = main k.
Proof.
  destruct k as [m c1 c2 id dl bi bo wg0 dn lg].
  destruct v, d; cbn [dir_pc c2t t2c]; intros ->;
    eexists _, _; (split; [reflexivity|]); (split; [reflexivity|]);
    cbn; rewrite <- ?app_assoc; repeat split; reflexivity.
Qed.

Lemma wait_passes (v : Version) (k : Conn) (g : Counters) :
  Inv v k -> main k = AtWait -> both_finished k ->
  main_step v k g = Some (goto AtCloseClient k, g).
Proof.
  intros HI Hm [H1 H2]. pose proof (inv_control v k HI) as Hc.
  unfold control in Hc. rewrite Hm in Hc. destruct Hc as (_ & _ & _ & Hsync).
  unfold main_step. rewrite Hm.
  unfold may_pass, in_sync, unfinished, is_finished in *. rewrite H1, H2 in *.
  destruct v; rewrite Hsync; reflexivity.
Qed.

(** *** The two directions *)

(** C5.  In either version, for every connection of every reachable state
    of the process.  When the copy of a direction ends, with or without
    an error, the three statements that follow it in that direction can
    always run, whatever the other direction and the handler are doing:
    they store the count, half-close the destination of that direction
    (and nothing else) and signal completion ([wg.Done()], or
    [close(done)]; the inline direction of the [DoneChannel] version
    simply ends), and they change neither the program point of the other
    direction, which goes on copying if it was, nor that of the handler.
    The same holds from wherever the direction stands after its copy.
    A full [Close] of a paired connection is preceded by the completion
    signals of both directions, and once both directions have finished
    the handler does get past its wait, to the two [Close] calls.  Each
    direction leaves its marks in the order copy returned, half-close,
    signal; and no step of a direction touches the handler's program
    point, the other direction or the counters. *)
Theorem close_waits_for_both_directions
    (v : Version) (schedule : list Action) (p : Proxy) (c : nat) (k : Conn) :
  run v schedule boot = Some p ->
  conns p !! c = Some k ->
  (forall d w err,
     dir_pc d k = Some (Copying w) ->
     exists k1 k2,
       copy_returns d err k = Some k1
       /\ run_dir v d 3 k1 = Some k2
       /\ log k2 = log k ++ [CopyReturned d w err; CloseWrite (dst d); Completed d]
       /\ dir_pc d k2 = Some Finished
       /\ signalled v d k k2
       /\ dir_pc (other d) k2 = dir_pc (other d) k
       /\ main k2 = main k)
  /\ (forall d, exists k',
       run_dir v d (steps_left (dir_pc d k)) k = Some k'
       /\ log k' = log k ++ still_to_come d (dir_pc d k)
       /\ (steps_left (dir_pc d k) <> 0%nat ->
           dir_pc d k' = Some Finished /\ signalled v d k k')
       /\ dir_pc (other d) k' = dir_pc (other d) k
       /\ main k' = main k)
  /\ (forall before s after,
       log k = before ++ Close s :: after ->
       In (Dialed true) before ->
       In (Completed ClientToTarget) before /\ In (Completed TargetToClient) before)
  /\ (main k = AtWait -> both_finished k ->
       step v (On c RunMain) p
       = Some (mkProxy (counters p) (<[c := goto AtCloseClient k]> (conns p))))
  /\ (forall d,
       dir_marks d (log k) = marks_at (dir_pc d k)
       /\ (forall before after, log k = before ++ CloseWrite (dst d) :: after ->
             exists n err, In (CopyReturned d n err) before)
       /\ (forall before after, log k = before ++ Completed d :: after ->
             In (CloseWrite (dst d)) before))
  /\ (forall d a k' g g',
       acts_for d a = true ->
       conn_step v a k g = Some (k', g') ->
       main k' = main k
       /\ dir_pc (other d) k' = dir_pc (other d) k
       /\ g' = g
       /\ (forall n, is_Some (copies (other d) n k) -> is_Some (copies (other d) n k'))).
Proof.
  intros Hrun Hk. pose proof (reachable_inv v schedule p c k Hrun Hk) as HI.
  split; [|split; [|split; [|split; [|split]]]].
  - intros d w err. apply copy_return_runs_to_its_signal.
  - intros d. apply dir_runs_to_its_signal.
  - intros before s after Hlog Hdial.
    exact (inv_close v k HI before (Close s) after Hlog eq_refl Hdial).
  - intros Hm Hboth. cbn [step conn_step]. rewrite Hk.
    rewrite (wait_passes v k (counters p) HI Hm Hboth). reflexivity.
  - intros d. split; [apply (marks_follow_pc v); exact HI|].
    apply (direction_order v k d HI).
  - intros d a k' g g'. apply directions_independent.
Qed.

Lemma copied_nonneg (v : Version) (k : Conn) (d : Dir) :
  Inv v k -> (0 <= copied d (log k))%Z.
Proof.
  intros [_ _ _ _ Hpos _ _]. unfold copied, tally, sumZ.
  induction Hpos as [|e l [H1 H2] _ IH]; cbn; [lia|].
  destruct d; lia.
Qed.

Lemma sumZ_nonneg (f : Conn -> Z) (l : list Conn) :
  Forall (fun k => 0 <= f k)%Z l -> (0 <= sumZ (map f l))%Z.
Proof. unfold sumZ. induction 1; cbn; lia. Qed.

Lemma sumZ_member (f : Conn -> Z) (l : list Conn) (c : nat) (k : Conn) :
  Forall (fun k => 0 <= f k)%Z l -> l !! c = Some k -> (f k <= sumZ (map f l))%Z.
Proof.
  intros Hall. revert c. induction Hall as [|x l Hx Hl IH]; intros c Hc; [discriminate|].
  pose proof (sumZ_nonneg f l Hl) as Hs. unfold sumZ in *.
  destruct c as [|c]; cbn in Hc |- *.
  - simplify_eq. lia.
  - specialize (IH c Hc). lia.
Qed.

Lemma sumZ_le (f h : Conn -> Z) (l : list Conn) :
  Forall (fun k => f k <= h k)%Z l -> (sumZ (map f l) <= sumZ (map h l))%Z.
Proof. unfold sumZ. induction 1; cbn; lia. Qed.

Lemma transferred_nonneg (v : Version) (l : list Conn) :
  Forall (Inv v) l -> Forall (fun k => 0 <= transferred k)%Z l.
Proof.
  intros Hall. eapply Forall_impl; [exact Hall|]. intros k HI. unfold transferred.
  pose proof (copied_nonneg v k ClientToTarget HI).
  pose proof (copied_nonneg v k TargetToClient HI). lia.
Qed.

(** What a settled connection has recorded, when no count overflows. *)
Lemma settled_records (v : Version) (k : Conn) :
  Inv v k -> settled k = true -> (transferred k < 2 ^ 63)%Z ->
  bytesIn k = copied ClientToTarget (log k)
  /\ bytesOut k = copied TargetToClient (log k)
  /\ bytes_share k = recorded k.
Proof.
  intros HI Hs Hlt.
  pose proof (copied_nonneg v k ClientToTarget HI) as H1.
  pose proof (copied_nonneg v k TargetToClient HI) as H2.
  unfold transferred in Hlt.
  assert (Hb : bytesIn k = wrap64 (copied ClientToTarget (log k))
               /\ bytesOut k = wrap64 (copied TargetToClient (log k))).
  { destruct (dialed k) as [[|]|] eqn:Hdial.
    - pose proof HI as [_ Hc Hd1 Hd2 _ _ _].
      unfold settled in Hs. unfold control, idle, both_finished in Hc.
      unfold dir_inv in Hd1, Hd2. cbn [dir_pc bytes_of] in Hd1, Hd2.
      destruct (main k); try discriminate; split_hyps; try congruence;
        repeat match goal with H : _ = Some Finished |- _ => rewrite H in * end;
        tauto.
    - destruct (failed_is_idle v k HI Hdial) as (_ & _ & -> & -> & He1 & He2).
      destruct (dir_events_nil _ _ He1) as [_ ->].
      destruct (dir_events_nil _ _ He2) as [_ ->]. split; reflexivity.
    - pose proof HI as [_ Hc _ _ _ _ _].
      unfold settled in Hs. unfold control in Hc.
      destruct (main k); try discriminate; split_hyps; congruence. }
  destruct Hb as [Hb1 Hb2].
  rewrite wrap64_small in Hb1 by lia. rewrite wrap64_small in Hb2 by lia.
  split; [exact Hb1|]. split; [exact Hb2|].
  unfold bytes_share, recorded. rewrite Hs, Hb1, Hb2. apply wrap64_small. lia.
Qed.

Lemma share_le_transferred (v : Version) (k : Conn) :
  Inv v k -> (transferred k < 2 ^ 63)%Z ->
  (0 <= bytes_share k <= transferred k)%Z
  /\ bytes_share k = (if settled k then recorded k else 0)%Z.
Proof.
  intros HI Hlt.
  pose proof (copied_nonneg v k ClientToTarget HI) as H1.
  pose proof (copied_nonneg v k TargetToClient HI) as H2.
  destruct (settled k) eqn:Hs.
  - destruct (settled_records v k HI Hs Hlt) as (Hb1 & Hb2 & Hsh).
    rewrite Hsh. unfold recorded, transferred in *. lia.
  - unfold bytes_share. rewrite Hs. unfold transferred. lia.
Qed.

(** *** Byte counts *)

(** C6.  In either version, in every reachable state of the process,
    [totalBytes] is the [int64] sum of what the connections past their
    accounting recorded; and when the bytes moved so far fit an [int64],
    nothing wraps: for every connection
    whose handler is past its accounting, [bytesIn] and [bytesOut] are the
    bytes its two copies moved, so their sum is the bytes moved in both
    directions; a paired connection has added exactly that sum to
    [totalBytes], once, right after the two [Close] calls (a connection
    whose dial failed has moved and added nothing); and [totalBytes] is the
    sum of [bytesIn + bytesOut] over the connections past their
    accounting, however the handlers were interleaved. *)
Theorem totalBytes_is_the_sum_over_settled_connections
    (v : Version) (schedule : list Action) (p : Proxy) :
  run v schedule boot = Some p ->
  totalBytes (counters p) = wrap64 (sumZ (map bytes_share (conns p)))
  /\ ((sumZ (map transferred (conns p)) < 2 ^ 63)%Z ->
  (forall c k, conns p !! c = Some k -> settled k = true ->
     bytesIn k = copied ClientToTarget (log k)
     /\ bytesOut k = copied TargetToClient (log k)
     /\ recorded k = transferred k
     /\ byte_additions (log k)
        = match dialed k with Some true => [recorded k] | _ => [] end
     /\ (dialed k = Some true ->
         exists rest,
           main_events (log k)
           = prelude v ++ spawned
               ++ [Close ClientConn; Close TargetConn; AddTotalBytes (recorded k)]
               ++ rest))
  /\ totalBytes (counters p)
     = sumZ (map (fun k => if settled k then recorded k else 0%Z) (conns p))).
Proof.
  intros Hrun.
  assert (Hall : Forall (Inv v) (conns p)).
  { eapply run_inv; [|eassumption]. constructor. }
  assert (Hbal : balanced p).
  { eapply run_balanced; [|eassumption]. apply boot_balanced. }
  split; [apply (ledger_shares v p Hall Hbal)|].
  intros Hlt.
  pose proof (transferred_nonneg v _ Hall) as Hnn.
  assert (Hk : forall c k, conns p !! c = Some k -> Inv v k /\ (transferred k < 2 ^ 63)%Z).
  { intros c k Hc. split; [eapply Forall_lookup_1; eassumption|].
    pose proof (sumZ_member transferred _ c k Hnn Hc). lia. }
  split.
  - intros c k Hc Hs. destruct (Hk c k Hc) as [HI Hltk].
    destruct (settled_records v k HI Hs Hltk) as (Hb1 & Hb2 & Hsh).
    split; [exact Hb1|]. split; [exact Hb2|].
    split; [unfold recorded, transferred; lia|].
    unfold bytes_share in Hsh. rewrite Hs in Hsh.
    split.
    + destruct (shares v k HI) as (_ & _ & _ & Hadds). rewrite Hadds, Hs, Hsh.
      reflexivity.
    + intros Hdial. rewrite (inv_main v k HI). unfold main_history.
      unfold settled in Hs. rewrite Hdial. fold (recorded k). rewrite Hsh.
      destruct (main k); try discriminate.
      * exists []. reflexivity.
      * exists [AddActiveConns (-1)]. rewrite <- !app_assoc. reflexivity.
  - destruct (ledger_shares v p Hall Hbal) as (_ & _ & HB). rewrite HB.
    assert (Hshares : Forall (fun k => (0 <= bytes_share k <= transferred k)%Z
                                       /\ bytes_share k
                                          = (if settled k then recorded k else 0)%Z)
                             (conns p)).
    { apply Forall_lookup_2. intros c k Hc. destruct (Hk c k Hc) as [HI Hltk].
      apply (share_le_transferred v); assumption. }
    assert (Heq : map bytes_share (conns p)
                  = map (fun k => if settled k then recorded k else 0%Z) (conns p)).
    { apply List.map_ext_in. intros k Hin.
      rewrite List.Forall_forall in Hshares. apply (Hshares k Hin). }
    rewrite <- Heq. apply wrap64_small.
    pose proof (sumZ_nonneg bytes_share (conns p)) as Hlo.
    pose proof (sumZ_le bytes_share transferred (conns p)) as Hhi.
    assert (Forall (fun k => 0 <= bytes_share k)%Z (conns p))
      by (eapply Forall_impl; [exact Hshares|]; cbn; intros; lia).
    assert (Forall (fun k => bytes_share k <= transferred k)%Z (conns p))
      by (eapply Forall_impl; [exact Hshares|]; cbn; intros; lia).
    specialize (Hlo ltac:(assumption)). specialize (Hhi ltac:(assumption)). lia.
Qed.

(** *** Socket options *)

(** The [DoneChannel] version has set keep-alive and no-delay on both
    connections before any copy starts or moves a byte. *)
Lemma done_channel_sets_options_first
    (schedule : list Action) (p : Proxy) (c : nat) (k : Conn) :
  run DoneChannel schedule boot = Some p ->
  conns p !! c = Some k ->
  forall before e after,
    log k = before ++ e :: after ->
    is_copy e = true ->
    In (SetNoDelay ClientConn true) before /\ In (SetKeepAlive ClientConn true) before
    /\ In (SetNoDelay TargetConn true) before /\ In (SetKeepAlive TargetConn true) before.
Proof.
  intros Hrun Hk before e after Hlog He.
  pose proof (reachable_inv _ _ _ _ _ Hrun Hk) as HI.
  pose proof (inv_options _ _ HI before e after Hlog He eq_refl) as Hincl.
  repeat split; apply Hincl; cbn; auto 10.
Qed.









(** *** The statements above at concrete schedules *)

Lemma refused_dial_closes_and_returns_third_client :
  let p := state_after WaitGroup (three_clients WaitGroup) in
  run WaitGroup (three_clients WaitGroup) boot = Some p
  /\ counters p = mkCounters 0 3 187
  /\ (forall c k, conns p !! c = Some k -> dialed k = Some false ->
        (main k = AtFailClose \/ main k = AtDeferred \/ main k = Returned)
        /\ c2t k = None /\ t2c k = None
        /\ transferred k = 0%Z /\ recorded k = 0%Z
        /\ total_share k = 1%Z /\ bytes_share k = 0%Z
        /\ (main k = Returned -> log k = failed_history /\ active_share k = 0%Z)
        /\ (main k <> Returned -> is_Some (step WaitGroup (On c RunMain) p)))
  /\ exists k, conns p !! 2%nat = Some k /\ dialed k = Some false /\ main k = Returned.
Proof.
  intros p.
  assert (Hrun : run WaitGroup (three_clients WaitGroup) boot = Some p)
    by (vm_compute; reflexivity).
  split; [exact Hrun|]. split; [vm_compute; reflexivity|].
  split.
  - exact (proj1 (refused_dial_closes_and_returns WaitGroup
                    (three_clients WaitGroup) p Hrun)).
  - eexists. vm_compute. repeat split.
Defined.

Lemma close_waits_for_both_directions_request_reply :
  (exists k k1 k2,
     conns (state_after WaitGroup (half_way WaitGroup)) !! 0%nat = Some k
     /\ dir_pc TargetToClient k = Some (Copying 0) /\ wg k = 2%Z
     /\ copy_returns ClientToTarget false k = Some k1
     /\ run_dir WaitGroup ClientToTarget 3 k1 = Some k2
     /\ log k2
        = log k ++ [CopyReturned ClientToTarget 5 false; CloseWrite TargetConn;
                    Completed ClientToTarget]
     /\ dir_pc ClientToTarget k2 = Some Finished
     /\ wg k2 = 1%Z
     /\ dir_pc TargetToClient k2 = Some (Copying 0)
     /\ main k2 = AtWait)
  /\ (exists k,
       conns (state_after DoneChannel (request_reply DoneChannel)) !! 0%nat = Some k
       /\ log k
          = prelude DoneChannel ++ spawned
              ++ [Copied ClientToTarget 5; CopyReturned ClientToTarget 5 false;
                  CloseWrite TargetConn; Completed ClientToTarget;
                  Copied TargetToClient 7; Copied TargetToClient 4;
                  CopyReturned TargetToClient 11 false;
                  CloseWrite ClientConn; Completed TargetToClient;
                  Close ClientConn; Close TargetConn;
                  AddTotalBytes 16; AddActiveConns (-1)]
       /\ (forall before s after,
             log k = before ++ Close s :: after ->
             In (Dialed true) before ->
             In (Completed ClientToTarget) before /\ In (Completed TargetToClient) before)
       /\ (forall d, dir_marks d (log k) = marks_at (dir_pc d k))).
Proof.
  split.
  - assert (Hrun : run WaitGroup (half_way WaitGroup) boot
                   = Some (state_after WaitGroup (half_way WaitGroup)))
      by (vm_compute; reflexivity).
    assert (Hk : conns (state_after WaitGroup (half_way WaitGroup)) !! 0%nat
                 = Some (default accepted
                           (conns (state_after WaitGroup (half_way WaitGroup)) !! 0%nat)))
      by (vm_compute; reflexivity).
    destruct (close_waits_for_both_directions WaitGroup (half_way WaitGroup)
                _ 0 _ Hrun Hk) as (H1 & _).
    destruct (H1 ClientToTarget 5%Z false eq_refl)
      as (k1 & k2 & Hret & Hdir & Hlog & Hfin & Hsig & Hother & Hmain).
    eexists _, k1, k2. split; [vm_compute; reflexivity|].
    split; [reflexivity|]. split; [reflexivity|].
    split; [exact Hret|]. split; [exact Hdir|]. split; [exact Hlog|].
    split; [exact Hfin|]. split; [exact Hsig|]. split; [exact Hother | exact Hmain].
  - assert (Hrun : run DoneChannel (request_reply DoneChannel) boot
                   = Some (state_after DoneChannel (request_reply DoneChannel)))
      by (vm_compute; reflexivity).
    eexists. split; [vm_compute; reflexivity|]. split; [reflexivity|].
    match goal with
    | |- context [log ?k] =>
        pose proof (close_waits_for_both_directions DoneChannel
                      (request_reply DoneChannel) _ 0 k Hrun eq_refl)
          as (_ & _ & H3 & _ & H5 & _)
    end.
    split; [exact H3|]. intros d. exact (proj1 (H5 d)).
Defined.


Lemma totalBytes_is_the_sum_three_clients :
  let p := state_after WaitGroup (three_clients WaitGroup) in
  (sumZ (map transferred (conns p)) = 187)%Z
  /\ map recorded (conns p) = [23; 164; 0]%Z
  /\ totalBytes (counters p) = 187%Z
  /\ totalBytes (counters p)
     = sumZ (map (fun k => if settled k then recorded k else 0%Z) (conns p)).
Proof.
  intros p.
  assert (Hrun : run WaitGroup (three_clients WaitGroup) boot = Some p)
    by (vm_compute; reflexivity).
  split; [vm_compute; reflexivity|]. split; [vm_compute; reflexivity|].
  split; [vm_compute; reflexivity|].
  refine (proj2 (proj2 (totalBytes_is_the_sum_over_settled_connections WaitGroup
                          (three_clients WaitGroup) p Hrun) _)).
  vm_compute. reflexivity.
Defined.

End ProxyFacts.

(** ** The client over a whole session *)

Module SessionFacts.
Import Js Client ClientFacts.
Local Open Scope js_scope.

(** *** Registrations *)

Lemma off_eq (event : string) (cb : Handler) (s : Sys) :
  inherited event = false ->
  off event cb s
  = (Normal tt,
     match listeners (client s) !! event with
     | Some callbacks =>
         mkSys (set_listeners
                  (<[event := filter (fun h => hid h ≠ hid cb) callbacks]>
                     (listeners (client s)))
                  (client s))
               (world s)
     | None => s
     end,
     []).
Proof.
  intros Hev. unfold off, slot. cbv beta iota delta [bind this update ret].
  rewrite Hev. destruct s as [c w]. cbn.
  destruct (listeners c !! event) as [l|] eqn:Hl; reflexivity.
Qed.

(** [off] removes every registration of the callback under the event,
    however often it was registered, keeps the other callbacks in their
    order and leaves the other events alone; [emit] then calls exactly
    the callbacks that are left, the removed one never. *)
Theorem off_removes_every_registration (s : Sys) (event : string) (cb : Handler) :
  inherited event = false ->
  exists s',
    off event cb s = (Normal tt, s', [])
    /\ world s' = world s
    /\ handlers_of s' event = filter (fun h => hid h ≠ hid cb) (handlers_of s event)
    /\ (forall e, e ≠ event -> handlers_of s' e = handlers_of s e)
    /\ (forall data,
          emit event data s'
          = (Normal tt, s',
             EEmit event data
               :: map (fun h => ECall (hid h) data)
                      (filter (fun h => hid h ≠ hid cb) (handlers_of s event)))
          /\ ~ In (ECall (hid cb) data) (snd (emit event data s'))).
Proof.
  intros Hev. rewrite off_eq by exact Hev. eexists. split; [reflexivity|].
  assert (Hh : handlers_of
                 match listeners (client s) !! event with
                 | Some callbacks =>
                     mkSys (set_listeners
                              (<[event := filter (fun h => hid h ≠ hid cb) callbacks]>
                                 (listeners (client s)))
                              (client s))
                           (world s)
                 | None => s
                 end event
               = filter (fun h => hid h ≠ hid cb) (handlers_of s event)).
  { unfold handlers_of. destruct (listeners (client s) !! event) as [l|] eqn:Hl; cbn.
    - rewrite lookup_insert_eq. reflexivity.
    - rewrite Hl. reflexivity. }
  split; [destruct (listeners (client s) !! event); reflexivity|].
  split; [exact Hh|].
  split.
  - intros e He. unfold handlers_of.
    destruct (listeners (client s) !! event) as [l|] eqn:Hl; cbn; [|reflexivity].
    rewrite lookup_insert_ne by congruence. reflexivity.
  - intros data. rewrite emit_eq by exact Hev. unfold calls_of. rewrite Hh.
    split; [reflexivity|]. cbn [snd]. intros [Hin|Hin]; [discriminate|].
    apply in_map_iff in Hin. destruct Hin as (h & Heq & Hin).
    apply list_elem_of_In, list_elem_of_filter in Hin. destruct Hin as [Hne _].
    congruence.
Qed.

(** *** Status *)

(** [getStatus] tells what the outbound helpers will do: it is
    "authenticated" exactly when [isReady] holds, it is "connected" or
    "authenticated" exactly when [send] writes the message to the socket
    and returns [true], and with any other status [send] returns [false]
    and does nothing.  It is never "unknown". *)
Theorem getStatus_tells_whether_send_works (s : Sys) (message : envelope) :
  (getStatus s = "authenticated" <-> isReady s = true)
  /\ (getStatus s = "connected" \/ getStatus s = "authenticated"
      <-> exists id, send message s = (Normal true, s, [EWsSend id message]))
  /\ (getStatus s = "disconnected" \/ getStatus s = "connecting" \/ getStatus s = "closing"
      <-> send message s = (Normal false, s, []))
  /\ getStatus s <> "unknown".
Proof.
  rewrite send_eq. unfold getStatus, isReady, open_socket.
  destruct (ws (client s)) as [id|]; [|cbn; intuition (try discriminate); destruct H; discriminate].
  destruct (default CLOSED (sockets (world s) !! id)); cbn [ReadyState_eqb andb];
    try destruct (authenticated (client s));
    repeat split; intros; try discriminate; try reflexivity; eauto;
    repeat match goal with
           | H : _ \/ _ |- _ => destruct H
           | H : exists _, _ |- _ => destruct H
           end; try discriminate; auto.
Qed.

(** *** Retries over a whole session *)

Lemma spec_delay_bounds (n : Z) :
  (1 <= n)%Z -> (1000 <= spec_delay n /\ spec_delay n <= 30000)%Q.
Proof.
  intros Hn. unfold spec_delay. split; [|apply Q.le_min_r].
  apply Q.min_glb; [|vm_compute; discriminate].
  apply Qle_trans with (1000 * 1.5 ^ 0)%Q; [vm_compute; discriminate|].
  apply Qmult_le_l; [reflexivity|].
  apply Qpower_le_compat_l; [lia|]. vm_compute. discriminate.
Qed.

Lemma step_open_quiet (id : nat) (s : Sys) (r : completion unit) (s' : Sys) (t : list Effect) :
  step (WsOpen id) s = Some (r, s', t) ->
  reconnectDelay (client s') = 1000%Q
  /\ maxReconnectDelay (client s') = maxReconnectDelay (client s)
  /\ connectionAttempts (client s') = 0%Z
  /\ retries t = [] /\ timeouts t = [].
Proof.
  intros Hst. destruct s as [c w]. cbn [step] in Hst.
  revert Hst; js_cases; intros Hst; simplify_eq; js_unfold.
  all: trace_simpl; repeat split; reflexivity.
Qed.

Lemma step_session (i : Input) (s : Sys) (r : completion unit) (s' : Sys) (t : list Effect) :
  backoff_ok s ->
  step i s = Some (r, s', t) ->
  backoff_ok s' /\ Forall retry_ok (retries t) /\ timeouts t = map snd (retries t).
Proof.
  intros (Hd & Hm & Ha) Hst. destruct (is_open i) eqn:Hi.
  - destruct i; try discriminate.
    destruct (step_open_quiet _ _ _ _ _ Hst) as (Hd1 & Hm1 & Ha1 & -> & ->).
    split; [|split; [constructor | reflexivity]].
    unfold backoff_ok. rewrite Hd1, Hm1, Ha1. repeat split; [assumption | lia].
  - destruct (step_backoff _ _ _ _ _ Hi Hd Hm Hst) as (Hd1 & Hm1 & Hcase).
    destruct Hcase as [(-> & -> & Ha1) | (-> & -> & Ha1)].
    + split; [|split; [constructor | reflexivity]].
      unfold backoff_ok. rewrite Ha1. auto.
    + split; [unfold backoff_ok; rewrite Ha1; repeat split; [assumption..|lia]|].
      split; [|reflexivity]. constructor; [|constructor].
      split; cbn [fst snd]; [lia | reflexivity].
Qed.

Lemma run_session (inputs : list Input) (s s' : Sys) (t : list Effect) :
  backoff_ok s ->
  run inputs s = Some (s', t) ->
  backoff_ok s' /\ Forall retry_ok (retries t) /\ timeouts t = map snd (retries t).
Proof.
  revert s s' t. induction inputs as [|i inputs IH]; intros s s' t Hs Hrun.
  - cbn in Hrun. simplify_eq. split; [assumption|]. split; [constructor | reflexivity].
  - cbn [run] in Hrun.
    destruct (step i s) as [[[r s1] t1]|] eqn:Hst; [|discriminate].
    destruct (run inputs s1) as [[s2 t2]|] eqn:Hr; [|discriminate].
    simplify_eq.
    destruct (step_session _ _ _ _ _ Hs Hst) as (Hs1 & Hr1 & Ht1).
    destruct (IH _ _ _ Hs1 Hr) as (Hs2 & Hr2 & Ht2).
    split; [assumption|]. rewrite retries_app, timeouts_app, map_app, Ht1, Ht2.
    split; [apply Forall_app_2; assumption | reflexivity].
Qed.

(** Over a whole session of a client that was made by the constructor,
    whatever the application and the network do (opens, closes, errors,
    messages, calls of [connect] and [disconnect] in any order): every
    retry is announced with an attempt number n >= 1 and the delay
    min(1000 * 1.5^(n-1), 30000), its timeout is set to that same delay,
    and every delay lies between 1000 and 30000 ms; [reconnectDelay] and
    [maxReconnectDelay] never change and [connectionAttempts] is never
    negative. *)
Theorem retry_delays_stay_between_base_and_cap
    (u : string) (reject_url : bool) (inputs : list Input) (s' : Sys) (t : list Effect) :
  run inputs (boot u reject_url) = Some (s', t) ->
  Forall (fun r => (1 <= fst r)%Z /\ snd r = spec_delay (fst r)) (retries t)
  /\ timeouts t = map snd (retries t)
  /\ Forall (fun d => (1000 <= d /\ d <= 30000)%Q) (timeouts t)
  /\ reconnectDelay (client s') = 1000%Q
  /\ maxReconnectDelay (client s') = 30000%Q
  /\ (0 <= connectionAttempts (client s'))%Z.
Proof.
  intros Hrun.
  destruct (run_session inputs (boot u reject_url) s' t) as ((Hd & Hm & Ha) & Hr & Ht).
  { repeat split. cbn. lia. }
  { exact Hrun. }
  split; [exact Hr|]. split; [exact Ht|]. split; [|auto].
  rewrite Ht. apply Forall_map. eapply Forall_impl; [exact Hr|].
  intros [n d] [Hn Hdel]. cbn [fst snd] in *. subst d. apply spec_delay_bounds, Hn.
Qed.

(** *** A URL the browser rejects *)

Lemma step_rejected (i : Input) (s : Sys) (r : completion unit) (s' : Sys) (t : list Effect) :
  rejected s ->
  step i s = Some (r, s', t) ->
  rejected s' /\ world s' = world s /\ emitted t = reports i
  /\ Forall (fun e => schedules_retry e = false) t /\ from_browser i = false.
Proof.
  intros (Hc & Hs & Ht & Hw) Hst. destruct s as [c [so ti ct]]. cbn in Hc, Hs, Ht, Hw. subst.
  destruct i; cbn [step world sockets timers] in Hst; try discriminate.
  all: try (destruct (ws c) eqn:Hwc; [discriminate|]).
  all: revert Hst; js_cases; intros Hst; simplify_eq; js_unfold.
  all: unfold rejected, reports; cbn; trace_simpl.
  all: repeat split; try assumption; try reflexivity; quiet.
Qed.

(** When [new WebSocket(url)] throws for the client's URL, every call of
    [connect] reports one [error] event and that is all that ever
    happens: no socket exists, so the browser has no event to deliver,
    no retry is announced, no timeout is set, and [this.ws] stays unset. *)
Theorem rejected_url_is_reported_and_never_retried
    (u : string) (inputs : list Input) (s' : Sys) (t : list Effect) :
  run inputs (boot u true) = Some (s', t) ->
  emitted t = flat_map reports inputs
  /\ Forall (fun e => schedules_retry e = false) t
  /\ Forall (fun i => from_browser i = false) inputs
  /\ world s' = world (boot u true)
  /\ ws (client s') = None.
Proof.
  assert (H : forall inputs s s' t,
             rejected s -> run inputs s = Some (s', t) ->
             emitted t = flat_map reports inputs
             /\ Forall (fun e => schedules_retry e = false) t
             /\ Forall (fun i => from_browser i = false) inputs
             /\ world s' = world s /\ ws (client s') = None).
  { clear. induction inputs as [|i inputs IH]; intros s s' t Hs Hrun.
    - cbn in Hrun. simplify_eq. destruct Hs as (_ & _ & _ & Hw). repeat split; auto.
    - cbn [run] in Hrun.
      destruct (step i s) as [[[r s1] t1]|] eqn:Hst; [|discriminate].
      destruct (run inputs s1) as [[s2 t2]|] eqn:Hr; [|discriminate].
      simplify_eq.
      destruct (step_rejected _ _ _ _ _ Hs Hst) as (Hs1 & Hw1 & He1 & Hq1 & Hb1).
      destruct (IH _ _ _ Hs1 Hr) as (He2 & Hq2 & Hb2 & Hw2 & Hws).
      rewrite emitted_app, He1, He2. cbn [flat_map].
      repeat split; auto; [apply Forall_app_2; assumption | congruence]. }
  intros Hrun. apply (H inputs (boot u true)); [|exact Hrun].
  repeat split.
Qed.

(** *** Pending retries *)


(** A timeout that comes due while [shouldReconnect] is true and a
    non-empty token is stored constructs a new socket for the client's
    URL and makes it [this.ws], whether or not the client holds an open
    socket at that moment; the sockets constructed before keep their
    state (none is closed). *)
Theorem due_retry_connects_whatever_the_socket
    (s : Sys) (k : nat) (tok : string) :
  is_Some (timers (world s) !! k) ->
  shouldReconnect (client s) = true ->
  token (client s) = Some tok ->
  tok <> "" ->
  ctor_throws (world s) = false ->
  exists s',
    step (TimerFire k) s
    = Some (Normal tt, s', [ENewWebSocket (length (sockets (world s))) (url (client s))])
    /\ ws (client s') = Some (length (sockets (world s)))
    /\ sockets (world s') = sockets (world s) ++ [CONNECTING]
    /\ timers (world s') = delete k (timers (world s))
    /\ authenticated (client s') = authenticated (client s)
    /\ connectionAttempts (client s') = connectionAttempts (client s).
Proof.
  intros [d Hd] Hs Htok Hne Hc. destruct s as [c w]. cbn in *.
  cbn [step world]. rewrite Hd.
  assert (Heq : String.eqb tok "" = false) by (apply String.eqb_neq; exact Hne).
  js_cases; cbn in *; simplify_eq; try congruence.
  all: try (rewrite Hs, Heq in *; discriminate).
  eexists. split; [reflexivity|]. cbn. repeat split.
Qed.

(** *** Leaving *)

Lemma detached (s : Sys) :
  ws (client s) = None ->
  getStatus s = "disconnected"
  /\ isReady s = false
  /\ (forall message, send message s = (Normal false, s, []))
  /\ (forall again, exists s',
        disconnect again s = (Normal tt, s', []) /\ world s' = world s).
Proof.
  intros Hws. split; [unfold getStatus; rewrite Hws; reflexivity|].
  split; [unfold isReady; rewrite Hws; reflexivity|].
  split.
  - intros message. rewrite send_eq. unfold open_socket. rewrite Hws. reflexivity.
  - intros again. destruct s as [c w]. cbn in Hws. js_unfold. rewrite Hws.
    eexists. split; reflexivity.
Qed.

Lemma disconnect_eq (permanent : bool) (s : Sys) :
  exists w',
    disconnect permanent s
    = (Normal tt,
       mkSys (set_ws None (set_shouldReconnect (negb permanent) (client s))) w',
       match ws (client s) with
       | Some id => [EWsClose id 1000 "Client disconnecting"]
       | None => []
       end)
    /\ timers w' = timers (world s).
Proof.
  destruct s as [c w]. cbn [client world].
  destruct (ws c) as [id|] eqn:Hws; js_unfold; rewrite Hws; js_unfold.
  - destruct (default CLOSED (sockets w !! id)); js_unfold; eexists; split; reflexivity.
  - exists w. split; [|reflexivity]. destruct c; cbn in *. subst. reflexivity.
Qed.

(** [disconnect(permanent)] closes the socket the client holds, with code
    1000 and reason "Client disconnecting", and forgets it; without a
    socket it only assigns [shouldReconnect].  Afterwards the status is
    "disconnected", the session is not ready, every send returns [false]
    and writes nothing, and calling [disconnect] again closes nothing.
    [authenticated] is left as it was: it is the close event that clears
    it. *)
Theorem disconnect_detaches_the_socket (s : Sys) (permanent : bool) :
  exists s',
    disconnect permanent s
    = (Normal tt, s',
       match ws (client s) with
       | Some id => [EWsClose id 1000 "Client disconnecting"]
       | None => []
       end)
    /\ ws (client s') = None
    /\ shouldReconnect (client s') = negb permanent
    /\ authenticated (client s') = authenticated (client s)
    /\ timers (world s') = timers (world s)
    /\ getStatus s' = "disconnected"
    /\ isReady s' = false
    /\ (forall message, send message s' = (Normal false, s', []))
    /\ (forall again, exists s'',
          disconnect again s' = (Normal tt, s'', [])
          /\ world s'' = world s').
Proof.
  destruct (disconnect_eq permanent s) as (w' & Heq & Ht).
  eexists. split; [exact Heq|].
  split; [reflexivity|]. split; [reflexivity|]. split; [reflexivity|].
  split; [exact Ht|]. apply detached. reflexivity.
Qed.

(** *** Authentication *)

Lemma strict_eq_str_true (v : jsval) (lit : string) :
  strict_eq_str v lit = true -> v = Some (JStr lit).
Proof.
  destruct v as [[]|]; cbn; try discriminate.
  intros H. apply String.eqb_eq in H. congruence.
Qed.

(** [authenticated] becomes true in one way only: an open socket of the
    client delivers an object whose [type] is "auth_response" and whose
    [status] is "ok"; that turn emits [authenticated] with the identity
    fields of the message.  No call of the application and no other
    event sets it. *)
Theorem authenticated_only_by_an_accepted_auth_response
    (i : Input) (s : Sys) (r : completion unit) (s' : Sys) (t : list Effect) :
  step i s = Some (r, s', t) ->
  authenticated (client s) = false ->
  authenticated (client s') = true ->
  exists id fields,
    i = WsMessage id (Some (JObj fields))
    /\ sockets (world s) !! id = Some OPEN
    /\ assoc "type" fields = Some (JStr "auth_response")
    /\ assoc "status" fields = Some (JStr "ok")
    /\ In ("authenticated", PIdentity (assoc "user_id" fields) (assoc "username" fields))
          (emitted t).
Proof.
  intros Hst Hbefore Hafter. destruct s as [c w]. cbn in Hbefore.
  destruct i; cbn [step] in Hst.
  all: revert Hst; js_cases; intros Hst; simplify_eq; cbn in Hafter; try congruence.
  all: repeat match goal with
              | H : strict_eq_str _ _ = true |- _ => apply strict_eq_str_true in H
              end.
  all: eexists _, _; (split; [reflexivity|]); (split; [eassumption|]).
  all: (split; [assumption|]); (split; [assumption|]).
  all: trace_simpl; left; reflexivity.
Qed.

(** *** The statements above at concrete sessions *)

Lemma off_removes_every_registration_registered_twice :
  map hid (handlers_of twice_registered "text") = [1; 2; 1]%nat
  /\ exists s',
      off "text" (returning 1) twice_registered = (Normal tt, s', [])
      /\ world s' = world twice_registered
      /\ handlers_of s' "text"
         = filter (fun h => hid h ≠ hid (returning 1)) (handlers_of twice_registered "text")
      /\ (forall e, e ≠ "text" -> handlers_of s' e = handlers_of twice_registered e)
      /\ (forall data,
            emit "text" data s'
            = (Normal tt, s',
               EEmit "text" data
                 :: map (fun h => ECall (hid h) data)
                        (filter (fun h => hid h ≠ hid (returning 1))
                                (handlers_of twice_registered "text")))
            /\ ~ In (ECall (hid (returning 1)) data) (snd (emit "text" data s'))).
Proof.
  split; [reflexivity|].
  apply (off_removes_every_registration twice_registered "text" (returning 1)).
  reflexivity.
Defined.

Lemma retry_delays_stay_between_base_and_cap_ten_failures :
  exists s' t,
    run (Connect "tok" :: failures 10) (boot "ws://bridge:8765" false) = Some (s', t)
    /\ length (timeouts t) = 10%nat
    /\ Forall (fun r => (1 <= fst r)%Z /\ snd r = spec_delay (fst r)) (retries t)
    /\ timeouts t = map snd (retries t)
    /\ Forall (fun d => (1000 <= d /\ d <= 30000)%Q) (timeouts t)
    /\ reconnectDelay (client s') = 1000%Q
    /\ maxReconnectDelay (client s') = 30000%Q
    /\ (0 <= connectionAttempts (client s'))%Z.
Proof.
  eexists _, _. split; [vm_compute; reflexivity|].
  split; [vm_compute; reflexivity|].
  eapply (retry_delays_stay_between_base_and_cap
            "ws://bridge:8765" false (Connect "tok" :: failures 10)).
  vm_compute. reflexivity.
Defined.

Lemma rejected_url_is_reported_and_never_retried_two_attempts :
  exists s' t,
    run [Connect "tok"; SendText "hello"; Connect "tok"; Disconnect false]
        (boot "bridge:8765" true) = Some (s', t)
    /\ emitted t = flat_map reports
                     [Connect "tok"; SendText "hello"; Connect "tok"; Disconnect false]
    /\ Forall (fun e => schedules_retry e = false) t
    /\ Forall (fun i => from_browser i = false)
              [Connect "tok"; SendText "hello"; Connect "tok"; Disconnect false]
    /\ world s' = world (boot "bridge:8765" true)
    /\ ws (client s') = None.
Proof.
  eexists _, _. split; [vm_compute; reflexivity|].
  eapply (rejected_url_is_reported_and_never_retried "bridge:8765"
            [Connect "tok"; SendText "hello"; Connect "tok"; Disconnect false]).
  vm_compute. reflexivity.
Defined.


Lemma due_retry_connects_whatever_the_socket_while_open :
  open_socket retry_pending = Some 1%nat
  /\ exists s',
      step (TimerFire 0) retry_pending
      = Some (Normal tt, s',
              [ENewWebSocket (length (sockets (world retry_pending)))
                             (url (client retry_pending))])
      /\ ws (client s') = Some (length (sockets (world retry_pending)))
      /\ sockets (world s') = sockets (world retry_pending) ++ [CONNECTING]
      /\ timers (world s') = delete 0%nat (timers (world retry_pending))
      /\ authenticated (client s') = authenticated (client retry_pending)
      /\ connectionAttempts (client s') = connectionAttempts (client retry_pending).
Proof.
  split; [reflexivity|].
  apply (due_retry_connects_whatever_the_socket retry_pending 0 "tok").
  - vm_compute. eauto.
  - reflexivity.
  - reflexivity.
  - discriminate.
  - reflexivity.
Defined.

Lemma authenticated_only_by_an_accepted_auth_response_acceptance :
  exists r s' t,
    step (WsMessage 0 (Some acceptance)) awaiting_auth = Some (r, s', t)
    /\ authenticated (client awaiting_auth) = false
    /\ authenticated (client s') = true
    /\ exists id fields,
        WsMessage 0 (Some acceptance) = WsMessage id (Some (JObj fields))
        /\ sockets (world awaiting_auth) !! id = Some OPEN
        /\ assoc "type" fields = Some (JStr "auth_response")
        /\ assoc "status" fields = Some (JStr "ok")
        /\ In ("authenticated",
               PIdentity (assoc "user_id" fields) (assoc "username" fields))
              (emitted t).
Proof.
  eexists _, _, _. split; [vm_compute; reflexivity|].
  split; [reflexivity|]. split; [reflexivity|].
  eapply (authenticated_only_by_an_accepted_auth_response
            (WsMessage 0 (Some acceptance)) awaiting_auth).
  - vm_compute. reflexivity.
  - reflexivity.
  - reflexivity.
Defined.

Lemma step_normal_hostile_listeners :
  exists r s' t,
    step (WsMessage 0 (Some (JObj [("type", JStr "text"); ("message", JStr "hi")])))
         hostile_listeners = Some (r, s', t)
    /\ t = [EEmit "text" (PJson (JObj [("type", JStr "text"); ("message", JStr "hi")]));
            ECall 1 (PJson (JObj [("type", JStr "text"); ("message", JStr "hi")]));
            ECall 2 (PJson (JObj [("type", JStr "text"); ("message", JStr "hi")]))]
    /\ r = Normal tt.
Proof.
  eexists _, _, _. split; [vm_compute; reflexivity|].
  split; [reflexivity|].
  eapply (step_normal
            (WsMessage 0 (Some (JObj [("type", JStr "text"); ("message", JStr "hi")])))
            hostile_listeners).
  - reflexivity.
  - vm_compute. reflexivity.
Defined.

End SessionFacts.

(** ** The handler from accept to return *)

Module HandlerFacts.
Import Proxy ProxyFacts.

(** *** Never stuck *)

Lemma enabled_own (v : Version) (p : Proxy) (c : nat) (k : Conn) :
  Inv v k ->
  conns p !! c = Some k ->
  main k <> Returned ->
  awaits_network k = false ->
  exists a, own_statement a = true /\ is_Some (step v (On c a) p).
Proof.
  intros HI Hk Hret Hnet.
  pose proof (inv_control v k HI) as Hc.
  assert (Hgo : forall a, is_Some (conn_step v a k (counters p)) ->
                          is_Some (step v (On c a) p)).
  { intros a [[k' g'] Ha]. cbn [step]. rewrite Hk, Ha. eauto. }
  unfold awaits_network in Hnet. unfold control in Hc.
  destruct (main k) eqn:Hm; try discriminate; try congruence.
  all: try (exists RunMain; split; [reflexivity|]; apply Hgo; cbn [conn_step];
            unfold main_step; rewrite Hm; eauto; fail).
  (* AtWait *)
  destruct Hc as (_ & H1 & H2 & Hsync).
  destruct (c2t k) as [[n1|n1| | |]|] eqn:Hc1; try discriminate; try congruence.
  all: try (exists (RunDir ClientToTarget); split; [reflexivity|]; apply Hgo;
            cbn [conn_step]; unfold dir_step; cbn [dir_pc]; rewrite Hc1; cbn; eauto; fail).
  destruct (t2c k) as [[n2|n2| | |]|] eqn:Hc2; try discriminate; try congruence.
  all: try (exists (RunDir TargetToClient); split; [reflexivity|]; apply Hgo;
            cbn [conn_step]; unfold dir_step; cbn [dir_pc]; rewrite Hc2; cbn; eauto; fail).
  exists RunMain. split; [reflexivity|]. apply Hgo. cbn [conn_step].
  unfold main_step. rewrite Hm. unfold may_pass, in_sync, unfinished in *.
  rewrite Hc1, Hc2 in *. cbn in Hsync |- *.
  destruct v; rewrite Hsync; cbn; eauto.
Qed.

(** Every statement of the program brings the handler closer to its
    return, and nothing the network does takes it further away. *)
Lemma conn_step_rank (v : Version) (a : ConnAction) (k k' : Conn) (g g' : Counters) :
  Inv v k -> conn_step v a k g = Some (k', g') ->
  (rank k' <= rank k)%nat /\ (own_statement a = true -> (rank k' < rank k)%nat).
Proof.
  intros HI Hstep. pose proof (inv_control v k HI) as Hc.
  unfold control, idle in Hc. unfold rank.
  destruct a as [|d|ok|d n|d err]; cbn [conn_step own_statement] in *.
  - unfold main_step in Hstep.
    destruct (main k) as [ | | | | s o | | | | | | | | | ] eqn:Hm; simplify_eq.
    all: try (destruct (may_pass v k); simplify_eq).
    all: try (destruct s, o); try (destruct v); split_hyps; conn_simpl.
    all: repeat match goal with H : _ = None |- _ => rewrite H end.
    all: cbn; (split; [|intros _]; lia).
  - unfold keeping, dir_step in Hstep.
    destruct d; cbn [dir_pc] in Hstep;
      match type of Hstep with
      | context [match ?pc with _ => _ end] => destruct pc as [[| | | |]|] eqn:Hd
      end; simplify_eq; destruct v; conn_simpl; cbn; (split; [|intros _]; lia).
  - unfold keeping, dial_returns in Hstep.
    destruct (main k) eqn:Hm; simplify_eq. destruct ok, v; conn_simpl; cbn;
      split; try discriminate; lia.
  - unfold keeping, copies in Hstep.
    destruct d; cbn [dir_pc] in Hstep;
      match type of Hstep with
      | context [match ?pc with _ => _ end] => destruct pc as [[| | | |]|] eqn:Hd
      end; simplify_eq; destruct (0 <? n)%Z; simplify_eq; conn_simpl; cbn;
      split; try discriminate; lia.
  - unfold keeping, copy_returns in Hstep.
    destruct d; cbn [dir_pc] in Hstep;
      match type of Hstep with
      | context [match ?pc with _ => _ end] => destruct pc as [[| | | |]|] eqn:Hd
      end; simplify_eq; conn_simpl; cbn; split; try discriminate; lia.
Qed.

Lemma step_rank (v : Version) (a : Action) (p p' : Proxy) (c : nat) :
  Forall (Inv v) (conns p) -> step v a p = Some p' ->
  (rank_at c p' + own_steps c [a] <= rank_at c p)%nat.
Proof.
  intros Hall Hstep. unfold rank_at. destruct a as [|c' a]; cbn [step own_steps] in *.
  - simplify_eq. cbn [conns].
    destruct (conns p !! c) as [k|] eqn:Hk.
    + rewrite (lookup_app_l_Some _ _ _ _ Hk). lia.
    + apply lookup_ge_None in Hk.
      destruct (decide (c = length (conns p))) as [->|Hne].
      * rewrite list_lookup_middle by reflexivity. lia.
      * rewrite lookup_ge_None_2 by (rewrite length_app; cbn; lia). lia.
  - destruct (conns p !! c') as [k|] eqn:Hk; [|discriminate].
    destruct (conn_step v a k (counters p)) as [[k' g']|] eqn:Hc; [|discriminate].
    simplify_eq. cbn [conns].
    assert (HI : Inv v k) by (eapply Forall_lookup_1; eassumption).
    destruct (conn_step_rank _ _ _ _ _ _ HI Hc) as [Hle Hlt].
    destruct (Nat.eqb_spec c c') as [->|Hne]; cbn [andb].
    + rewrite list_lookup_insert_eq by (eapply lookup_lt_Some; eassumption).
      rewrite Hk. destruct (own_statement a); [specialize (Hlt eq_refl)|]; lia.
    + rewrite list_lookup_insert_ne by congruence. lia.
Qed.

Lemma own_steps_cons (c : nat) (a : Action) (rest : list Action) :
  own_steps c (a :: rest) = (own_steps c [a] + own_steps c rest)%nat.
Proof. destruct a; cbn; lia. Qed.

Lemma run_rank (v : Version) (schedule : list Action) (p p' : Proxy) (c : nat) :
  Forall (Inv v) (conns p) -> run v schedule p = Some p' ->
  (rank_at c p' + own_steps c schedule <= rank_at c p)%nat.
Proof.
  revert p. induction schedule as [|a rest IH]; intros p Hall Hrun; cbn [run] in Hrun.
  - simplify_eq. cbn. lia.
  - destruct (step v a p) as [p1|] eqn:Hstep; [|discriminate].
    pose proof (step_rank v a p p1 c Hall Hstep) as H1.
    pose proof (IH p1 (step_inv _ _ _ _ Hall Hstep) Hrun) as H2.
    rewrite own_steps_cons. lia.
Qed.

Lemma own_step_keeps_network_done (v : Version) (a : ConnAction) (k k' : Conn)
    (g g' : Counters) :
  own_statement a = true ->
  network_done k = true ->
  conn_step v a k g = Some (k', g') ->
  network_done k' = true.
Proof.
  intros Ha Hnd Hstep. unfold network_done, awaits_network in *.
  destruct a as [|d| | |]; try discriminate; cbn [conn_step] in Hstep.
  - unfold main_step in Hstep.
    destruct (main k) eqn:Hm; try discriminate; simplify_eq.
    all: try (destruct (may_pass v k); simplify_eq).
    all: conn_simpl; try rewrite Hm in *; try assumption.
  - unfold keeping, dir_step in Hstep.
    destruct d; cbn [dir_pc] in Hstep;
      match type of Hstep with
      | context [match ?pc with _ => _ end] => destruct pc as [[| | | |]|] eqn:Hd
      end; simplify_eq; destruct v; conn_simpl;
      destruct (main k); try discriminate;
      repeat match goal with
             | H : context [match ?x with _ => _ end] |- _ => destruct x as [[| | | |]|]
             end; try discriminate; reflexivity.
Qed.

(** Left to itself, the handler runs on until it returns or has to wait
    for the network again. *)
Lemma own_run_to_end (v : Version) (c : nat) (n : nat) :
  forall (p : Proxy) (k : Conn),
    (rank k <= n)%nat ->
    Forall (Inv v) (conns p) ->
    conns p !! c = Some k ->
    exists own p' k',
      Forall (fun a => own_statement a = true) own
      /\ run v (map (On c) own) p = Some p'
      /\ conns p' !! c = Some k'
      /\ (main k' = Returned \/ awaits_network k' = true)
      /\ (network_done k = true -> main k' = Returned)
      /\ (length own <= rank k)%nat.
Proof.
  induction n as [|n IH]; intros p k Hn Hall Hk.
  all: assert (HI : Inv v k) by (eapply Forall_lookup_1; eassumption).
  all: assert (Hdec : main k = Returned \/ main k <> Returned)
    by (destruct (main k); auto; right; discriminate).
  all: destruct Hdec as [Hret | Hret];
    [exists [], p, k; cbn; repeat split; auto; lia|].
  all: destruct (awaits_network k) eqn:Hnet;
    [exists [], p, k; cbn; repeat split; auto; try lia;
     unfold network_done; rewrite Hnet; destruct (main k); discriminate|].
  all: destruct (enabled_own v p c k HI Hk Hret Hnet) as (a & Ha & [p1 Hstep]).
  all: pose proof Hstep as Hstep'; cbn [step] in Hstep'; rewrite Hk in Hstep'.
  all: destruct (conn_step v a k (counters p)) as [[k1 g1]|] eqn:Hc; [|discriminate].
  all: destruct (conn_step_rank _ _ _ _ _ _ HI Hc) as [_ Hlt]; specialize (Hlt Ha).
  - lia.
  - simplify_eq.
    assert (Hk1 : conns (mkProxy g1 (<[c := k1]> (conns p))) !! c = Some k1).
    { cbn. apply list_lookup_insert_eq. eapply lookup_lt_Some; eassumption. }
    destruct (IH _ k1 ltac:(lia) (step_inv _ _ _ _ Hall Hstep) Hk1)
      as (own & p' & k' & Hown & Hrun & Hk' & Hend & Hdone & Hlen).
    exists (a :: own), p', k'. split; [constructor; assumption|].
    split; [cbn [map run]; rewrite Hstep; exact Hrun|].
    split; [exact Hk'|]. split; [exact Hend|]. split.
    + intros Hnd. apply Hdone. eapply own_step_keeps_network_done; eassumption.
    + cbn [length]. lia.
Qed.

(** In either version and under every interleaving: a handler that has
    not returned and is not waiting for the network (its dial has
    returned, no copy is running) has a statement it can run, in its own
    goroutine or in one of its directions; a handler runs at most 23
    statements of its own from accept to return, every one of them
    bringing it closer to its return; and left to itself it runs on
    until it returns or has to wait for the network again, and to its
    return once the network has nothing more for it (its dial failed, or
    both its copies returned): [wg.Wait()] and [<-done] never block for
    good. *)
Theorem handler_waits_only_for_the_network
    (v : Version) (schedule : list Action) (p : Proxy) (c : nat) (k : Conn) :
  run v schedule boot = Some p ->
  conns p !! c = Some k ->
  (main k <> Returned -> awaits_network k = false ->
   exists a, own_statement a = true /\ is_Some (step v (On c a) p))
  /\ (own_steps c schedule + rank k <= 23)%nat
  /\ (forall a p' k', step v (On c a) p = Some p' -> conns p' !! c = Some k' ->
        (rank k' <= rank k)%nat /\ (own_statement a = true -> (rank k' < rank k)%nat))
  /\ (exists own p' k',
        Forall (fun a => own_statement a = true) own
        /\ run v (map (On c) own) p = Some p'
        /\ conns p' !! c = Some k'
        /\ (main k' = Returned \/ awaits_network k' = true)
        /\ (network_done k = true -> main k' = Returned)
        /\ (length own <= rank k)%nat).
Proof.
  intros Hrun Hk.
  assert (Hall : Forall (Inv v) (conns p)).
  { eapply run_inv; [|eassumption]. constructor. }
  assert (HI : Inv v k) by (eapply Forall_lookup_1; eassumption).
  split; [apply (enabled_own v p c k HI Hk)|]. split; [|split].
  - pose proof (run_rank v schedule boot p c ltac:(constructor) Hrun) as H.
    unfold rank_at in H. rewrite Hk in H.
    change (conns boot) with (@nil Conn) in H. rewrite lookup_nil in H.
    change (rank accepted) with 23%nat in H. lia.
  - intros a p' k' Hstep Hk'. cbn [step] in Hstep. rewrite Hk in Hstep.
    destruct (conn_step v a k (counters p)) as [[k1 g1]|] eqn:Hc; [|discriminate].
    simplify_eq. cbn in Hk'.
    rewrite list_lookup_insert_eq in Hk' by (eapply lookup_lt_Some; eassumption).
    simplify_eq. eapply conn_step_rank; eassumption.
  - apply (own_run_to_end v c (rank k) p k); auto.
Qed.

(** *** What the counters count *)

Lemma share_count (share : Conn -> Z) (f : Conn -> bool) (l : list Conn) :
  (forall k, share k = if f k then 1%Z else 0%Z) ->
  sumZ (map share l) = count f l.
Proof.
  intros Hs. unfold count, sumZ. induction l as [|k l IH]; [reflexivity|].
  cbn [map foldr List.filter]. rewrite IH, Hs.
  destruct (f k); cbn [length]; lia.
Qed.

Lemma count_le (f : Conn -> bool) (l : list Conn) :
  (0 <= count f l <= Z.of_nat (length l))%Z.
Proof.
  unfold count. pose proof (List.filter_length_le f l). lia.
Qed.

Lemma count_mono (f h : Conn -> bool) (l : list Conn) :
  (forall k, f k = true -> h k = true) -> (count f l <= count h l)%Z.
Proof.
  intros Hfh. unfold count. induction l as [|k l IH]; [reflexivity|].
  cbn [List.filter]. destruct (f k) eqn:Hf.
  - rewrite (Hfh k Hf). cbn [length]. lia.
  - destruct (h k); cbn [length]; lia.
Qed.

(** In either version and under every interleaving, as long as fewer
    than 2^63 connections were accepted: [totalConns] is the number of
    handlers that have taken their number, [activeConns] is the number
    of handlers between their increment and their deferred decrement,
    and so 0 <= [activeConns] <= [totalConns] <= accepted connections. *)
Theorem counters_count_the_handlers
    (v : Version) (schedule : list Action) (p : Proxy) :
  run v schedule boot = Some p ->
  (Z.of_nat (length (conns p)) < 2 ^ 63)%Z ->
  totalConns (counters p) = count started (conns p)
  /\ activeConns (counters p) = count running (conns p)
  /\ (0 <= activeConns (counters p) <= totalConns (counters p))%Z
  /\ (totalConns (counters p) <= Z.of_nat (length (conns p)))%Z.
Proof.
  intros Hrun Hlen.
  assert (Hall : Forall (Inv v) (conns p)).
  { eapply run_inv; [|eassumption]. constructor. }
  assert (Hbal : balanced p).
  { eapply run_balanced; [|eassumption]. apply boot_balanced. }
  destruct (ledger_shares v p Hall Hbal) as (HT & HA & _).
  rewrite (share_count total_share started) in HT
    by (intros k; unfold total_share, started; destruct (main k); reflexivity).
  rewrite (share_count active_share running) in HA
    by (intros k; unfold active_share, running; destruct (main k); reflexivity).
  pose proof (count_le started (conns p)) as H1.
  pose proof (count_le running (conns p)) as H2.
  pose proof (count_mono running started (conns p)) as H3.
  rewrite wrap64_small in HT by lia. rewrite wrap64_small in HA by lia.
  rewrite HT, HA. split; [reflexivity|]. split; [reflexivity|].
  assert (count running (conns p) <= count started (conns p))%Z.
  { apply H3. intros k. unfold running, started. destruct (main k); auto. }
  lia.
Qed.

(** *** Closing *)







(** *** The statements above at concrete schedules *)

Lemma handler_waits_only_for_the_network_after_both_copies :
  exists k,
    conns (state_after WaitGroup (copies_returned WaitGroup)) !! 0%nat = Some k
    /\ main k = AtWait /\ wg k = 2%Z /\ network_done k = true
    /\ own_steps 0 (copies_returned WaitGroup) = 5%nat /\ rank k = 11%nat
    /\ exists own p' k',
         Forall (fun a => own_statement a = true) own
         /\ run WaitGroup (map (On 0%nat) own)
                (state_after WaitGroup (copies_returned WaitGroup)) = Some p'
         /\ conns p' !! 0%nat = Some k'
         /\ main k' = Returned
         /\ (length own <= 11)%nat.
Proof.
  assert (Hrun : run WaitGroup (copies_returned WaitGroup) boot
                 = Some (state_after WaitGroup (copies_returned WaitGroup)))
    by (vm_compute; reflexivity).
  eexists. split; [vm_compute; reflexivity|].
  split; [reflexivity|]. split; [reflexivity|]. split; [reflexivity|].
  split; [reflexivity|]. split; [reflexivity|].
  assert (Hk : conns (state_after WaitGroup (copies_returned WaitGroup)) !! 0%nat
               = Some (default accepted
                         (conns (state_after WaitGroup (copies_returned WaitGroup)) !! 0%nat)))
    by (vm_compute; reflexivity).
  destruct (handler_waits_only_for_the_network WaitGroup (copies_returned WaitGroup)
              _ 0 _ Hrun Hk) as (_ & _ & _ & own & p' & k' & Hown & Hr & Hk' & _ & Hdone & Hlen).
  exists own, p', k'. split; [exact Hown|]. split; [exact Hr|]. split; [exact Hk'|].
  split; [exact (Hdone eq_refl) | exact Hlen].
Defined.

Lemma counters_count_the_handlers_three_clients :
  exists p,
    run DoneChannel (dial 0 true ++ dial 1 true ++ refused 2 ++ [Accept]) boot = Some p
    /\ count started (conns p) = 3%Z
    /\ count running (conns p) = 2%Z
    /\ totalConns (counters p) = count started (conns p)
    /\ activeConns (counters p) = count running (conns p)
    /\ (0 <= activeConns (counters p) <= totalConns (counters p))%Z
    /\ (totalConns (counters p) <= Z.of_nat (length (conns p)))%Z.
Proof.
  eexists. split; [vm_compute; reflexivity|].
  split; [reflexivity|]. split; [reflexivity|].
  eapply (counters_count_the_handlers DoneChannel
            (dial 0 true ++ dial 1 true ++ refused 2 ++ [Accept])).
  - vm_compute. reflexivity.
  - vm_compute. reflexivity.
Defined.


Lemma done_channel_sets_options_first_before_the_first_byte :
  exists p k,
    run DoneChannel (dial 0 true ++ pair_up DoneChannel 0
                       ++ [On 0 (Copies ClientToTarget 5)]) boot = Some p
    /\ conns p !! 0%nat = Some k
    /\ log k = (prelude DoneChannel ++ spawned) ++ Copied ClientToTarget 5 :: []
    /\ In (SetNoDelay ClientConn true) (prelude DoneChannel ++ spawned)
    /\ In (SetKeepAlive ClientConn true) (prelude DoneChannel ++ spawned)
    /\ In (SetNoDelay TargetConn true) (prelude DoneChannel ++ spawned)
    /\ In (SetKeepAlive TargetConn true) (prelude DoneChannel ++ spawned).
Proof.
  eexists _, _. split; [vm_compute; reflexivity|].
  split; [reflexivity|]. split; [reflexivity|].
  eapply (done_channel_sets_options_first
            (dial 0 true ++ pair_up DoneChannel 0 ++ [On 0 (Copies ClientToTarget 5)])
            (state_after DoneChannel
               (dial 0 true ++ pair_up DoneChannel 0 ++ [On 0 (Copies ClientToTarget 5)]))
            0%nat
            (default accepted
               (conns (state_after DoneChannel
                         (dial 0 true ++ pair_up DoneChannel 0
                            ++ [On 0 (Copies ClientToTarget 5)])) !! 0%nat))
            _ _ (prelude DoneChannel ++ spawned) (Copied ClientToTarget 5) []).
  Unshelve.
  all: vm_compute; reflexivity.
Defined.

(** *** Connection numbers *)

Lemma count_app (f : Conn -> bool) (l1 l2 : list Conn) :
  count f (l1 ++ l2) = (count f l1 + count f l2)%Z.
Proof. unfold count. rewrite List.filter_app, length_app. lia. Qed.

Lemma count_insert (f : Conn -> bool) (l : list Conn) (c : nat) (k k' : Conn) :
  l !! c = Some k ->
  count f (<[c := k']> l)
  = (count f l - (if f k then 1 else 0) + (if f k' then 1 else 0))%Z.
Proof.
  intros Hc.
  rewrite <- !(share_count (fun k => if f k then 1%Z else 0%Z) f) by reflexivity.
  exact (sumZ_insert (fun k => if f k then 1%Z else 0%Z) l c k k' Hc).
Qed.

(** Taking the number is the only statement that changes whether a
    handler has one, or which. *)
Lemma conn_step_number (v : Version) (a : ConnAction) (k k' : Conn) (g g' : Counters) :
  conn_step v a k g = Some (k', g') ->
  (started k = false /\ started k' = true /\ connID k' = wrap64 (totalConns g + 1))
  \/ (started k' = started k /\ connID k' = connID k).
Proof.
  intros Hstep. destruct a as [|d|ok|d n|d err]; cbn [conn_step] in Hstep.
  - unfold main_step in Hstep. destruct (main k) eqn:Hm; simplify_eq.
    all: try (right; unfold started; cbn; rewrite ?Hm; split; reflexivity).
    + left. unfold started. rewrite Hm. cbn. auto.
    + destruct s, o; right; unfold started; cbn; rewrite Hm; split; reflexivity.
    + destruct v; right; unfold started; cbn; rewrite Hm; split; reflexivity.
    + destruct (may_pass v k); simplify_eq.
      right; unfold started; cbn; rewrite Hm; split; reflexivity.
  - unfold keeping, dir_step in Hstep.
    destruct (dir_pc d k) as [[| | | |]|]; simplify_eq;
      right; destruct d, v; split; reflexivity.
  - unfold keeping, dial_returns in Hstep.
    destruct (main k) eqn:Hm; simplify_eq.
    right. unfold started. cbn. rewrite Hm. destruct ok, v; split; reflexivity.
  - unfold keeping, copies in Hstep.
    destruct (dir_pc d k) as [[| | | |]|]; simplify_eq.
    destruct (0 <? n)%Z; simplify_eq. right; destruct d; split; reflexivity.
  - unfold keeping, copy_returns in Hstep.
    destruct (dir_pc d k) as [[| | | |]|]; simplify_eq.
    right; destruct d; split; reflexivity.
Qed.

Lemma step_length (v : Version) (a : Action) (p p' : Proxy) :
  step v a p = Some p' -> (length (conns p) <= length (conns p'))%nat.
Proof.
  intros Hstep. destruct a as [|c a]; cbn [step] in Hstep.
  - simplify_eq. cbn. rewrite length_app. lia.
  - destruct (conns p !! c) as [k|]; [|discriminate].
    destruct (conn_step v a k (counters p)) as [[k' g']|]; [|discriminate].
    simplify_eq. cbn. rewrite length_insert. lia.
Qed.

Lemma run_length (v : Version) (schedule : list Action) (p p' : Proxy) :
  run v schedule p = Some p' -> (length (conns p) <= length (conns p'))%nat.
Proof.
  revert p. induction schedule as [|a rest IH]; intros p Hrun; cbn in Hrun.
  - simplify_eq. lia.
  - destruct (step v a p) as [p1|] eqn:Hstep; [|discriminate].
    pose proof (step_length _ _ _ _ Hstep). specialize (IH _ Hrun). lia.
Qed.

Lemma totalConns_count (v : Version) (p : Proxy) :
  Forall (Inv v) (conns p) -> balanced p ->
  (Z.of_nat (length (conns p)) < 2 ^ 63)%Z ->
  totalConns (counters p) = count started (conns p).
Proof.
  intros Hall Hbal Hlen.
  destruct (ledger_shares v p Hall Hbal) as (HT & _ & _).
  rewrite (share_count total_share started) in HT
    by (intros k; unfold total_share, started; destruct (main k); reflexivity).
  pose proof (count_le started (conns p)).
  rewrite wrap64_small in HT by lia. exact HT.
Qed.

Lemma step_numbered (v : Version) (a : Action) (p p' : Proxy) :
  Forall (Inv v) (conns p) -> balanced p ->
  (Z.of_nat (length (conns p')) < 2 ^ 63)%Z ->
  numbered (conns p) ->
  step v a p = Some p' ->
  numbered (conns p').
Proof.
  intros Hall Hbal Hlen (Hrange & Hinj & Hsur) Hstep.
  pose proof (step_length _ _ _ _ Hstep) as Hmono.
  assert (HT : totalConns (counters p) = count started (conns p))
    by (eapply totalConns_count; eauto; lia).
  destruct a as [|c a]; cbn [step] in Hstep.
  - (* accept: the new handler has no number yet *)
    simplify_eq. cbn [conns] in *.
    assert (Hcount : count started (conns p ++ [accepted]) = count started (conns p)).
    { rewrite count_app. change (count started [accepted]) with 0%Z. lia. }
    unfold numbered. rewrite Hcount.
    assert (Hold : forall c k, (conns p ++ [accepted]) !! c = Some k -> started k = true ->
                               conns p !! c = Some k).
    { intros c k Hk Hs. apply lookup_app_Some in Hk as [Hk | [_ Hk]]; [exact Hk|].
      apply list_lookup_singleton_Some in Hk as [_ <-]. discriminate. }
    split; [|split].
    + intros c k Hk Hs. eapply Hrange; eauto.
    + intros c1 c2 k1 k2 H1 H2 Hs1 Hs2. eapply Hinj; eauto.
    + intros n Hn. destruct (Hsur n Hn) as (c & k & Hk & Hs & Hid).
      exists c, k. split; [|auto]. apply lookup_app_l_Some, Hk.
  - destruct (conns p !! c) as [k|] eqn:Hk; [|discriminate].
    destruct (conn_step v a k (counters p)) as [[k' g']|] eqn:Hc; [|discriminate].
    simplify_eq. cbn [conns] in *. unfold numbered.
    assert (Hc_lt : (c < length (conns p))%nat) by (eapply lookup_lt_Some; eassumption).
    pose proof (count_insert started (conns p) c k k' Hk) as Hcount.
    pose proof (count_le started (<[c := k']> (conns p))) as Hle.
    destruct (conn_step_number _ _ _ _ _ _ Hc) as [(Hs & Hs' & Hid) | (Hs' & Hid)].
    + (* the handler takes its number *)
      rewrite Hs, Hs' in Hcount. cbv beta iota in Hcount.
      pose proof (count_le started (conns p)) as Hle0.
      rewrite HT, wrap64_small in Hid by lia.
      split; [|split].
      * intros c0 k0 Hk0 Hs0. destruct (decide (c0 = c)) as [->|Hne].
        -- rewrite list_lookup_insert_eq in Hk0 by assumption. simplify_eq. lia.
        -- rewrite list_lookup_insert_ne in Hk0 by congruence.
           specialize (Hrange _ _ Hk0 Hs0). lia.
      * intros c1 c2 k1 k2 H1 H2 Hs1 Hs2 Heq.
        destruct (decide (c1 = c)) as [->|Hne1]; destruct (decide (c2 = c)) as [->|Hne2].
        -- reflexivity.
        -- rewrite list_lookup_insert_eq in H1 by assumption. simplify_eq.
           rewrite list_lookup_insert_ne in H2 by congruence.
           specialize (Hrange _ _ H2 Hs2). lia.
        -- rewrite list_lookup_insert_eq in H2 by assumption. simplify_eq.
           rewrite list_lookup_insert_ne in H1 by congruence.
           specialize (Hrange _ _ H1 Hs1). lia.
        -- rewrite list_lookup_insert_ne in H1, H2 by congruence. eapply Hinj; eauto.
      * intros n Hn.
        destruct (decide (n = count started (conns p) + 1)%Z) as [->|Hne].
        -- exists c, k'. rewrite list_lookup_insert_eq by assumption. auto.
        -- destruct (Hsur n ltac:(lia)) as (c0 & k0 & Hk0 & Hs0 & Hid0).
           exists c0, k0. split; [|auto].
           rewrite list_lookup_insert_ne; [exact Hk0|].
           intros ->. simplify_eq. congruence.
    + (* any other statement *)
      rewrite Hs' in Hcount.
      assert (Hsame : count started (<[c := k']> (conns p)) = count started (conns p))
        by (destruct (started k); lia).
      rewrite Hsame.
      assert (Hback : forall c0 k0, <[c := k']> (conns p) !! c0 = Some k0 ->
                exists k1, conns p !! c0 = Some k1
                           /\ started k1 = started k0 /\ connID k1 = connID k0).
      { intros c0 k0 Hk0. destruct (decide (c0 = c)) as [->|Hne].
        - rewrite list_lookup_insert_eq in Hk0 by assumption. simplify_eq. eauto.
        - rewrite list_lookup_insert_ne in Hk0 by congruence. eauto. }
      split; [|split].
      * intros c0 k0 Hk0 Hs0. destruct (Hback _ _ Hk0) as (k1 & Hk1 & Hs1 & Hid1).
        rewrite <- Hid1. eapply Hrange; [eassumption | congruence].
      * intros c1 c2 k1 k2 H1 H2 Hs1 Hs2 Heq.
        destruct (Hback _ _ H1) as (k1' & Hk1 & Hs1' & Hid1).
        destruct (Hback _ _ H2) as (k2' & Hk2 & Hs2' & Hid2).
        eapply (Hinj c1 c2 k1' k2'); eauto; congruence.
      * intros n Hn. destruct (Hsur n Hn) as (c0 & k0 & Hk0 & Hs0 & Hid0).
        destruct (decide (c0 = c)) as [->|Hne].
        -- exists c, k'. rewrite list_lookup_insert_eq by assumption.
           simplify_eq. split; [reflexivity|]. split; congruence.
        -- exists c0, k0. rewrite list_lookup_insert_ne by congruence. auto.
Qed.

Lemma run_numbered (v : Version) (schedule : list Action) (p p' : Proxy) :
  Forall (Inv v) (conns p) -> balanced p ->
  numbered (conns p) ->
  run v schedule p = Some p' ->
  (Z.of_nat (length (conns p')) < 2 ^ 63)%Z ->
  numbered (conns p').
Proof.
  revert p. induction schedule as [|a rest IH]; intros p Hall Hbal Hnum Hrun Hlen;
    cbn in Hrun.
  - simplify_eq. assumption.
  - destruct (step v a p) as [p1|] eqn:Hstep; [|discriminate].
    pose proof (run_length _ _ _ _ Hrun) as Hmono.
    eapply (IH p1); eauto.
    + eapply step_inv; eassumption.
    + eapply step_balanced; eassumption.
    + eapply step_numbered; eauto. lia.
Qed.

(** In either version and under every interleaving, as long as fewer
    than 2^63 connections were accepted, the connection numbers tell the
    handlers apart: a handler that has taken its number holds a number
    between 1 and [totalConns], no two handlers hold the same number,
    every number from 1 to [totalConns] is held by a handler, and the
    next handler to take one gets [totalConns] + 1. *)
Theorem connection_numbers_tell_the_handlers_apart
    (v : Version) (schedule : list Action) (p : Proxy) :
  run v schedule boot = Some p ->
  (Z.of_nat (length (conns p)) < 2 ^ 63)%Z ->
  (forall c k, conns p !! c = Some k -> started k = true ->
     (1 <= connID k <= totalConns (counters p))%Z)
  /\ (forall c1 c2 k1 k2, conns p !! c1 = Some k1 -> conns p !! c2 = Some k2 ->
        started k1 = true -> started k2 = true -> connID k1 = connID k2 -> c1 = c2)
  /\ (forall n, (1 <= n <= totalConns (counters p))%Z ->
        exists c k, conns p !! c = Some k /\ started k = true /\ connID k = n)
  /\ (forall c k k' g', conns p !! c = Some k -> started k = false ->
        conn_step v RunMain k (counters p) = Some (k', g') ->
        connID k' = (totalConns (counters p) + 1)%Z
        /\ totalConns g' = (totalConns (counters p) + 1)%Z).
Proof.
  intros Hrun Hlen.
  assert (Hall : Forall (Inv v) (conns p)).
  { eapply run_inv; [|eassumption]. constructor. }
  assert (Hbal : balanced p).
  { eapply run_balanced; [|eassumption]. apply boot_balanced. }
  assert (Hnum : numbered (conns p)).
  { apply (run_numbered v schedule boot p);
      [constructor | apply boot_balanced | | exact Hrun | exact Hlen].
    split; [|split].
    - intros c k Hk. cbn in Hk. rewrite lookup_nil in Hk. discriminate.
    - intros c1 c2 k1 k2 Hk. cbn in Hk. rewrite lookup_nil in Hk. discriminate.
    - intros n Hn. change (count started (conns boot)) with 0%Z in Hn. lia. }
  rewrite (totalConns_count v p Hall Hbal Hlen).
  destruct Hnum as (Hrange & Hinj & Hsur).
  split; [exact Hrange|]. split; [exact Hinj|]. split; [exact Hsur|].
  intros c k k' g' Hk Hs Hstep. cbn [conn_step] in Hstep. unfold main_step in Hstep.
  unfold started in Hs. destruct (main k) eqn:Hm; try discriminate.
  simplify_eq. cbn.
  rewrite (totalConns_count v p Hall Hbal Hlen).
  assert (count started (conns p) < Z.of_nat (length (conns p)))%Z.
  { pose proof (count_insert started (conns p) c k (goto AtAddActive k) Hk) as Hci.
    pose proof (count_le started (<[c := goto AtAddActive k]> (conns p))) as Hle.
    rewrite length_insert in Hle.
    replace (started k) with false in Hci by (unfold started; rewrite Hm; reflexivity).
    change (started (goto AtAddActive k)) with true in Hci. cbv beta iota in Hci. lia. }
  rewrite wrap64_small by (pose proof (count_le started (conns p)); lia).
  split; reflexivity.
Qed.

Lemma connection_numbers_tell_the_handlers_apart_late_number :
  map (fun k => (started k, connID k)) (conns (state_after DoneChannel late_number))
  = [(true, 2%Z); (false, 0%Z); (true, 1%Z)]
  /\ totalConns (counters (state_after DoneChannel late_number)) = 2%Z
  /\ (forall n, (1 <= n <= totalConns (counters (state_after DoneChannel late_number)))%Z ->
        exists c k, conns (state_after DoneChannel late_number) !! c = Some k
                    /\ started k = true /\ connID k = n).
Proof.
  split; [vm_compute; reflexivity|]. split; [vm_compute; reflexivity|].
  destruct (connection_numbers_tell_the_handlers_apart DoneChannel late_number
              (state_after DoneChannel late_number)) as (_ & _ & Hsur & _).
  - vm_compute. reflexivity.
  - vm_compute. reflexivity.
  - exact Hsur.
Defined.

End HandlerFacts.

(** ** Facts about Base64 *)

Module Base64Facts.
Import Base64.

Lemma list_ind3 {A} (P : list A -> Prop) :
  P [] -> (forall a, P [a]) -> (forall a b, P [a; b]) ->
  (forall a b c rest, P rest -> P (a :: b :: c :: rest)) ->
  forall l, P l.
Proof.
  intros H0 H1 H2 H3.
  assert (H : forall l, P l /\ (forall a, P (a :: l)) /\ (forall a b, P (a :: b :: l))).
  { induction l as [|x l (IH0 & IH1 & IH2)]; [auto|].
    split; [apply IH1|]. split; [intros a; apply IH2|]. intros a b. apply H3, IH0. }
  intros l. apply H.
Qed.

Lemma code_lt (c : ascii) : (code c < 256)%N.
Proof. apply N_ascii_bounded. Qed.

Lemma char_code (c : ascii) : char (code c) = c.
Proof. apply ascii_N_embedding. Qed.

Lemma below_64 (P : N -> Prop) :
  Forall P (map N.of_nat (seq 0 64)) -> forall n, (n < 64)%N -> P n.
Proof.
  intros Hall n Hn. rewrite List.Forall_forall in Hall. apply Hall.
  apply in_map_iff. exists (N.to_nat n). split; [lia|]. apply in_seq. lia.
Qed.

Lemma value_digit (n : N) : (n < 64)%N -> value (digit n) = Some n.
Proof. revert n. apply below_64. repeat constructor. Qed.

Lemma digit_plain (n : N) :
  (n < 64)%N -> is_whitespace (digit n) = false /\ is_pad (digit n) = false.
Proof. revert n. apply below_64. repeat constructor. Qed.

Lemma encode_split (bytes : list ascii) :
  encode bytes = map digit (sextets bytes) ++ padding bytes.
Proof.
  induction bytes as [| a | a b | a b c rest IH] using list_ind3; try reflexivity.
  cbn [encode sextets map app]. rewrite IH. unfold padding.
  replace (length (a :: b :: c :: rest) mod 3)%nat with (length rest mod 3)%nat;
    [reflexivity|].
  cbn [length]. replace (S (S (S (length rest)))) with (length rest + 1 * 3)%nat by lia.
  rewrite Nat.Div0.mod_add. reflexivity.
Qed.

Ltac bytes_lia :=
  repeat match goal with
         | c : ascii |- _ =>
             lazymatch goal with
             | H : (code c < 256)%N |- _ => fail
             | _ => pose proof (code_lt c)
             end
         end;
  zify; Z.to_euclidean_division_equations; lia.

Lemma sextets_small (bytes : list ascii) : Forall (fun n => (n < 64)%N) (sextets bytes).
Proof.
  induction bytes as [| a | a b | a b c rest IH] using list_ind3; cbn [sextets].
  - constructor.
  - repeat constructor; bytes_lia.
  - repeat constructor; bytes_lia.
  - repeat (constructor; [bytes_lia|]). exact IH.
Qed.

Lemma sextets_length (bytes : list ascii) :
  (length (sextets bytes) + length (padding bytes)) mod 4 = 0%nat
  /\ length (sextets bytes) mod 4 <> 1%nat
  /\ (padding bytes <> [] -> sextets bytes <> []).
Proof.
  induction bytes as [| a | a b | a b c rest IH] using list_ind3;
    try (cbn; repeat split; congruence).
  assert (Hp : padding (a :: b :: c :: rest) = padding rest).
  { unfold padding. cbn [length].
    replace (S (S (S (length rest)))) with (length rest + 1 * 3)%nat by lia.
    rewrite Nat.Div0.mod_add. reflexivity. }
  rewrite Hp. cbn [sextets length]. destruct IH as (H1 & H2 & H3).
  replace (S (S (S (S (length (sextets rest))))) + length (padding rest))%nat
    with ((length (sextets rest) + length (padding rest)) + 1 * 4)%nat by lia.
  replace (S (S (S (S (length (sextets rest))))))
    with (length (sextets rest) + 1 * 4)%nat by lia.
  rewrite !Nat.Div0.mod_add. repeat split; auto; discriminate.
Qed.

Lemma char_eq (n : N) (c : ascii) : n = code c -> char n = c.
Proof. intros ->. apply char_code. Qed.

Lemma decode_sextets (bytes : list ascii) :
  decode (sextets bytes) = bytes.
Proof.
  induction bytes as [| a | a b | a b c rest IH] using list_ind3.
  - reflexivity.
  - cbn [sextets decode]. f_equal. apply char_eq. bytes_lia.
  - cbn [sextets decode]. f_equal; [apply char_eq; bytes_lia|].
    f_equal. apply char_eq. bytes_lia.
  - cbn [sextets decode]. rewrite IH.
    f_equal; [apply char_eq; bytes_lia|].
    f_equal; [apply char_eq; bytes_lia|].
    f_equal. apply char_eq. bytes_lia.
Qed.

Lemma values_digits (digits : list N) :
  Forall (fun n => (n < 64)%N) digits -> values (map digit digits) = Some digits.
Proof.
  induction 1 as [|n ns Hn _ IH]; [reflexivity|].
  cbn [map values]. rewrite (value_digit n Hn), IH. reflexivity.
Qed.

Lemma plain_digits (digits : list N) :
  Forall (fun n => (n < 64)%N) digits ->
  Forall (fun c => is_whitespace c = false /\ is_pad c = false) (map digit digits).
Proof.
  intros H. apply Forall_map. eapply Forall_impl; [exact H|].
  intros n Hn. apply digit_plain, Hn.
Qed.

Lemma filter_all {A} (f : A -> bool) (l : list A) :
  Forall (fun x => f x = true) l -> List.filter f l = l.
Proof.
  induction 1 as [|x l Hx _ IH]; [reflexivity|]. cbn. rewrite Hx, IH. reflexivity.
Qed.

Lemma strip_padding_encoded (cs : list ascii) (p : list ascii) :
  Forall (fun c => is_pad c = false) cs ->
  (p = [] \/ (p = [pad] \/ p = [pad; pad]) /\ cs <> []) ->
  strip_padding (cs ++ p) = cs.
Proof.
  intros Hcs Hp. unfold strip_padding.
  assert (Hlast : forall c before, rev cs = c :: before -> is_pad c = false).
  { intros c before Hr. rewrite List.Forall_forall in Hcs. apply Hcs.
    apply in_rev. rewrite Hr. left. reflexivity. }
  assert (Hpad : is_pad pad = true) by reflexivity.
  destruct Hp as [-> | [[-> | ->] Hne]].
  - rewrite app_nil_r. destruct (rev cs) as [|c1 [|c2 before]] eqn:Hr; try reflexivity.
    + rewrite (Hlast c1 [] eq_refl). reflexivity.
    + rewrite (Hlast c1 _ eq_refl). reflexivity.
  - rewrite rev_app_distr. change (rev [pad]) with [pad]. cbn [app].
    destruct (rev cs) as [|c1 before] eqn:Hr.
    { exfalso. apply Hne. rewrite <- (rev_involutive cs), Hr. reflexivity. }
    rewrite Hpad, (Hlast c1 before eq_refl), <- Hr. apply rev_involutive.
  - rewrite rev_app_distr. change (rev [pad; pad]) with [pad; pad]. cbn [app].
    rewrite !Hpad. apply rev_involutive.
Qed.

(** Decoding what [btoa] made of a binary string gives the string back. *)
Lemma atob_btoa (binary : string) : atob (btoa binary) = Some binary.
Proof.
  unfold atob, btoa. rewrite String.list_ascii_of_string_of_list_ascii.
  set (bytes := String.list_ascii_of_string binary).
  rewrite encode_split.
  pose proof (sextets_small bytes) as Hsmall.
  pose proof (plain_digits _ Hsmall) as Hplain.
  destruct (sextets_length bytes) as (Hlen & Hlen1 & Hne).
  assert (Hpad : padding bytes = [] \/ padding bytes = [pad] \/ padding bytes = [pad; pad]).
  { unfold padding. destruct (length bytes mod 3)%nat as [|[|[|n]]]; auto. }
  rewrite filter_all.
  2:{ apply Forall_app_2.
      - eapply Forall_impl; [exact Hplain|]. intros c [-> _]. reflexivity.
      - destruct Hpad as [-> | [-> | ->]]; repeat constructor. }
  rewrite length_app, length_map, Hlen. cbn [Nat.eqb].
  rewrite strip_padding_encoded.
  2:{ eapply Forall_impl; [exact Hplain|]. intros c [_ H]. exact H. }
  2:{ destruct Hpad as [Hp | Hp]; [left; exact Hp|]. right. split; [tauto|].
      intros Hnil. apply map_eq_nil in Hnil. apply Hne; [|exact Hnil].
      destruct Hp as [-> | ->]; discriminate. }
  rewrite length_map.
  destruct (length (sextets bytes) mod 4 =? 1)%nat eqn:H1.
  { apply Nat.eqb_eq in H1. contradiction. }
  rewrite values_digits by exact Hsmall. rewrite decode_sextets.
  unfold bytes. rewrite String.string_of_list_ascii_of_string. reflexivity.
Qed.

End Base64Facts.

(** ** Facts about the audio conversions *)

Module AudioFacts.
Import Base64 Base64Facts Audio.

Lemma wrap16_small (z : Z) : (- 2 ^ 15 <= z < 2 ^ 15)%Z -> wrap16 z = z.
Proof. intros H. unfold wrap16. rewrite Z.mod_small by lia. lia. Qed.

Lemma wrap16_small_eq (v : Z) :
  (-32768 <= v <= 32767)%Z -> wrap16 (v mod 256 + 256 * (v / 256 mod 256)) = v.
Proof.
  intros H. rewrite <- (wrap16_small v) at 3 by lia. unfold wrap16.
  f_equal. change (2 ^ 16)%Z with 65536%Z. change (2 ^ 15)%Z with 32768%Z.
  Z.to_euclidean_division_equations. lia.
Qed.

Lemma pcm16_fin (q : Q) : pcm16 (Fin q) = wrap16 (truncate (scaled q)).
Proof.
  unfold pcm16, scaled. cbn [Math_min_1 Math_max_neg1 negative].
  destruct (Qcompare (Qmax (-1) (Qmin 1 q)) 0); reflexivity.
Qed.

Lemma clamp_bounds (q : Q) : (-1 <= Qmax (-1) (Qmin 1 q) /\ Qmax (-1) (Qmin 1 q) <= 1)%Q.
Proof.
  split; [apply Q.le_max_l|].
  apply Q.max_lub; [discriminate | apply Q.le_min_l].
Qed.

Lemma truncate_round (q : Q) :
  truncate q = if (0 <=? Qnum q)%Z then Qfloor q else Qceiling q.
Proof.
  destruct q as [n d]. unfold truncate, Qceiling, Qfloor. cbn [Qnum Qden Qopp].
  destruct (Z.leb_spec 0 n) as [Hn | Hn].
  - apply Z.quot_div_nonneg; lia.
  - rewrite <- (Z.opp_involutive n) at 1. rewrite Z.quot_opp_l by lia.
    rewrite Z.quot_div_nonneg by lia. reflexivity.
Qed.

Lemma truncate_le (p q : Q) : (p <= q)%Q -> (truncate p <= truncate q)%Z.
Proof.
  intros Hpq. rewrite !truncate_round.
  assert (Hsign : forall x : Q, (0 <= Qnum x)%Z <-> (0 <= x)%Q).
  { intros [n d]. unfold Qle. cbn. lia. }
  destruct (Z.leb_spec 0 (Qnum p)) as [Hp | Hp], (Z.leb_spec 0 (Qnum q)) as [Hq | Hq].
  - apply Qfloor_resp_le, Hpq.
  - exfalso. apply Hsign in Hp. assert (H : (0 <= q)%Q) by (eapply Qle_trans; eassumption).
    apply Hsign in H. lia.
  - apply Z.le_trans with 0%Z.
    + change 0%Z with (Qceiling 0). apply Qceiling_resp_le.
      destruct p as [n d]. unfold Qle. cbn in *. lia.
    + change 0%Z with (Qfloor 0). apply Qfloor_resp_le, Hsign, Hq.
  - apply Qceiling_resp_le, Hpq.
Qed.

Lemma truncate_int (z : Z) : truncate (inject_Z z) = z.
Proof. unfold truncate. cbn. apply Z.quot_1_r. Qed.

Lemma scaled_bounds (q : Q) : (-32768 <= scaled q /\ scaled q <= 32767)%Q.
Proof.
  unfold scaled. destruct (clamp_bounds q) as [Hlo Hhi].
  set (s := Qmax (-1) (Qmin 1 q)) in *.
  destruct (Qcompare_spec s 0) as [H0 | H0 | H0].
  - rewrite H0. split; vm_compute; discriminate.
  - split.
    + apply Qle_trans with (-1 * 32768)%Q; [vm_compute; discriminate|].
      apply Qmult_le_compat_r; [exact Hlo | vm_compute; discriminate].
    + apply Qle_trans with (0 * 32768)%Q; [|vm_compute; discriminate].
      apply Qmult_le_compat_r; [apply Qlt_le_weak; exact H0 | vm_compute; discriminate].
  - split.
    + apply Qle_trans with (0 * 32767)%Q; [vm_compute; discriminate|].
      apply Qmult_le_compat_r; [apply Qlt_le_weak; exact H0 | vm_compute; discriminate].
    + apply Qle_trans with (1 * 32767)%Q; [|vm_compute; discriminate].
      apply Qmult_le_compat_r; [exact Hhi | vm_compute; discriminate].
Qed.

Lemma truncate_scaled (q : Q) : (-32768 <= truncate (scaled q) <= 32767)%Z.
Proof.
  destruct (scaled_bounds q) as [Hlo Hhi].
  apply truncate_le in Hlo, Hhi.
  change (-32768)%Q with (inject_Z (-32768)) in Hlo.
  change 32767%Q with (inject_Z 32767) in Hhi.
  rewrite truncate_int in Hlo, Hhi. lia.
Qed.

Lemma clamp_le (p q : Q) :
  (p <= q)%Q -> (Qmax (-1) (Qmin 1 p) <= Qmax (-1) (Qmin 1 q))%Q.
Proof. intros H. apply Q.max_le_compat_l, Q.min_le_compat_l, H. Qed.

Lemma scaled_le (p q : Q) : (p <= q)%Q -> (scaled p <= scaled q)%Q.
Proof.
  intros H. apply clamp_le in H. unfold scaled.
  set (s := Qmax (-1) (Qmin 1 p)) in *. set (r := Qmax (-1) (Qmin 1 q)) in *.
  assert (H8 : (0 <= 32768)%Q) by (vm_compute; discriminate).
  assert (H7 : (0 <= 32767)%Q) by (vm_compute; discriminate).
  assert (Hneg : forall x, (x < 0)%Q -> (x * 32768 <= 0)%Q).
  { intros x Hx. apply Qle_trans with (0 * 32768)%Q; [|vm_compute; discriminate].
    apply Qmult_le_compat_r; [apply Qlt_le_weak, Hx | exact H8]. }
  assert (Hpos : forall x, (0 <= x)%Q -> (0 <= x * 32767)%Q).
  { intros x Hx. apply Qle_trans with (0 * 32767)%Q; [vm_compute; discriminate|].
    apply Qmult_le_compat_r; [exact Hx | exact H7]. }
  assert (Hge : forall x, (0 < x)%Q \/ (x == 0)%Q -> (0 <= x)%Q).
  { intros x [Hx | Hx]; [apply Qlt_le_weak, Hx | rewrite Hx; apply Qle_refl]. }
  destruct (Qcompare_spec s 0) as [Hs | Hs | Hs], (Qcompare_spec r 0) as [Hr | Hr | Hr].
  all: try (apply Qmult_le_compat_r; assumption).
  - exfalso. rewrite Hs in H. apply (Qlt_irrefl 0). apply Qle_lt_trans with r; assumption.
  - eapply Qle_trans; [apply Hneg, Hs | apply Hpos, Hge; auto].
  - eapply Qle_trans; [apply Hneg, Hs | apply Hpos, Hge; auto].
  - exfalso. apply (Qlt_irrefl 0). apply Qlt_le_trans with s; [exact Hs|].
    apply Qle_trans with r; [exact H | apply Qlt_le_weak, Hr].
Qed.

Lemma pcm16_le (p q : Q) : (p <= q)%Q -> (pcm16 (Fin p) <= pcm16 (Fin q))%Z.
Proof.
  intros H. rewrite !pcm16_fin.
  rewrite !wrap16_small by (pose proof (truncate_scaled p); pose proof (truncate_scaled q); lia).
  apply truncate_le, scaled_le, H.
Qed.

Lemma pcm16_range (x : float) : (-32768 <= pcm16 x <= 32767)%Z.
Proof.
  destruct x as [| |q|].
  - vm_compute. split; discriminate.
  - vm_compute. split; discriminate.
  - rewrite pcm16_fin, wrap16_small; pose proof (truncate_scaled q); lia.
  - vm_compute. split; discriminate.
Qed.

(** Every sample is clamped to [-1, 1], scaled by 0x8000 below zero and
    by 0x7FFF from zero on, and truncated toward zero: the result is
    always within the [Int16] range, so the store into the [Int16Array]
    never wraps around.  Samples at or beyond +1 (also +Infinity) become
    32767, samples at or beyond -1 (also -Infinity) become -32768, 0 and
    NaN become 0, and a larger sample never gives a smaller value. *)
Theorem pcm16_saturates_and_never_wraps (x : float) :
  (-32768 <= pcm16 x <= 32767)%Z
  /\ (forall q, pcm16 (Fin q) = truncate (scaled q))
  /\ (forall p q, (p <= q)%Q -> (pcm16 (Fin p) <= pcm16 (Fin q))%Z)
  /\ (forall q, (1 <= q)%Q -> pcm16 (Fin q) = 32767%Z)
  /\ (forall q, (q <= -1)%Q -> pcm16 (Fin q) = (-32768)%Z)
  /\ pcm16 PosInf = 32767%Z /\ pcm16 NegInf = (-32768)%Z
  /\ pcm16 (Fin 0) = 0%Z /\ pcm16 NaN = 0%Z.
Proof.
  split; [apply pcm16_range|].
  split.
  { intros q. rewrite pcm16_fin. apply wrap16_small.
    pose proof (truncate_scaled q). lia. }
  split; [apply pcm16_le|].
  split.
  { intros q Hq. pose proof (pcm16_le 1 q Hq) as H. pose proof (pcm16_range (Fin q)).
    replace (pcm16 (Fin 1)) with 32767%Z in H by (vm_compute; reflexivity). lia. }
  split.
  { intros q Hq. pose proof (pcm16_le q (-1) Hq) as H. pose proof (pcm16_range (Fin q)).
    replace (pcm16 (Fin (-1))) with (-32768)%Z in H by (vm_compute; reflexivity). lia. }
  repeat split; vm_compute; reflexivity.
Qed.

(** *** Encoding and decoding *)

Lemma charCodeAt_fromCharCode (byte : Z) :
  (0 <= byte < 256)%Z -> charCodeAt (fromCharCode byte) = byte.
Proof.
  intros H. unfold charCodeAt, fromCharCode, code, char.
  rewrite N_ascii_embedding by lia. lia.
Qed.

Lemma le16_bytes (v : Z) : Forall (fun b => (0 <= b < 256)%Z) (le16 v).
Proof.
  unfold le16. repeat constructor; apply Z.mod_pos_bound; lia.
Qed.

Lemma as_int16_le16 (vs : list Z) :
  Forall (fun v => (-32768 <= v <= 32767)%Z) vs ->
  as_int16 (flat_map le16 vs) = vs.
Proof.
  induction 1 as [|v vs Hv _ IH]; [reflexivity|].
  cbn [flat_map le16 app as_int16]. rewrite IH. f_equal.
  apply wrap16_small_eq. exact Hv.
Qed.

Lemma encode_length (bytes : list ascii) :
  length (encode bytes) = (4 * ((length bytes + 2) / 3))%nat.
Proof.
  induction bytes as [| a | a b | a b c rest IH] using list_ind3; try reflexivity.
  cbn [encode length]. rewrite IH.
  replace (S (S (S (length rest))) + 2)%nat with ((length rest + 2) + 1 * 3)%nat by lia.
  rewrite Nat.div_add by lia. lia.
Qed.

Lemma length_string_of_list_ascii (l : list ascii) :
  String.length (String.string_of_list_ascii l) = length l.
Proof. induction l as [|c l IH]; [reflexivity|]. cbn. rewrite IH. reflexivity. Qed.

Lemma encode_chars (bytes : list ascii) :
  Forall (fun c => In c alphabet \/ c = pad) (encode bytes).
Proof.
  rewrite encode_split. apply Forall_app_2.
  - apply Forall_map. eapply Forall_impl; [apply sextets_small|].
    intros n Hn. cbv beta in Hn. left. apply nth_In.
    change (length alphabet) with 64%nat. lia.
  - unfold padding.
    destruct (length bytes mod 3)%nat as [|[|[|]]];
      repeat (apply List.Forall_cons; [right; reflexivity|]); apply List.Forall_nil.
Qed.

(** What [float32ToBase64PCM] returns decodes, with [base64ToArrayBuffer],
    to two bytes per sample: the little-endian bytes of the clamped,
    scaled and truncated samples, so that reading the buffer as an
    [Int16Array] gives these values back, in order. *)
Theorem base64ToArrayBuffer_reads_back_the_samples (float32Array : list float) :
  base64ToArrayBuffer (float32ToBase64PCM float32Array)
  = Some (flat_map le16 (map pcm16 float32Array))
  /\ length (flat_map le16 (map pcm16 float32Array)) = (2 * length float32Array)%nat
  /\ as_int16 (flat_map le16 (map pcm16 float32Array)) = map pcm16 float32Array.
Proof.
  split; [|split].
  - unfold base64ToArrayBuffer, float32ToBase64PCM. rewrite atob_btoa.
    rewrite String.list_ascii_of_string_of_list_ascii, map_map. f_equal.
    induction float32Array as [|x xs IH]; [reflexivity|].
    cbn [map flat_map]. rewrite !map_app, IH. f_equal.
    pose proof (le16_bytes (pcm16 x)) as Hb. unfold le16 in *.
    inversion Hb as [|? ? H1 Hb']; subst. inversion Hb' as [|? ? H2 _]; subst.
    cbn [map]. rewrite !charCodeAt_fromCharCode by assumption. reflexivity.
  - induction float32Array as [|x xs IH]; [reflexivity|].
    cbn [map flat_map]. rewrite length_app, IH. cbn. lia.
  - apply as_int16_le16. apply Forall_map. apply Forall_forall. intros x _.
    apply pcm16_range.
Qed.

(** [float32ToBase64PCM] returns four characters for every three bytes
    of PCM or part thereof, that is 4 * ceil(2n / 3) characters for n
    samples, each of them a letter, a digit, '+', '/' or '='. *)
Theorem float32ToBase64PCM_length (float32Array : list float) :
  String.length (float32ToBase64PCM float32Array)
  = (4 * ((2 * length float32Array + 2) / 3))%nat
  /\ Forall (fun c => In c alphabet \/ c = pad)
            (String.list_ascii_of_string (float32ToBase64PCM float32Array)).
Proof.
  unfold float32ToBase64PCM, btoa.
  rewrite !String.list_ascii_of_string_of_list_ascii.
  split; [|apply encode_chars].
  rewrite length_string_of_list_ascii.
  rewrite encode_length, length_map. f_equal. f_equal. f_equal.
  induction float32Array as [|x xs IH]; [reflexivity|].
  cbn [map flat_map]. rewrite length_app, IH. cbn. lia.
Qed.

End AudioFacts.

(** ** Facts about playback *)

Module PlayerFacts.
Import Script Audio Player.
Local Open Scope script_scope.

Ltac play_unfold :=
  cbv beta iota delta
    [bind ret throw try_catch get modify tell when update update_world this invoke
     init playNext decode playAudio resumed decoded onended stop cleanup
     drop_resuming drop_decoding drop_sounding];
  cbn [player world audioContext playQueue isPlaying onPlaybackStart onPlaybackEnd
       contexts sounding resuming decoding
       set_audioContext set_playQueue set_isPlaying app fst snd].

Ltac play_case :=
  match goal with
  | |- context [match ?x with _ => _ end] =>
      lazymatch x with
      | context [match _ with _ => _ end] => fail
      | _ => destruct x eqn:?
      end
  end.

Ltac play_cases := play_unfold; repeat (play_case; simplify_eq; play_unfold).

Lemma started_app (t1 t2 : list Effect) : started (t1 ++ t2) = started t1 ++ started t2.
Proof.
  induction t1 as [|e t1 IH]; [reflexivity|]. destruct e; cbn; rewrite ?IH; reflexivity.
Qed.

Lemma step_steady (i : Input) (s : Stage) (r : outcome exn unit) (s' : Stage)
    (t : list Effect) :
  steady s ->
  interrupts i = false ->
  step i s = Some (r, s', t) ->
  steady s'
  /\ r = Returns tt
  /\ playQueue (player s) ++ decoded_buffers [i] = started t ++ playQueue (player s').
Proof.
  intros (Hs & He & Hctx & Hplay) Hi Hst.
  destruct s as [[ctx queue playing cb1 cb2] [n snd res dec]].
  cbn in Hs, He, Hctx, Hplay. subst cb1 cb2.
  assert (Hsnd : playing = true /\ (exists b, snd = [b]) /\ ctx <> None
                 \/ playing = false /\ snd = [] /\ queue = []).
  { destruct playing; [left | right; tauto].
    split; [reflexivity|]. split; [exact Hplay|].
    intros Hnone. destruct (Hctx Hnone). discriminate. }
  assert (Hpend : ctx = None -> res = [] /\ dec = 0%nat) by (intros H; apply Hctx, H).
  clear Hctx Hplay.
  destruct i; try discriminate; cbn [step world player resuming decoding sounding] in Hst.
  all: revert Hst; play_cases; intros Hst; simplify_eq.
  all: unfold steady; cbn [player world audioContext playQueue isPlaying onPlaybackStart
                            onPlaybackEnd contexts sounding resuming decoding
                            set_playQueue set_isPlaying set_audioContext
                            decoded_buffers started app].
  all: rewrite ?app_nil_r.
  all: try (destruct Hpend as [? ?]; [reflexivity|]; simplify_eq; fail).
  all: destruct Hsnd as [(? & [b' ?] & ?) | (? & ? & ?)]; simplify_eq.
  all: try match goal with
           | H : [_] !! ?k = Some _ |- _ => destruct k; cbn in H; simplify_eq
           end.
  all: cbn [delete list_delete app].
  all: repeat split; try reflexivity; try discriminate; try congruence; eauto.
  all: match goal with
       | H : ?c = None, Hp : ?c = None -> _ |- _ => destruct (Hp H); simplify_eq
       end.
  all: cbn in *; try discriminate; try reflexivity.
Qed.

Lemma decoded_buffers_cons (i : Input) (inputs : list Input) :
  decoded_buffers (i :: inputs) = decoded_buffers [i] ++ decoded_buffers inputs.
Proof. destruct i; reflexivity. Qed.

Lemma run_steady (inputs : list Input) (s s' : Stage) (t : list Effect) :
  steady s ->
  Forall (fun i => interrupts i = false) inputs ->
  run inputs s = Some (s', t) ->
  steady s'
  /\ playQueue (player s) ++ decoded_buffers inputs = started t ++ playQueue (player s').
Proof.
  revert s s' t. induction inputs as [|i inputs IH]; intros s s' t Hs Hin Hrun.
  - cbn in Hrun. simplify_eq. split; [assumption|]. cbn. apply app_nil_r.
  - inversion Hin as [|? ? Hi Hrest]; subst. cbn [run] in Hrun.
    destruct (step i s) as [[[r s1] t1]|] eqn:Hst; [|discriminate].
    destruct (run inputs s1) as [[s2 t2]|] eqn:Hr; [|discriminate].
    simplify_eq.
    destruct (step_steady _ _ _ _ _ Hs Hi Hst) as (Hs1 & _ & Hq1).
    destruct (IH _ _ _ Hs1 Hrest Hr) as (Hs2 & Hq2).
    split; [assumption|].
    rewrite decoded_buffers_cons, started_app, app_assoc, Hq1, <- !app_assoc, Hq2.
    reflexivity.
Qed.

(** As long as [stop()] and [cleanup()] are not called, a new player
    plays what it is given in order and one at a time: the buffers it has
    started so far, followed by those still waiting in [playQueue], are
    the buffers [decodeAudioData] has delivered, in the order of their
    delivery; at most one source sounds at any moment; [isPlaying] is
    true exactly while one does; and nothing waits in the queue while
    nothing sounds. *)
Theorem playback_is_in_order_and_one_at_a_time
    (inputs : list Input) (s' : Stage) (t : list Effect) :
  Forall (fun i => interrupts i = false) inputs ->
  run inputs fresh = Some (s', t) ->
  started t ++ playQueue (player s') = decoded_buffers inputs
  /\ (length (sounding (world s')) <= 1)%nat
  /\ (isPlaying (player s') = true <-> sounding (world s') <> [])
  /\ (isPlaying (player s') = false -> playQueue (player s') = []).
Proof.
  intros Hin Hrun.
  destruct (run_steady inputs fresh s' t) as ((_ & _ & _ & Hplay) & Hq); auto.
  { repeat split. }
  split; [symmetry; exact Hq|].
  destruct (isPlaying (player s')).
  - destruct Hplay as [b ->]. cbn. repeat split; auto; try discriminate; lia.
  - destruct Hplay as [-> ->]. cbn. repeat split; auto; try discriminate; try congruence.
Qed.

(** [stop()] empties the queue and clears [isPlaying], and that is all:
    it stops no source, so what was sounding goes on sounding.  A buffer
    whose decoding completes after [stop()] is then started at once,
    beside the sources that still sound. *)
Theorem stop_leaves_the_source_sounding (s : Stage) (audioBuffer : Buffer) :
  audioContext (player s) <> None ->
  onPlaybackStart (player s) = None ->
  exists s1 s2,
    stop s = (Returns tt, s1, [])
    /\ playQueue (player s1) = [] /\ isPlaying (player s1) = false
    /\ world s1 = world s
    /\ decoded audioBuffer s1 = (Returns tt, s2, [EStart audioBuffer])
    /\ sounding (world s2) = sounding (world s) ++ [audioBuffer]
    /\ isPlaying (player s2) = true.
Proof.
  intros Hctx Hcb. destruct s as [[ctx queue playing cb1 cb2] w]. cbn in Hctx, Hcb. subst cb1.
  destruct ctx as [id|]; [|congruence].
  eexists _, _. play_unfold. repeat split.
Qed.

(** *** The statements above at concrete runs *)

Lemma playback_is_in_order_and_one_at_a_time_three_replies :
  exists s' t,
    run three_replies fresh = Some (s', t)
    /\ started t = [1; 2]%nat
    /\ playQueue (player s') = [3]%nat
    /\ started t ++ playQueue (player s') = decoded_buffers three_replies
    /\ (length (sounding (world s')) <= 1)%nat
    /\ (isPlaying (player s') = true <-> sounding (world s') <> [])
    /\ (isPlaying (player s') = false -> playQueue (player s') = []).
Proof.
  eexists _, _. split; [vm_compute; reflexivity|].
  split; [reflexivity|]. split; [reflexivity|].
  eapply (playback_is_in_order_and_one_at_a_time three_replies).
  - repeat constructor.
  - vm_compute. reflexivity.
Defined.

Lemma stop_leaves_the_source_sounding_two_at_once :
  sounding (world one_sounding) = [1]%nat
  /\ exists s1 s2,
      stop one_sounding = (Returns tt, s1, [])
      /\ playQueue (player s1) = [] /\ isPlaying (player s1) = false
      /\ world s1 = world one_sounding
      /\ decoded 2%nat s1 = (Returns tt, s2, [EStart 2%nat])
      /\ sounding (world s2) = sounding (world one_sounding) ++ [2%nat]
      /\ isPlaying (player s2) = true.
Proof.
  split; [reflexivity|].
  apply (stop_leaves_the_source_sounding one_sounding 2%nat).
  - discriminate.
  - reflexivity.
Defined.

End PlayerFacts.

(** ** Facts about the chat page *)

Module AppFacts.
Import Js Script App.
Local Open Scope script_scope.

Lemma ready_open (p : Page) :
  ready p = true ->
  exists c id, ws (state p) = Some c
               /\ Client.open_socket (Client.mkSys c (browser p)) = Some id.
Proof.
  unfold ready. intros H.
  destruct (ws (state p)) as [c|]; [|discriminate].
  unfold Client.isReady in H. cbn [Client.client Client.world] in H.
  destruct (Client.ws c) as [id|] eqn:Hid; [|discriminate].
  apply andb_true_iff in H as [H1 _].
  exists c, id. split; [reflexivity|].
  unfold Client.open_socket. cbn [Client.client Client.world]. rewrite Hid, H1.
  reflexivity.
Qed.

Lemma on_ws_send (c : Client.Client) (message : Client.envelope) (p : Page) :
  ws (state p) = Some c ->
  on_ws c (Client.send message) p
  = (Returns (match Client.open_socket (Client.mkSys c (browser p)) with
              | Some _ => true
              | None => false
              end),
     p,
     match Client.open_socket (Client.mkSys c (browser p)) with
     | Some id => [Client.EWsSend id message]
     | None => []
     end).
Proof.
  intros Hws. unfold on_ws. rewrite ClientFacts.send_eq.
  destruct p as [[w a m o l h e] els br]. cbn in Hws. subst w.
  destruct (Client.open_socket _); reflexivity.
Qed.

Ltac app_unfold :=
  cbv beta iota delta
    [bind ret throw try_catch get modify tell update update_elements lift
     addMessage showError renderMessage sendMessage onAudioData on_text on_error
     loadMoreHistory
     Client.sendText Client.sendAudio Client.requestHistory];
  cbn [state elements browser ws audioCapture messages historyOffset historyLimit
       hasMoreHistory audioEnabled messageInput shown loadMore
       set_ws set_messages set_historyOffset set_hasMoreHistory
       set_messageInput set_shown set_loadMore app fst snd].

(** [sendMessage()] with nothing but white space in the input does
    nothing.  Otherwise, when the client is ready, the text is written
    to its open socket, the chat shows it as the user's message and the
    input is emptied; when there is no client or it is not ready,
    nothing is written, the chat shows "Error: Not connected to server"
    as a system message, and the input keeps its text.  So a message
    shown as the user's has always been written to the socket. *)
Theorem sendMessage_writes_what_it_shows
    (trim : string -> string) (now : string) (p : Page) :
  let text := trim (messageInput (elements p)) in
  let said who what := mkMessage who (Some (JStr what)) (Some (JStr now)) in
  exists p',
    sendMessage trim now p
    = (Returns tt, p', if String.eqb text "" then [] else written p (Client.Text text))
    /\ (text = "" -> p' = p)
    /\ (text <> "" -> ready p = true ->
        (exists id, written p (Client.Text text) = [Client.EWsSend id (Client.Text text)])
        /\ messages (state p') = messages (state p) ++ [said "user" text]
        /\ shown (elements p') = shown (elements p) ++ [said "user" text]
        /\ messageInput (elements p') = "")
    /\ (text <> "" -> ready p = false ->
        written p (Client.Text text) = []
        /\ messages (state p')
           = messages (state p) ++ [said "system" "Error: Not connected to server"]
        /\ shown (elements p')
           = shown (elements p) ++ [said "system" "Error: Not connected to server"]
        /\ messageInput (elements p') = messageInput (elements p))
    /\ browser p' = browser p /\ ws (state p') = ws (state p).
Proof.
  intros text said. subst said. unfold written.
  destruct (String.eqb_spec text "") as [Hempty | Hfull].
  - exists p. unfold sendMessage. app_unfold. fold text.
    rewrite Hempty. cbn. repeat split; try reflexivity; congruence.
  - assert (Heq : String.eqb text "" = false) by (apply String.eqb_neq; exact Hfull).
    destruct (ready p) eqn:Hready.
    + destruct (ready_open p Hready) as (c & id & Hws & Hopen).
      unfold sendMessage. app_unfold. fold text. rewrite Heq, Hws, Hready.
      app_unfold.
      rewrite (on_ws_send c (Client.Text text)) by (cbn; exact Hws).
      app_unfold. rewrite Hopen.
      eexists. split; [reflexivity|]. cbn.
      repeat split; try congruence; eauto.
    + unfold sendMessage. app_unfold. fold text. rewrite Heq.
      destruct (ws (state p)) as [c|] eqn:Hws.
      * rewrite Hready. app_unfold.
        assert (Hw : match Client.open_socket (Client.mkSys c (browser p)) with
                     | Some id => @nil Client.Effect
                     | None => []
                     end = []) by (destruct (Client.open_socket _); reflexivity).
        rewrite Hw. eexists. split; [reflexivity|]. cbn.
        repeat split; try congruence.
      * app_unfold. eexists. split; [reflexivity|]. cbn.
        repeat split; try congruence.
Qed.

(** A chunk of audio the microphone delivers is converted with
    [float32ToBase64PCM] and written to the open socket as an audio
    envelope of format "pcm_s16le" at 16000 Hz when the client is ready;
    when there is no client or it is not ready the chunk is dropped:
    nothing is written, nothing is shown and nothing is kept for later. *)
Theorem audio_chunk_is_sent_only_when_ready (audioData : list Audio.float) (p : Page) :
  onAudioData audioData p
  = (Returns tt, p,
     written p (Client.Audio (Audio.float32ToBase64PCM audioData) "pcm_s16le" 16000))
  /\ (ready p = true ->
      exists id,
        written p (Client.Audio (Audio.float32ToBase64PCM audioData) "pcm_s16le" 16000)
        = [Client.EWsSend id
             (Client.Audio (Audio.float32ToBase64PCM audioData) "pcm_s16le" 16000)])
  /\ (ready p = false ->
      written p (Client.Audio (Audio.float32ToBase64PCM audioData) "pcm_s16le" 16000) = []).
Proof.
  unfold written. destruct (ready p) eqn:Hready.
  - destruct (ready_open p Hready) as (c & id & Hws & Hopen).
    unfold onAudioData. app_unfold. rewrite Hws, Hready. app_unfold.
    rewrite on_ws_send by exact Hws. rewrite Hopen.
    split; [reflexivity|]. split; [eauto | discriminate].
  - unfold onAudioData. app_unfold.
    destruct (ws (state p)) as [c|] eqn:Hws.
    + rewrite Hready. split; [destruct (Client.open_socket _); reflexivity|].
      split; [discriminate|]. intros _. destruct (Client.open_socket _); reflexivity.
    + repeat split. discriminate.
Qed.

(** *** History *)

Lemma forEach_render (l : list Message) (p : Page) :
  forEach l renderMessage p
  = (Returns tt,
     mkPage (state p) (set_shown (shown (elements p) ++ l) (elements p)) (browser p), []).
Proof.
  revert p. induction l as [|m l IH]; intros p.
  - cbn. rewrite app_nil_r. destruct p as [st [i sh lm] br]. reflexivity.
  - cbn [forEach]. unfold bind at 1. unfold renderMessage at 1.
    unfold update_elements, modify. rewrite IH. cbn. rewrite <- app_assoc. reflexivity.
Qed.

Lemma renderMessages_eq (p : Page) :
  renderMessages p
  = (Returns tt, mkPage (state p) (set_shown (messages (state p)) (elements p)) (browser p),
     []).
Proof.
  unfold renderMessages. unfold bind at 1. unfold update_elements at 1. unfold modify.
  unfold bind at 1. unfold get. rewrite forEach_render. reflexivity.
Qed.

Lemma forEach_unshift (items : list json) (p : Page) :
  existsb is_null items = false ->
  forEach items (fun msg =>
    entry <- lift (history_entry msg) ;;
    update (fun s => set_messages (entry :: messages s) s)) p
  = (Returns tt,
     mkPage (set_messages (rev (map entry_of items) ++ messages (state p)) (state p))
            (elements p) (browser p),
     []).
Proof.
  revert p. induction items as [|msg items IH]; intros p Hnull.
  - cbn. destruct p as [[w a m o l h e] els br]. reflexivity.
  - cbn [existsb] in Hnull. apply orb_false_iff in Hnull as [Hmsg Hrest].
    cbn [forEach]. unfold bind at 1.
    assert (Hentry : history_entry msg = Normal (entry_of msg)).
    { unfold entry_of, history_entry. destruct msg; try discriminate; reflexivity. }
    unfold bind at 1. rewrite Hentry. cbn [lift]. unfold ret, update, modify.
    rewrite IH by exact Hrest. cbn. rewrite <- app_assoc. reflexivity.
Qed.

Lemma existsb_rev {A} (f : A -> bool) (l : list A) : existsb f (rev l) = existsb f l.
Proof.
  induction l as [|x l IH]; [reflexivity|].
  cbn [rev existsb]. rewrite existsb_app, IH. cbn. rewrite orb_false_r. apply orb_comm.
Qed.

(** What [handleHistoryResponse] leaves when it comes to its end. *)
Lemma handleHistoryResponse_eq (data : json) (items : list json) (p : Page) :
  history_items data = Some items ->
  existsb is_null items = false ->
  exists more,
    handleHistoryResponse data p
    = (Returns tt,
       mkPage
         (set_historyOffset (historyOffset (state p) + Z.of_nat (length items))
            (set_messages (map entry_of items ++ messages (state p))
               (set_hasMoreHistory more (state p))))
         (set_shown (map entry_of items ++ messages (state p))
            (set_loadMore (truthy (Some more)) (elements p)))
         (browser p),
       []).
Proof.
  intros Hitems Hnull. unfold history_items in Hitems. unfold handleHistoryResponse.
  destruct (get_prop data "messages") as [given|e] eqn:Hgiven; [|discriminate].
  assert (Hmore : exists hm, get_prop data "has_more" = Normal hm).
  { destruct data; cbn in Hgiven |- *; try discriminate; eauto. }
  destruct Hmore as [hm Hhm].
  unfold bind at 1. cbn [lift]. unfold ret at 1. unfold bind at 1. rewrite Hhm.
  cbn [lift]. unfold ret at 1. unfold bind at 1. unfold update at 1. unfold modify at 1.
  destruct (if truthy given then given else Some (JArr [])) as [[| | | |l|]|];
    try discriminate.
  simplify_eq.
  unfold bind at 1. rewrite forEach_unshift
    by (rewrite existsb_rev; exact Hnull).
  unfold bind at 1. unfold update at 1. unfold modify at 1.
  unfold bind at 1. unfold get at 1.
  unfold bind at 1. unfold update_elements at 1. unfold modify at 1.
  rewrite renderMessages_eq. cbn.
  rewrite map_rev, rev_involutive. eexists. reflexivity.
Qed.

(** ... and when it does not get as far as the array. *)
Lemma handleHistoryResponse_skips (data : json) (p : Page) :
  history_items data = None ->
  exists r st,
    handleHistoryResponse data p = (r, mkPage st (elements p) (browser p), [])
    /\ messages st = messages (state p)
    /\ historyOffset st = historyOffset (state p)
    /\ historyLimit st = historyLimit (state p)
    /\ ws st = ws (state p).
Proof.
  intros Hitems. unfold history_items in Hitems. unfold handleHistoryResponse.
  destruct p as [st els br].
  destruct (get_prop data "messages") as [given|e] eqn:Hgiven.
  - assert (Hmore : exists hm, get_prop data "has_more" = Normal hm).
    { destruct data; cbn in Hgiven |- *; try discriminate; eauto. }
    destruct Hmore as [hm Hhm].
    unfold bind at 1. cbn [lift]. unfold ret at 1. unfold bind at 1. rewrite Hhm.
    cbn [lift]. unfold ret at 1. unfold bind at 1. unfold update at 1. unfold modify at 1.
    destruct (if truthy given then given else Some (JArr [])) as [[| | | |l|]|];
      try discriminate; eexists _, _; (split; [reflexivity|]); repeat split.
  - unfold bind at 1. cbn [lift]. unfold throw.
    eexists _, _. split; [reflexivity|]. repeat split.
Qed.


Lemma step_history (trim : string -> string) (i : Input) (p : Page)
    (r : outcome exn unit) (p' : Page) (t : list Client.Effect) :
  sound i = true ->
  shown (elements p) = messages (state p) ->
  step trim i p = (r, p', t) ->
  shown (elements p') = messages (state p')
  /\ (exists live,
        messages (state p')
        = concat (map (map entry_of) (pages [i])) ++ messages (state p) ++ live)
  /\ historyOffset (state p') = (historyOffset (state p) + total (pages [i]))%Z
  /\ historyLimit (state p') = historyLimit (state p).
Proof.
  intros Hsound Hshown Hst. unfold total.
  destruct i as [now| |audioData|data now|data now|data|value]; cbn [step pages] in *.
  - (* sendMessage *)
    revert Hst. unfold sendMessage. app_unfold.
    destruct (String.eqb _ ""); [|destruct (ws (state p)) as [c|] eqn:Hws;
                                    [destruct (ready p) eqn:Hready|]].
    + intros Hst. simplify_eq. cbn. rewrite Z.add_0_r.
      repeat split; auto. exists []. rewrite app_nil_r. reflexivity.
    + app_unfold. rewrite on_ws_send by (cbn; exact Hws).
      intros Hst. simplify_eq. cbn. rewrite Z.add_0_r, Hshown.
      repeat split; eauto.
    + app_unfold. intros Hst. simplify_eq. cbn. rewrite Z.add_0_r, Hshown.
      repeat split; eauto.
    + app_unfold. intros Hst. simplify_eq. cbn. rewrite Z.add_0_r, Hshown.
      repeat split; eauto.
  - (* loadMoreHistory *)
    revert Hst. unfold loadMoreHistory. app_unfold.
    destruct (ws (state p)) as [c|] eqn:Hws;
      [destruct (ready p && truthy (Some (hasMoreHistory (state p))))|].
    + app_unfold. rewrite on_ws_send by exact Hws.
      intros Hst. simplify_eq. cbn. rewrite Z.add_0_r.
      repeat split; auto. exists []. rewrite app_nil_r. reflexivity.
    + intros Hst. simplify_eq. cbn. rewrite Z.add_0_r.
      repeat split; auto. exists []. rewrite app_nil_r. reflexivity.
    + intros Hst. simplify_eq. cbn. rewrite Z.add_0_r.
      repeat split; auto. exists []. rewrite app_nil_r. reflexivity.
  - (* a chunk of audio *)
    revert Hst. unfold onAudioData. app_unfold.
    destruct (ws (state p)) as [c|] eqn:Hws; [destruct (ready p)|].
    + app_unfold. rewrite on_ws_send by exact Hws.
      intros Hst. simplify_eq. cbn. rewrite Z.add_0_r.
      repeat split; auto. exists []. rewrite app_nil_r. reflexivity.
    + intros Hst. simplify_eq. cbn. rewrite Z.add_0_r.
      repeat split; auto. exists []. rewrite app_nil_r. reflexivity.
    + intros Hst. simplify_eq. cbn. rewrite Z.add_0_r.
      repeat split; auto. exists []. rewrite app_nil_r. reflexivity.
  - (* text *)
    revert Hst. unfold on_text. app_unfold.
    destruct data; cbn [get_prop]; app_unfold; intros Hst; simplify_eq; cbn;
      rewrite Z.add_0_r, ?Hshown; repeat split; eauto.
    exists []. rewrite app_nil_r. reflexivity.
  - (* error *)
    revert Hst. unfold on_error. app_unfold.
    destruct data; cbn [get_prop]; app_unfold; intros Hst; simplify_eq; cbn;
      rewrite Z.add_0_r, ?Hshown; repeat split; eauto.
    exists []. rewrite app_nil_r. reflexivity.
  - (* history *)
    cbn [sound] in Hsound.
    destruct (history_items data) as [items|] eqn:Hitems.
    + apply negb_true_iff in Hsound.
      destruct (handleHistoryResponse_eq data items p Hitems Hsound) as [more Heq].
      rewrite Heq in Hst. simplify_eq. cbn. rewrite !app_nil_r.
      repeat split; try reflexivity. exists []. rewrite !app_nil_r. reflexivity.
    + destruct (handleHistoryResponse_skips data p Hitems)
        as (r' & st & Heq & Hm & Ho & Hl & _).
      rewrite Heq in Hst. simplify_eq. cbn. rewrite Z.add_0_r, Hm.
      repeat split; auto. exists []. rewrite app_nil_r. reflexivity.
  - (* typing *)
    revert Hst. app_unfold. intros Hst. simplify_eq. cbn. rewrite Z.add_0_r.
    repeat split; auto. exists []. rewrite app_nil_r. reflexivity.
Qed.

Lemma pages_cons (i : Input) (inputs : list Input) :
  pages (i :: inputs) = pages [i] ++ pages inputs.
Proof.
  destruct i; try reflexivity. cbn. destruct (history_items data); reflexivity.
Qed.

Lemma total_app (l1 l2 : list (list json)) : total (l1 ++ l2) = (total l1 + total l2)%Z.
Proof. unfold total. rewrite concat_app, length_app. lia. Qed.

Lemma run_history (trim : string -> string) (inputs : list Input) (p p' : Page)
    (t : list Client.Effect) :
  Forall (fun i => sound i = true) inputs ->
  shown (elements p) = messages (state p) ->
  run trim inputs p = (p', t) ->
  shown (elements p') = messages (state p')
  /\ (exists live,
        messages (state p')
        = concat (map (map entry_of) (rev (pages inputs))) ++ messages (state p) ++ live)
  /\ historyOffset (state p') = (historyOffset (state p) + total (pages inputs))%Z
  /\ historyLimit (state p') = historyLimit (state p).
Proof.
  revert p p' t. induction inputs as [|i inputs IH]; intros p p' t Hin Hshown Hrun.
  - cbn in Hrun. simplify_eq. cbn. rewrite Z.add_0_r. repeat split; auto.
    exists []. rewrite app_nil_r. reflexivity.
  - inversion Hin as [|? ? Hi Hrest]; subst. cbn [run] in Hrun.
    destruct (step trim i p) as [[r p1] t1] eqn:Hst.
    destruct (run trim inputs p1) as [p2 t2] eqn:Hr. simplify_eq.
    destruct (step_history trim i p r p1 t1 Hi Hshown Hst) as (Hs1 & [live1 Hm1] & Ho1 & Hl1).
    destruct (IH p1 p' t2 Hrest Hs1 Hr) as (Hs2 & [live2 Hm2] & Ho2 & Hl2).
    split; [exact Hs2|]. split; [|split; [|congruence]].
    + exists (live1 ++ live2). rewrite Hm2, Hm1, (pages_cons i inputs), rev_app_distr.
      rewrite map_app, concat_app.
      assert (Hone : concat (map (map entry_of) (rev (pages [i])))
                     = concat (map (map entry_of) (pages [i]))).
      { destruct i; try reflexivity. cbn. destruct (history_items data); reflexivity. }
      rewrite Hone, <- !app_assoc. reflexivity.
    + rewrite Ho2, Ho1, (pages_cons i inputs), total_app. lia.
Qed.

Lemma loadMoreHistory_eq (p : Page) :
  loadMoreHistory p
  = (Returns tt, p,
     if truthy (Some (hasMoreHistory (state p)))
     then written p (Client.HistoryRequest (historyOffset (state p)) (historyLimit (state p)))
     else []).
Proof.
  unfold loadMoreHistory, written. app_unfold.
  destruct (ws (state p)) as [c|] eqn:Hws.
  - destruct (ready p) eqn:Hready; cbn [andb].
    + destruct (truthy _); [|reflexivity].
      app_unfold. rewrite on_ws_send by exact Hws.
      destruct (ready_open p Hready) as (c' & id & Hws' & Hopen). simplify_eq.
      rewrite Hopen. reflexivity.
    + destruct (truthy _); [|reflexivity]. destruct (Client.open_socket _); reflexivity.
  - destruct (truthy _); reflexivity.
Qed.

(** Paging through the history.  In any run of the chat screen in which
    no page of history has [null] among its entries: every page is put
    in front of the messages already there, its entries in the order the
    server sent them, so that the page that arrived last comes first;
    what the chat shows is [state.messages]; [historyOffset] has grown
    by the number of entries received and [historyLimit] is unchanged;
    and "load earlier messages" then asks for [historyLimit] entries
    from that offset on, provided the client is ready and the last page
    said there was more, and otherwise asks for nothing. *)
Theorem history_is_prepended_page_by_page
    (trim : string -> string) (inputs : list Input) (p p' : Page) (t : list Client.Effect) :
  Forall (fun i => sound i = true) inputs ->
  shown (elements p) = messages (state p) ->
  run trim inputs p = (p', t) ->
  shown (elements p') = messages (state p')
  /\ (exists live,
        messages (state p')
        = concat (map (map entry_of) (rev (pages inputs))) ++ messages (state p) ++ live)
  /\ historyOffset (state p') = (historyOffset (state p) + total (pages inputs))%Z
  /\ historyLimit (state p') = historyLimit (state p)
  /\ loadMoreHistory p'
     = (Returns tt, p',
        if truthy (Some (hasMoreHistory (state p')))
        then written p' (Client.HistoryRequest
                           (historyOffset (state p) + total (pages inputs))
                           (historyLimit (state p)))
        else []).
Proof.
  intros Hin Hshown Hrun.
  destruct (run_history trim inputs p p' t Hin Hshown Hrun) as (H1 & H2 & H3 & H4).
  repeat (split; [assumption|]).
  rewrite loadMoreHistory_eq, H3, H4. reflexivity.
Qed.

Lemma history_is_prepended_page_by_page_two_pages :
  let p' := fst (run (fun s => s) two_pages signed_in) in
  map text (messages (state p'))
  = map (fun s => Some (JStr s)) ["one"; "two"; "three"; "four"; " hello "]
  /\ historyOffset (state p') = 4%Z
  /\ loadMoreHistory p' = (Returns tt, p', []).
Proof.
  destruct (history_is_prepended_page_by_page (fun s => s) two_pages signed_in
              (fst (run (fun s => s) two_pages signed_in))
              (snd (run (fun s => s) two_pages signed_in)))
    as (_ & _ & Hoff & _ & Hload).
  - repeat constructor.
  - reflexivity.
  - destruct (run (fun s => s) two_pages signed_in); reflexivity.
  - cbv zeta. split; [vm_compute; reflexivity|]. split; [rewrite Hoff; reflexivity|].
    rewrite Hload. reflexivity.
Defined.

End AppFacts.
